(** * Configuration drift checker: diff engine, normalizer and scanners

    Shallow embedding of [scripts/check_config.js] (temporal mode: two
    revisions, every environment) and [scripts/compare_envs.js]
    (cross-environment mode: [pt] against [prod] at one revision).

    Conventions of the embedding
    - a JavaScript string is a [string], compared unit by unit;
      [undefined] and [null] are [None];
    - a parsed property file (the object returned by the property parser)
      is a [gmap string string]: a flat map of own, string-valued
      properties, so that reading a key the file does not define gives
      [undefined]; its keys are enumerated in the order of [map_to_list],
      which is fixed for a given map but is not the insertion order of
      the JavaScript object: what is proved of a list of records is
      proved up to that order (membership, absence of repetition,
      permutation, the relative order of two results over the same
      keys);
    - the objects the scripts build ([result.envs], [result.diffs]) are
      [gmap]s as well, updated with [insert], [alter] and [delete];
    - the git handle, the property parser (taken to be total) and Node's
      [path] functions are parameters of the sections that use them; the
      repository is not modified during a run, so a call made twice
      answers the same; the handle is constructed at the top level of
      each script, before [main()] is called, and the constructor may
      throw;
    - backend calls and console output are recorded, in order, as a trace
      of events; the value printed by [console.log(JSON.stringify(...))]
      is recorded as the report itself, not as its JSON text. *)

From Stdlib Require Import Ascii String.
From stdpp Require Import gmap strings list fin_maps pretty.

Open Scope string_scope.
Open Scope list_scope.

(** ** JavaScript string primitives *)

Module JS.

(** [s.startsWith(pat)] on code-unit lists. *)
Fixpoint startsWith (pat s : list ascii) : bool :=
  match pat, s with
  | [], _ => true
  | _ :: _, [] => false
  | a :: pat', b :: s' => if decide (a = b) then startsWith pat' s' else false
  end.

(** One global pass [s.replace(/pat/g, '')] for a literal pattern: the
    scan goes left to right; at a match the [length pat] matched
    characters are dropped and the scan resumes after them, otherwise
    the current character is copied.  [skip] counts the characters of
    the current match that are still to be dropped. *)
Fixpoint replace_go (pat : list ascii) (skip : nat) (s : list ascii)
  : list ascii :=
  match s with
  | [] => []
  | c :: s' =>
      match skip with
      | S n => replace_go pat n s'
      | O =>
          if startsWith pat s
          then replace_go pat (pred (length pat)) s'
          else c :: replace_go pat 0 s'
      end
  end.

Definition replace_list (pat s : list ascii) : list ascii :=
  match pat with
  | [] => s
  | _ :: _ => replace_go pat 0 s
  end.

Definition replaceAll (pat s : string) : string :=
  string_of_list_ascii
    (replace_list (list_ascii_of_string pat) (list_ascii_of_string s)).

(** [s.includes(sub)]. *)
Fixpoint includes_list (sub s : list ascii) : bool :=
  startsWith sub s ||
  match s with
  | [] => false
  | _ :: s' => includes_list sub s'
  end.

Definition includes (s sub : string) : bool :=
  includes_list (list_ascii_of_string sub) (list_ascii_of_string s).

(** [s.endsWith(suffix)]. *)
Definition endsWith (s suffix : string) : bool :=
  startsWith (reverse (list_ascii_of_string suffix))
             (reverse (list_ascii_of_string s)).

(** [s.split(sep)] for a one-character separator. *)
Fixpoint split_go (sep : ascii) (cur : list ascii) (s : list ascii)
  : list string :=
  match s with
  | [] => [string_of_list_ascii (reverse cur)]
  | c :: s' =>
      if decide (c = sep)
      then string_of_list_ascii (reverse cur) :: split_go sep [] s'
      else split_go sep (c :: cur) s'
  end.

Definition split (sep : ascii) (s : string) : list string :=
  split_go sep [] (list_ascii_of_string s).

(** [[...new Set(l)]]: duplicates dropped, first occurrences kept in
    order. *)
Fixpoint uniq_go (seen l : list string) : list string :=
  match l with
  | [] => []
  | x :: l' =>
      if decide (x ∈ seen) then uniq_go seen l'
      else x :: uniq_go (x :: seen) l'
  end.

Definition uniq (l : list string) : list string := uniq_go [] l.

(** [s.trim()], for the white space and line terminators of the ASCII
    range (tab, line feed, vertical tab, form feed, carriage return,
    space). *)
Definition isWhite (c : ascii) : bool :=
  bool_decide (c ∈ ["009"; "010"; "011"; "012"; "013"; " "]%char).

Fixpoint trimStart (s : list ascii) : list ascii :=
  match s with
  | [] => []
  | c :: s' => if isWhite c then trimStart s' else s
  end.

Definition trim (s : string) : string :=
  string_of_list_ascii
    (reverse (trimStart (reverse (trimStart (list_ascii_of_string s))))).

End JS.

(** ** Specification-side reading of "delete every occurrence" *)

Module Occurrences.

(** [pat] occurs in [s] at offset [j]. *)
Definition occursAt (pat s : list ascii) (j : nat) : bool :=
  JS.startsWith pat (drop j s).

(** Position [i] of [s] lies inside some occurrence of [pat]. *)
Definition covered (pat s : list ascii) (i : nat) : bool :=
  existsb (fun j => occursAt pat s j && (i <? j + length pat)%nat)
          (seq 0 (S i)).

(** The characters of [s] that lie in no occurrence of [pat], in order. *)
Fixpoint keepUncovered (pat s : list ascii) (i : nat) (rest : list ascii)
  : list ascii :=
  match rest with
  | [] => []
  | c :: rest' =>
      if covered pat s i then keepUncovered pat s (S i) rest'
      else c :: keepUncovered pat s (S i) rest'
  end.

Definition deleteOccurrences_list (pat s : list ascii) : list ascii :=
  keepUncovered pat s 0 s.

Definition deleteOccurrences (pat s : string) : string :=
  string_of_list_ascii
    (deleteOccurrences_list (list_ascii_of_string pat)
                            (list_ascii_of_string s)).

(** No proper non-empty prefix of [pat] is also a suffix of it. *)
Definition borderFree (pat : list ascii) : bool :=
  forallb (fun d => negb (bool_decide (take (length pat - d) pat = drop d pat)))
          (seq 1 (pred (length pat))).

End Occurrences.

(** ** Plain objects used as maps *)

Module Obj.

(** [obj ? obj[key] : undefined] for a possibly-null parsed file. *)
Definition get (obj : option (gmap string string)) (key : string)
  : option string :=
  match obj with
  | Some o => o !! key
  | None => None
  end.

(** [Object.keys(obj || {})], up to the order of enumeration: the keys
    come in the order of [map_to_list], not in the insertion order of the
    object. *)
Definition keys (obj : option (gmap string string)) : list string :=
  (map_to_list (default ∅ obj)).*1.

(** [new Set([...Object.keys(a || {}), ...Object.keys(b || {})])]. *)
Definition allKeys (a b : option (gmap string string)) : list string :=
  JS.uniq (keys a ++ keys b).

(** Template-literal rendering [`${v}`] of a possibly-undefined string. *)
Definition str (v : option string) : string := default "undefined" v.

(** [!v] for a possibly-undefined string. *)
Definition falsy (v : option string) : bool :=
  match v with
  | None => true
  | Some s => bool_decide (s = "")
  end.

End Obj.

(** ** Process effects: backend calls and console output *)

Module Proc.

(** What the run does to the outside world, in order.  [J] is the type of
    the value handed to [console.log(JSON.stringify(_, null, 2))]. *)
Inductive Event (J : Type) : Type :=
| GitTags
| GitRaw (args : list string)
| GitShow (spec : string)
| FsAccess (p : string)
| Stdout (json : J)
| Stderr (line : string).

Arguments GitTags {J}.
Arguments GitRaw {J} args.
Arguments GitShow {J} spec.
Arguments FsAccess {J} p.
Arguments Stdout {J} json.
Arguments Stderr {J} line.

(** How a computation ends: a value, a thrown [Error] (its [message]), or
    [process.exit(code)], which no handler catches. *)
Inductive Outcome (A : Type) : Type :=
| Ret (a : A)
| Throw (message : string)
| Exit (code : nat).

Arguments Ret {A} a.
Arguments Throw {A} message.
Arguments Exit {A} code.

Definition M (J A : Type) : Type := list (Event J) * Outcome A.

#[global] Instance M_ret {J} : MRet (M J) := fun A a => ([], Ret a).

#[global] Instance M_bind {J} : MBind (M J) := fun A B f m =>
  match m.2 with
  | Ret a => (m.1 ++ (f a).1, (f a).2)
  | Throw e => (m.1, Throw e)
  | Exit c => (m.1, Exit c)
  end.

Definition throw {J A} (message : string) : M J A := ([], Throw message).

Definition exit {J A} (code : nat) : M J A := ([], Exit code).

Definition emit {J} (e : Event J) : M J unit := ([e], Ret tt).

(** [try { body } catch (err) { handler(err.message) }]. *)
Definition tryCatch {J A} (body : M J A) (handler : string → M J A) : M J A :=
  match body.2 with
  | Throw e => (body.1 ++ (handler e).1, (handler e).2)
  | _ => body
  end.

(** [for (const x of l) { st = await body(st, x) }]. *)
Fixpoint forEachM {J S A} (body : S → A → M J S) (st : S) (l : list A)
  : M J S :=
  match l with
  | [] => mret st
  | x :: l' => st' ← body st x; forEachM body st' l'
  end.

(** simple-git as the scripts meet it.  [simpleGit] is the outcome of the
    top-level [const git = simpleGit(repoPath)]: [None] when the handle is
    returned, [Some text] when the constructor throws (as it does for a
    directory that does not exist), [text] being what Node prints for the
    uncaught error.  The other fields are the answers of the handle: each
    call either resolves ([inr]) or rejects with an error message
    ([inl]). *)
Record Git : Type := {
  simpleGit : option string;            (* simpleGit(repoPath) *)
  tags : string + list string;          (* git.tags(), field [all] *)
  raw : list string → string + string;  (* git.raw([...]) *)
  show : string → string + string       (* git.show("rev:path") *)
}.

(** The functions of Node's [path] module that the scripts call. *)
Record Path : Type := {
  basename : string → string;
  dirname : string → string;
  relative : string → string → string;
  join : string → string → string;
  sep : ascii
}.

Definition await {J A} (e : Event J) (r : string + A) : M J A :=
  ([e], match r with inl msg => Throw msg | inr a => Ret a end).

(** Exit status of the process once the top-level promise settles. *)
Definition status {A} (o : Outcome A) : nat :=
  match o with
  | Ret _ => 0
  | Throw _ => 1
  | Exit c => c
  end.

End Proc.

Import Proc.

(** ** Temporal mode: [scripts/check_config.js] *)

Module CheckConfig.

Inductive ChangeKind : Type := added | removed | changed.

(** One element of [diffs]: [{ key, old, new, type }]. *)
Record ChangeRecord : Type := {
  key : string;
  old : option string;
  new : option string;
  type : ChangeKind
}.

#[global] Instance ChangeKind_eq_dec : EqDecision ChangeKind.
Proof. solve_decision. Defined.

#[global] Instance ChangeRecord_eq_dec : EqDecision ChangeRecord.
Proof. solve_decision. Defined.

(** Body of the [allKeys.forEach] callback, lines 38-50: the record
    pushed for [key], if any. *)
Definition diffOf (oldObj newObj : option (gmap string string)) (k : string)
  : option ChangeRecord :=
  let oldVal := Obj.get oldObj k in
  let newVal := Obj.get newObj k in
  if bool_decide (oldVal ≠ newVal) then
    Some {| key := k;
            old := oldVal;
            new := newVal;
            type := match oldVal with
                    | None => added
                    | Some _ =>
                        match newVal with
                        | None => removed
                        | Some _ => changed
                        end
                    end |}
  else None.

(** [computeDiffs(oldObj, newObj)], lines 32-52. *)
Definition computeDiffs (oldObj newObj : option (gmap string string))
  : list ChangeRecord :=
  omap (diffOf oldObj newObj) (Obj.allKeys oldObj newObj).

(** One entry of the report: [{ old, new, diffs }]. *)
Record FileDiff : Type := {
  oldContent : option (gmap string string);
  newContent : option (gmap string string);
  diffs : list ChangeRecord
}.

#[global] Instance FileDiff_eq_dec : EqDecision FileDiff.
Proof. solve_decision. Defined.

(** [result.envs]: environment name to file name to entry. *)
Abbreviation Report := (gmap string (gmap string FileDiff)).

Section Run.

Context (git : Git) (path : Path) (parse : string → gmap string string).
Context (oldTag newTag : string).

Abbreviation Run := (M Report).

Definition configDir : string := "config".

(** [getFileContent(tag, filePath)], lines 18-29. *)
Definition getFileContent (tag filePath : string)
  : Run (option (gmap string string)) :=
  tryCatch
    (content ← await (GitShow (tag +:+ ":" +:+ filePath))
                     (show git (tag +:+ ":" +:+ filePath));
     mret (Some (parse content)))
    (fun message =>
       if JS.includes message "exists on disk, but not in" then mret None
       else throw ("ไม่สามารถดึงไฟล์ " +:+ filePath +:+ " จาก tag " +:+ tag
                   +:+ ": " +:+ message)).

Definition lsTreeArgs (tag dir : string) : list string :=
  ["ls-tree"; "-r"; "--name-only"; tag; dir].

(** [listFiles(tag, dir)], lines 55-68. *)
Definition listFiles (tag dir : string) : Run (list string) :=
  tryCatch
    (output ← await (GitRaw (lsTreeArgs tag dir)) (raw git (lsTreeArgs tag dir));
     mret (filter (fun f => JS.trim f ≠ "") (JS.split "010" output)))
    (fun message =>
       if JS.includes message "not a valid pathspec"
       then throw ("Path ไม่ถูกต้อง: " +:+ dir +:+ " ใน tag " +:+ tag)
       else throw ("ไม่สามารถลิสต์ไฟล์จาก " +:+ dir +:+ " ใน tag " +:+ tag
                   +:+ ": " +:+ message)).

(** The environment a listed path belongs to, lines 95-97. *)
Definition envOf (p : string) : string :=
  default "" (head (JS.split (sep path)
                             (relative path configDir (dirname path p)))).

(** The environments of a listing, lines 93-100. *)
Definition envsOf (allFiles : list string) : list string :=
  JS.uniq (filter (fun p => p ≠ "" ∧ p ≠ ".") (envOf <$> allFiles)).

(** Whether the entry of a compared file is stored, line 121. *)
Definition retained (oldC newC : option (gmap string string))
  (ds : list ChangeRecord) : bool :=
  (0 <? length ds)%nat || bool_decide (oldC = None) || bool_decide (newC = None).

(** Body of the loop over the files of one environment, lines 112-128. *)
Definition processFile (env : string) (result : Report) (fullPath : string)
  : Run Report :=
  let fileName := basename path fullPath in
  oldC ← getFileContent oldTag fullPath;
  newC ← getFileContent newTag fullPath;
  let ds := computeDiffs oldC newC in
  if retained oldC newC ds
  then mret (alter (insert fileName
                      {| oldContent := oldC; newContent := newC; diffs := ds |})
                   env result)
  else mret result.

(** Body of the loop over the environments, lines 103-129. *)
Definition processEnv (result : Report) (env : string) : Run Report :=
  let result := <[env := ∅]> result in
  let envPath := configDir +:+ "/" +:+ env in
  listed ← listFiles newTag envPath;
  let files := filter (fun f => JS.endsWith f ".properties") listed in
  forEachM (processFile env) result files.

(** Body of the [for ... in] loop that drops empty environments, lines
    132-136. *)
Definition pruneEnv (result : Report) (env : string) : Report :=
  match result !! env with
  | Some files => if bool_decide (size files = 0) then delete env result else result
  | None => result
  end.

Definition prune (result : Report) : Report :=
  foldl pruneEnv result (map_to_list result).*1.

(** The reference check of lines 74-80. *)
Definition validateRefs : Run unit :=
  allTags ← await GitTags (tags git);
  commits ← await (GitRaw ["rev-list"; "--all"]) (raw git ["rev-list"; "--all"]);
  let validRefs := allTags ++ JS.split "010" commits in
  if negb (bool_decide (oldTag ∈ validRefs))
     || negb (bool_decide (newTag ∈ validRefs))
  then throw ("Tag หรือ commit ไม่ถูกต้อง: oldTag=" +:+ oldTag
              +:+ ", newTag=" +:+ newTag)
  else mret tt.

(** Discovery, comparison and output, lines 82-139. *)
Definition scan (result : Report) : Run unit :=
  listing ← tryCatch (allFiles ← listFiles newTag configDir;
                      mret (Some allFiles))
                     (fun _ => emit (Stdout result);; mret None);
  match listing with
  | None => mret tt
  | Some allFiles =>
      result ← forEachM processEnv result (envsOf allFiles);
      emit (Stdout (prune result))
  end.

(** [main()], lines 70-144. *)
Definition main : Run unit :=
  let result : Report := ∅ in
  tryCatch
    (validateRefs;; scan result)
    (fun message => emit (Stderr ("ข้อผิดพลาด: " +:+ message));; exit 1).

(** *** Views of a run, used to state its properties *)

(** The [.properties] paths compared in [env], when the listing of the
    environment succeeds. *)
Definition filesOf (env : string) : option (list string) :=
  match (listFiles newTag (configDir +:+ "/" +:+ env)).2 with
  | Ret listed => Some (filter (fun f => JS.endsWith f ".properties") listed)
  | _ => None
  end.

(** The entry computed for a compared path (lines 115-118 and 122-126),
    when both fetches succeed. *)
Definition fileDiffOf (fullPath : string) : option FileDiff :=
  match (getFileContent oldTag fullPath).2, (getFileContent newTag fullPath).2 with
  | Ret oldC, Ret newC =>
      Some {| oldContent := oldC; newContent := newC;
              diffs := computeDiffs oldC newC |}
  | _, _ => None
  end.

(** [report[env][fileName]]. *)
Definition entry (report : Report) (env fileName : string) : option FileDiff :=
  report !! env ≫= (.!! fileName).

(** What the loop of lines 112-128 leaves in [result.envs[env]] for the
    paths it has gone through: an entry is stored under the base name of
    its path, over any entry already there. *)
Definition storeFile (m : gmap string FileDiff) (fullPath : string)
  : gmap string FileDiff :=
  match fileDiffOf fullPath with
  | Some fd =>
      if retained (oldContent fd) (newContent fd) (diffs fd)
      then <[basename path fullPath := fd]> m
      else m
  | None => m
  end.

Definition entriesOf (files : list string) : gmap string FileDiff :=
  foldl storeFile ∅ files.

End Run.

(** The script from its first line: [process.argv] is destructured and
    the usage check runs (lines 7-11), the handle is constructed (line 15),
    then [main()] is called.  An error thrown by the constructor is not
    caught: Node prints it on the error stream and exits with status 1. *)
Definition script (git : Git) (path : Path) (parse : string → gmap string string)
  (argv : list string) : list (Event Report) * nat :=
  let oldTag := argv !! 2%nat in
  let newTag := argv !! 3%nat in
  if Obj.falsy oldTag || Obj.falsy newTag
  then ([Stderr "การใช้งาน: node check_config.js <oldTag> <newTag>"], 1%nat)
  else
    match simpleGit git with
    | Some text => ([Stderr text], 1%nat)
    | None =>
        let r := main git path parse (default "" oldTag) (default "" newTag) in
        (r.1, status r.2)
    end.

End CheckConfig.

(** ** Cross-environment mode: [scripts/compare_envs.js] *)

Module CompareEnvs.

Inductive ChangeKind : Type := added_in_prod | added_in_pt | changed.

(** One element of [diffs]: [{ key, pt, prod, type }]. *)
Record ChangeRecord : Type := {
  key : string;
  pt : option string;
  prod : option string;
  type : ChangeKind
}.

#[global] Instance ChangeKind_eq_dec : EqDecision ChangeKind.
Proof. solve_decision. Defined.

#[global] Instance ChangeRecord_eq_dec : EqDecision ChangeRecord.
Proof. solve_decision. Defined.

(** The rule set of each role, lines 45-47. *)
Definition patterns (isPt : bool) : list string :=
  if isPt then ["pt-"; "contents-pt"] else ["prod-"; "prd-"; "contents"].

(** [normalizeValue(value, isPt)], lines 42-53. *)
Definition normalizeValue (value : option string) (isPt : bool) : string :=
  if Obj.falsy value then ""
  else foldl (fun normalized pattern => JS.replaceAll pattern normalized)
             (default "" value) (patterns isPt).

(** The value of [shouldIgnore] once lines 68-77 have run. *)
Definition shouldIgnore (applyFilter : bool) (ptVal prodVal : option string)
  : bool :=
  if applyFilter then
    let normalizedPtVal := normalizeValue ptVal true in
    let normalizedProdVal := normalizeValue prodVal false in
    bool_decide (normalizedPtVal ≠ "")
    && bool_decide (normalizedProdVal ≠ "")
    && bool_decide (normalizedPtVal = normalizedProdVal)
  else false.

(** Body of the [allKeys.forEach] callback, lines 63-90: the record
    pushed for [key], if any. *)
Definition diffOf (ptObj prodObj : option (gmap string string))
  (applyFilter : bool) (k : string) : option ChangeRecord :=
  let ptVal := Obj.get ptObj k in
  let prodVal := Obj.get prodObj k in
  if bool_decide (ptVal ≠ prodVal) then
    if shouldIgnore applyFilter ptVal prodVal then None
    else
      Some {| key := k;
              pt := ptVal;
              prod := prodVal;
              type := match ptVal with
                      | None => added_in_prod
                      | Some _ =>
                          match prodVal with
                          | None => added_in_pt
                          | Some _ => changed
                          end
                      end |}
  else None.

(** [computeDiffs(ptObj, prodObj, applyFilter)], lines 56-100: the
    returned array. *)
Definition computeDiffs (ptObj prodObj : option (gmap string string))
  (applyFilter : bool) : list ChangeRecord :=
  omap (diffOf ptObj prodObj applyFilter) (Obj.allKeys ptObj prodObj).

(** The keys for which the callback takes the [shouldIgnore] branch. *)
Definition ignoredKeys (ptObj prodObj : option (gmap string string))
  (applyFilter : bool) : list string :=
  filter (fun k =>
            Obj.get ptObj k ≠ Obj.get prodObj k
            ∧ shouldIgnore applyFilter (Obj.get ptObj k) (Obj.get prodObj k))
         (Obj.allKeys ptObj prodObj).

Fixpoint joinWith (sep : string) (l : list string) : string :=
  match l with
  | [] => ""
  | [x] => x
  | x :: l' => x +:+ sep +:+ joinWith sep l'
  end.

(** The lines [computeDiffs] writes with [console.error]: one per skipped
    key (line 87), then the summary of lines 93-97. *)
Definition computeDiffsLog (ptObj prodObj : option (gmap string string))
  (applyFilter : bool) : list string :=
  let ignored := ignoredKeys ptObj prodObj applyFilter in
  ((fun k => "ข้าม diff: " +:+ k +:+ " (pt: " +:+ Obj.str (Obj.get ptObj k)
             +:+ ", prod: " +:+ Obj.str (Obj.get prodObj k) +:+ ")")
     <$> ignored)
  ++ (if applyFilter then
        match ignored with
        | [] => ["ไม่มีคีย์ที่ถูกกรอง"]
        | _ :: _ =>
            ["คีย์ที่ถูกกรอง: " +:+
             joinWith ", "
               ((fun k => k +:+ " (pt: " +:+ Obj.str (Obj.get ptObj k)
                          +:+ ", prod: " +:+ Obj.str (Obj.get prodObj k)
                          +:+ ", normalized: "
                          +:+ normalizeValue (Obj.get ptObj k) true +:+ ")")
                  <$> ignored)]
        end
      else []).

(** One entry of the report: [{ pt, prod, diffs }]. *)
Record FileDiff : Type := {
  ptContent : option (gmap string string);
  prodContent : option (gmap string string);
  diffs : list ChangeRecord
}.

#[global] Instance FileDiff_eq_dec : EqDecision FileDiff.
Proof. solve_decision. Defined.

(** [result.diffs]: file name to entry. *)
Abbreviation Report := (gmap string FileDiff).

(** [result.envs]: environment name to file name to fetched content. *)
Abbreviation Contents := (gmap string (gmap string (option (gmap string string)))).

Section Run.

Context (git : Git) (path : Path) (parse : string → gmap string string).
Context (access : string → option string) (repoPath : string).
Context (tag : string).

Abbreviation Run := (M Report).

(** [checkRepoPath()], lines 17-26; [access p] is the rejection message
    of [fs.access(p)], if it rejects. *)
Definition fsAccess (p : string) : Run unit :=
  await (FsAccess p) (match access p with Some msg => inl msg | None => inr tt end).

Definition checkRepoPath : Run unit :=
  tryCatch
    (fsAccess repoPath;;
     fsAccess (join path repoPath ".git");;
     emit (Stderr ("Repo path ถูกต้อง: " +:+ repoPath)))
    (fun _ =>
       emit (Stderr ("ข้อผิดพลาด: Directory " +:+ repoPath
                     +:+ " ไม่มีอยู่หรือไม่ใช่ Git repository"));;
       exit 1).

(** [getFileContent(tag, filePath)], lines 31-39. *)
Definition getFileContent (rev filePath : string)
  : Run (option (gmap string string)) :=
  tryCatch
    (content ← await (GitShow (rev +:+ ":" +:+ filePath))
                     (show git (rev +:+ ":" +:+ filePath));
     mret (Some (parse content)))
    (fun message =>
       if JS.includes message "exists on disk, but not in" then mret None
       else throw ("ไม่สามารถดึงไฟล์ " +:+ filePath +:+ " จาก tag " +:+ rev
                   +:+ ": " +:+ message)).

Definition lsTreeArgs (rev dir : string) : list string :=
  ["ls-tree"; "-r"; "--name-only"; rev; dir].

(** [listFiles(tag, dir)], lines 103-110. *)
Definition listFiles (rev dir : string) : Run (list string) :=
  tryCatch
    (output ← await (GitRaw (lsTreeArgs rev dir)) (raw git (lsTreeArgs rev dir));
     mret (filter (fun f => JS.trim f ≠ "") (JS.split "010" output)))
    (fun message =>
       throw ("ไม่สามารถลิสต์ไฟล์จาก " +:+ dir +:+ " ใน tag " +:+ rev
              +:+ ": " +:+ message)).

Definition configDir : string := "config".

(** Body of the inner loop, lines 135-139. *)
Definition collectFile (env : string) (envs : Contents) (fullPath : string)
  : Run Contents :=
  let fileName := basename path fullPath in
  content ← getFileContent tag fullPath;
  mret (alter (insert fileName content) env envs).

(** Body of the loop over [['pt', 'prod']], lines 130-140. *)
Definition collectEnv (envs : Contents) (env : string) : Run Contents :=
  let envPath := configDir +:+ "/" +:+ env in
  listed ← listFiles tag envPath;
  let files := filter (fun f => JS.endsWith f ".properties") listed in
  forEachM (collectFile env) envs files.

(** Whether the entry of a compared file is stored, line 149. *)
Definition retained (ptC prodC : option (gmap string string))
  (ds : list ChangeRecord) : bool :=
  (0 <? length ds)%nat || bool_decide (ptC = None) || bool_decide (prodC = None).

(** [result.envs.pt[fileName] || null]. *)
Definition contentOf (envs : Contents) (env fileName : string)
  : option (gmap string string) :=
  mjoin (default ∅ (envs !! env) !! fileName).

(** The [filter] binding of line 7. *)
Context (filter : string).

(** Body of the [allFiles.forEach] callback, lines 144-156. *)
Definition compareFile (envs : Contents) (result : Report) (fileName : string)
  : Run Report :=
  let ptC := contentOf envs "pt" fileName in
  let prodC := contentOf envs "prod" fileName in
  let applyFilter := bool_decide (filter = "true") in
  forEachM (fun _ line => emit (Stderr line)) tt
           (computeDiffsLog ptC prodC applyFilter);;
  let ds := computeDiffs ptC prodC applyFilter in
  if retained ptC prodC ds
  then mret (<[fileName := {| ptContent := ptC; prodContent := prodC;
                              diffs := ds |}]> result)
  else mret result.

(** The file names compared, line 143. *)
Definition allFiles (envs : Contents) : list string :=
  JS.uniq ((map_to_list (default ∅ (envs !! "pt"))).*1
           ++ (map_to_list (default ∅ (envs !! "prod"))).*1).

(** The total printed on line 162. *)
Definition totalDiffs (result : Report) : nat :=
  foldl (fun sum file => sum + length (diffs file))%nat 0%nat
        (map_to_list result).*2.

(** The reference check of lines 118-124. *)
Definition validateRef : Run unit :=
  allTags ← await GitTags (tags git);
  commits ← await (GitRaw ["rev-list"; "--all"]) (raw git ["rev-list"; "--all"]);
  let validRefs := allTags ++ JS.split "010" commits in
  if negb (bool_decide (tag ∈ validRefs))
  then throw ("Tag หรือ commit ไม่ถูกต้อง: " +:+ tag)
  else mret tt.

(** The comparison of lines 143-156. *)
Definition compareAll (envs : Contents) : Run Report :=
  forEachM (compareFile envs) ∅ (allFiles envs).

(** [main()], lines 112-170. *)
Definition main : Run unit :=
  checkRepoPath;;
  let envs : Contents := {[ "pt" := ∅; "prod" := ∅ ]} in
  tryCatch
    (validateRef;;
     envs ← forEachM collectEnv envs ["pt"; "prod"];
     result ← compareAll envs;
     emit (Stderr ("จำนวน diffs รวม: " +:+ pretty (totalDiffs result)));;
     emit (Stdout result))
    (fun message => emit (Stderr ("ข้อผิดพลาด: " +:+ message));; exit 1).

(** *** Views of a run, used to state its properties *)

(** The entry computed for a compared file name (lines 145-147 and
    150-154). *)
Definition fileDiffOf (envs : Contents) (fileName : string) : FileDiff :=
  {| ptContent := contentOf envs "pt" fileName;
     prodContent := contentOf envs "prod" fileName;
     diffs := computeDiffs (contentOf envs "pt" fileName)
                (contentOf envs "prod" fileName) (bool_decide (filter = "true")) |}.

(** The contents gathered by the loop of lines 130-140. *)
Definition collect : Run Contents :=
  forEachM collectEnv {[ "pt" := ∅; "prod" := ∅ ]} ["pt"; "prod"].

End Run.

(** The destructuring default of line 7: ['true'] when the second
    argument is absent. *)
Definition filterArg (argv : list string) : string :=
  default "true" (argv !! 3%nat).

(** The script from its first line: [process.argv] is destructured and
    the usage check runs (lines 7-11), the handle is constructed (line 28),
    then [main()] is called.  An error thrown by the constructor is not
    caught: Node prints it on the error stream and exits with status 1. *)
Definition script (git : Git) (path : Path) (parse : string → gmap string string)
  (access : string → option string) (repoPath : string)
  (argv : list string) : list (Event Report) * nat :=
  let tag := argv !! 2%nat in
  let filter := filterArg argv in
  if Obj.falsy tag
  then ([Stderr "การใช้งาน: node compare_envs.js <tag> [filter]"], 1%nat)
  else
    match simpleGit git with
    | Some text => ([Stderr text], 1%nat)
    | None =>
        let r := main git path parse access repoPath (default "" tag) filter in
        (r.1, status r.2)
    end.

End CompareEnvs.

(** ** A small repository, used to exercise the scripts *)

Module Sample.

(** POSIX readings of the [path] functions, for relative paths without
    [.] or [..] segments. *)
Definition basename (p : string) : string :=
  default "" (last (JS.split "/" p)).

Definition dirname (p : string) : string :=
  match removelast (JS.split "/" p) with
  | [] => "."
  | d :: ds => foldl (fun acc seg => acc +:+ "/" +:+ seg) d ds
  end.

Definition relative (from to : string) : string :=
  if bool_decide (from = to) then ""
  else if JS.startsWith (list_ascii_of_string (from +:+ "/"))
                        (list_ascii_of_string to)
       then string_of_list_ascii
              (drop (String.length from + 1) (list_ascii_of_string to))
       else to.

Definition join (a b : string) : string := a +:+ "/" +:+ b.

Definition posix : Path :=
  {| Proc.basename := basename; Proc.dirname := dirname;
     Proc.relative := relative; Proc.join := join; Proc.sep := "/" |}.

(** A property parser for lines of the form [key=value]. *)
Definition parseLine (m : gmap string string) (line : string)
  : gmap string string :=
  match JS.split "=" line with
  | [k; v] => <[k := v]> m
  | _ => m
  end.

Definition parse (content : string) : gmap string string :=
  foldl parseLine ∅ (JS.split "010" content).

Definition nl : string := String "010" "".

(** Two tags.  [config/pt] holds the same file name in two
    subdirectories; [config/prod/svc.properties] exists at [v2] only. *)
Definition lsTree (rev dir : string) : string + string :=
  if bool_decide (rev = "v2" ∧ dir = "config") then
    inr ("config/prod/svc.properties" +:+ nl
         +:+ "config/pt/a/svc.properties" +:+ nl
         +:+ "config/pt/b/svc.properties" +:+ nl)
  else if bool_decide (rev = "v2" ∧ dir = "config/pt") then
    inr ("config/pt/a/svc.properties" +:+ nl
         +:+ "config/pt/b/svc.properties" +:+ nl)
  else if bool_decide (rev = "v2" ∧ dir = "config/prod") then
    inr ("config/prod/svc.properties" +:+ nl)
  else inl "fatal: not a valid pathspec".

Definition repo : Git :=
  {| simpleGit := None;
     tags := inr ["v1"; "v2"];
     raw := fun args =>
       match args with
       | ["rev-list"; "--all"] => inr ("c0ffee" +:+ nl +:+ "decade" +:+ nl)
       | ["ls-tree"; "-r"; "--name-only"; rev; dir] => lsTree rev dir
       | _ => inl "fatal: unknown command"
       end;
     show := fun spec =>
       if bool_decide (spec = "v1:config/pt/a/svc.properties") then inr "host=pt-a"
       else if bool_decide (spec = "v2:config/pt/a/svc.properties") then inr "host=pt-x"
       else if bool_decide (spec = "v1:config/pt/b/svc.properties") then inr "host=pt-b"
       else if bool_decide (spec = "v2:config/pt/b/svc.properties") then inr "host=pt-svc"
       else if bool_decide (spec = "v2:config/prod/svc.properties") then inr "host=prod-svc"
       else inl "fatal: path exists on disk, but not in the revision" |}.

Definition access (p : string) : option string := None.

(** The report a run prints last, if any. *)
Definition printed {J} `{Empty J} (trace : list (Event J)) : J :=
  match last trace with
  | Some (Stdout r) => r
  | _ => ∅
  end.

Definition temporalReport : gmap string (gmap string CheckConfig.FileDiff) :=
  printed (CheckConfig.main repo posix parse "v1" "v2").1.

(** The entry computed for [config/pt/a/svc.properties] between [v1] and
    [v2]: one changed key. *)
Definition shadowed : CheckConfig.FileDiff :=
  {| CheckConfig.oldContent := Some {[ "host" := "pt-a" ]};
     CheckConfig.newContent := Some {[ "host" := "pt-x" ]};
     CheckConfig.diffs :=
       [ {| CheckConfig.key := "host"; CheckConfig.old := Some "pt-a";
            CheckConfig.new := Some "pt-x";
            CheckConfig.type := CheckConfig.changed |} ] |}.

Definition crossReport (flt : string) : gmap string CompareEnvs.FileDiff :=
  printed (CompareEnvs.main repo posix parse access "/srv/cloud-config"
             "v2" flt).1.

(** The entries the sample runs print. *)
Definition overwriting : CheckConfig.FileDiff :=
  {| CheckConfig.oldContent := Some {[ "host" := "pt-b" ]};
     CheckConfig.newContent := Some {[ "host" := "pt-svc" ]};
     CheckConfig.diffs :=
       [ {| CheckConfig.key := "host"; CheckConfig.old := Some "pt-b";
            CheckConfig.new := Some "pt-svc";
            CheckConfig.type := CheckConfig.changed |} ] |}.

Definition addedFile : CheckConfig.FileDiff :=
  {| CheckConfig.oldContent := None;
     CheckConfig.newContent := Some {[ "host" := "prod-svc" ]};
     CheckConfig.diffs :=
       [ {| CheckConfig.key := "host"; CheckConfig.old := None;
            CheckConfig.new := Some "prod-svc";
            CheckConfig.type := CheckConfig.added |} ] |}.

Definition unfiltered : CompareEnvs.FileDiff :=
  {| CompareEnvs.ptContent := Some {[ "host" := "pt-svc" ]};
     CompareEnvs.prodContent := Some {[ "host" := "prod-svc" ]};
     CompareEnvs.diffs :=
       [ {| CompareEnvs.key := "host"; CompareEnvs.pt := Some "pt-svc";
            CompareEnvs.prod := Some "prod-svc";
            CompareEnvs.type := CompareEnvs.changed |} ] |}.

(** The maps of the first scenario of the specification. *)
Definition oldMap : option (gmap string string) :=
  Some {[ "a" := "1"; "b" := "2" ]}.

Definition newMap : option (gmap string string) :=
  Some {[ "a" := "1"; "b" := "3"; "c" := "4" ]}.

Definition changedB : CheckConfig.ChangeRecord :=
  {| CheckConfig.key := "b"; CheckConfig.old := Some "2";
     CheckConfig.new := Some "3"; CheckConfig.type := CheckConfig.changed |}.

(** The maps of the second scenario. *)
Definition ptMap : option (gmap string string) :=
  Some {[ "host" := "pt-svc" ]}.

Definition prodMap : option (gmap string string) :=
  Some {[ "host" := "prod-svc" ]}.

End Sample.

(** ** Vocabulary of the specification *)

Module Spec.

(** The two sides disagree on [k]: the key is present on one side only,
    or on both with different values. *)
Definition disagree (A B : option (gmap string string)) (k : string) : Prop :=
  (is_Some (Obj.get A k) ∧ Obj.get B k = None)
  ∨ (Obj.get A k = None ∧ is_Some (Obj.get B k))
  ∨ (∃ x y, Obj.get A k = Some x ∧ Obj.get B k = Some y ∧ x ≠ y).

Definition onlyLeft (A B : option (gmap string string)) (k : string) : Prop :=
  is_Some (Obj.get A k) ∧ Obj.get B k = None.

Definition onlyRight (A B : option (gmap string string)) (k : string) : Prop :=
  Obj.get A k = None ∧ is_Some (Obj.get B k).

Definition bothDiffer (A B : option (gmap string string)) (k : string) : Prop :=
  ∃ x y, Obj.get A k = Some x ∧ Obj.get B k = Some y ∧ x ≠ y.

(** The file has at least one record or lacks one of its two sides. *)
Definition worthReporting {R} (left right : option (gmap string string))
  (records : list R) : Prop :=
  records ≠ [] ∨ left = None ∨ right = None.

(** [ref] names a tag or a commit listed by [rev-list --all]. *)
Definition resolvable (git : Git) (ref : string) : Prop :=
  (∃ allTags, tags git = inr allTags ∧ ref ∈ allTags)
  ∨ (∃ commits, raw git ["rev-list"; "--all"] = inr commits
                ∧ ref ∈ JS.split "010" commits).

(** The event lists files or fetches file content. *)
Definition touchesFiles {J} (e : Event J) : Prop :=
  match e with
  | GitShow _ => True
  | GitRaw args => args ≠ ["rev-list"; "--all"]
  | _ => False
  end.

(** The command line asks for suppression: the second argument is
    absent or is exactly ["true"]. *)
Definition suppressionRequested (argv : list string) : Prop :=
  argv !! 3%nat = None ∨ argv !! 3%nat = Some "true".

Definition printsJson {J} (e : Event J) : Prop :=
  match e with Stdout _ => True | _ => False end.

(** A line of the error stream that reports a failure: the usage line of
    a script, or a line written by one of its [catch] handlers.  The
    progress lines of compare_envs.js (the accepted repository path, the
    skipped keys, the total) are not such lines. *)
Definition failureLine (line : string) : bool :=
  JS.startsWith (list_ascii_of_string "การใช้งาน: ") (list_ascii_of_string line)
  || JS.startsWith (list_ascii_of_string "ข้อผิดพลาด: ")
       (list_ascii_of_string line).

(** What a failed run ends on: a failure line of the script, or the text
    Node prints when the constructor of the handle throws. *)
Definition diagnostic {J} (git : Git) (e : Event J) : Prop :=
  match e with
  | Stderr line => failureLine line = true ∨ simpleGit git = Some line
  | _ => False
  end.

(** The two roles of the normalizer. *)
Definition RoleA : bool := true.
Definition RoleB : bool := false.

End Spec.

(** ** Readings used by the further properties *)

Module Views.

(** A temporal record read from the other side: old and new exchanged,
    [added] and [removed] exchanged. *)
Definition flipKind (k : CheckConfig.ChangeKind) : CheckConfig.ChangeKind :=
  match k with
  | CheckConfig.added => CheckConfig.removed
  | CheckConfig.removed => CheckConfig.added
  | CheckConfig.changed => CheckConfig.changed
  end.

Definition flip (r : CheckConfig.ChangeRecord) : CheckConfig.ChangeRecord :=
  {| CheckConfig.key := CheckConfig.key r;
     CheckConfig.old := CheckConfig.new r;
     CheckConfig.new := CheckConfig.old r;
     CheckConfig.type := flipKind (CheckConfig.type r) |}.

(** The same for a cross-environment record. *)
Definition flipKindEnv (k : CompareEnvs.ChangeKind) : CompareEnvs.ChangeKind :=
  match k with
  | CompareEnvs.added_in_prod => CompareEnvs.added_in_pt
  | CompareEnvs.added_in_pt => CompareEnvs.added_in_prod
  | CompareEnvs.changed => CompareEnvs.changed
  end.

Definition flipEnv (r : CompareEnvs.ChangeRecord) : CompareEnvs.ChangeRecord :=
  {| CompareEnvs.key := CompareEnvs.key r;
     CompareEnvs.pt := CompareEnvs.prod r;
     CompareEnvs.prod := CompareEnvs.pt r;
     CompareEnvs.type := flipKindEnv (CompareEnvs.type r) |}.

(** A cross-environment record in the vocabulary of the temporal script:
    [pt] is the old side, [prod] the new one. *)
Definition toTemporal (r : CompareEnvs.ChangeRecord) : CheckConfig.ChangeRecord :=
  {| CheckConfig.key := CompareEnvs.key r;
     CheckConfig.old := CompareEnvs.pt r;
     CheckConfig.new := CompareEnvs.prod r;
     CheckConfig.type := match CompareEnvs.type r with
                         | CompareEnvs.added_in_prod => CheckConfig.added
                         | CompareEnvs.added_in_pt => CheckConfig.removed
                         | CompareEnvs.changed => CheckConfig.changed
                         end |}.

(** None of the substrings removed for either role occurs in [x]. *)
Definition labelFree (x : string) : bool :=
  forallb (fun pat => negb (JS.includes x pat))
          (CompareEnvs.patterns true ++ CompareEnvs.patterns false).

(** The text [git ls-tree --name-only] prints for a list of paths: one
    path per line, each line ended by a line feed. *)
Definition lsTreeOutput (paths : list string) : string :=
  foldr (fun p out => p +:+ String "010" out) "" paths.

(** A path that [listFiles] gives back unchanged: it holds no line feed
    and is not blank. *)
Definition plainPath (p : string) : bool :=
  negb (bool_decide ("010"%char ∈ list_ascii_of_string p))
  && negb (bool_decide (JS.trim p = "")).

(** Nothing in the trace prints a report. *)
Definition quiet {J} (tr : list (Event J)) : Prop :=
  Forall (fun e => ¬ Spec.printsJson e) tr.

(** The event is a call to the git handle. *)
Definition gitCall {J} (e : Event J) : Prop :=
  match e with
  | GitTags | GitRaw _ | GitShow _ => True
  | _ => False
  end.

(** What the loop of lines 135-139 of [compare_envs.js] leaves in
    [result.envs[env]] for the paths it has gone through: the fetched
    content is stored under the base name of its path, over any content
    already there. *)
Definition storeContent (git : Git) (path : Path)
  (parse : string → gmap string string) (tag : string)
  (m : gmap string (option (gmap string string))) (fullPath : string)
  : gmap string (option (gmap string string)) :=
  match (CompareEnvs.getFileContent git parse tag fullPath).2 with
  | Ret content => <[basename path fullPath := content]> m
  | _ => m
  end.

Definition gathered (git : Git) (path : Path)
  (parse : string → gmap string string) (tag : string)
  (files : list string) : gmap string (option (gmap string string)) :=
  foldl (storeContent git path parse tag) ∅ files.

(** The [.properties] paths listed for an environment at [tag], when the
    listing succeeds. *)
Definition listed (git : Git) (tag env : string) : option (list string) :=
  match (CompareEnvs.listFiles git tag
           (CompareEnvs.configDir +:+ "/" +:+ env)).2 with
  | Ret l => Some (filter (fun f => JS.endsWith f ".properties") l)
  | _ => None
  end.

(** The sample repository with one unreadable object: showing
    [config/prod/svc.properties] at [v1] fails with an error that is not
    the file-absent one. *)
Definition flaky : Git :=
  {| simpleGit := None;
     tags := tags Sample.repo;
     raw := raw Sample.repo;
     show := fun spec =>
       if bool_decide (spec = "v1:config/prod/svc.properties")
       then inl "fatal: unable to read tree"
       else show Sample.repo spec |}.

(** The sample repository with a stale listing: [config/pt] at [v2] also
    lists [config/pt/gone.properties], which cannot be shown at any
    revision. *)
Definition stale : Git :=
  {| simpleGit := None;
     tags := tags Sample.repo;
     raw := fun args =>
       if bool_decide (args = ["ls-tree"; "-r"; "--name-only"; "v2"; "config/pt"])
       then inr ("config/pt/gone.properties" +:+ Sample.nl)
       else raw Sample.repo args;
     show := show Sample.repo |}.

Definition ghostEntry : CheckConfig.FileDiff :=
  {| CheckConfig.oldContent := None; CheckConfig.newContent := None;
     CheckConfig.diffs := [] |}.

(** A working copy without its [.git] directory. *)
Definition noDotGit (p : string) : option string :=
  if bool_decide (p = "/srv/cloud-config") then None
  else Some "ENOENT: no such file or directory".

End Views.

(** * Properties *)

(** ** String scanning *)

Section Scan.

Implicit Types pat s : list ascii.

Lemma chars_append a b :
  list_ascii_of_string (a +:+ b) = list_ascii_of_string a ++ list_ascii_of_string b.
Proof. induction a as [|c a IH]; simpl; [done | by rewrite IH]. Qed.

Lemma startsWith_prefix pat s : JS.startsWith pat s = true ↔ pat `prefix_of` s.
Proof.
  revert s. induction pat as [|a pat IH]; intros [|b s]; simpl.
  - split; [intros _; apply prefix_nil | done].
  - split; [intros _; apply prefix_nil | done].
  - split; [done | intros H; by apply prefix_nil_not in H].
  - case_decide as Hab.
    + subst b. rewrite IH. split; [apply prefix_cons | apply prefix_cons_inv_2].
    + split; [done | intros H; by apply prefix_cons_inv_1 in H].
Qed.

Lemma failureLine_error text :
  Spec.failureLine ("ข้อผิดพลาด: " +:+ text) = true.
Proof.
  unfold Spec.failureLine. apply orb_true_iff. right.
  apply startsWith_prefix. rewrite chars_append. by eexists.
Qed.

Lemma replace_go_skip pat k s :
  JS.replace_go pat k s = JS.replace_go pat 0 (drop k s).
Proof.
  revert k. induction s as [|c s IH]; intros [|k]; simpl; by try apply IH.
Qed.

Lemma drop_cons_inv s n c r : drop n s = c :: r → drop (S n) s = r.
Proof.
  intros H. replace (S n) with (n + 1)%nat by lia.
  by rewrite <- drop_drop, H.
Qed.

Lemma occursAt_app pat s j :
  Occurrences.occursAt pat s j = true ↔ ∃ k, drop j s = pat ++ k.
Proof. unfold Occurrences.occursAt. by rewrite startsWith_prefix. Qed.

Lemma borderFree_spec pat d :
  Occurrences.borderFree pat = true → (0 < d < length pat)%nat →
  take (length pat - d) pat ≠ drop d pat.
Proof.
  unfold Occurrences.borderFree. rewrite forallb_forall. intros H Hd Heq.
  specialize (H d). rewrite in_seq in H.
  assert (Hin : (1 ≤ d < 1 + pred (length pat))%nat) by lia.
  apply H in Hin. rewrite bool_decide_eq_true_2 in Hin; done.
Qed.

(** Two occurrences of a border-free pattern never overlap. *)
Lemma occurrences_disjoint pat s n d :
  Occurrences.borderFree pat = true →
  Occurrences.occursAt pat s n = true →
  Occurrences.occursAt pat s (n + d) = true →
  (0 < d)%nat → (length pat ≤ d)%nat.
Proof.
  intros Hbf [k1 H1]%occursAt_app [k2 H2]%occursAt_app Hd.
  destruct (decide (length pat ≤ d)%nat) as [|Hlt]; [done|]. exfalso.
  apply (borderFree_spec pat d Hbf); [lia|].
  rewrite <- drop_drop, H1, drop_app_le in H2 by lia.
  assert (Hlen : length (drop d pat) = (length pat - d)%nat)
    by apply length_drop.
  apply (f_equal (take (length pat - d))) in H2.
  rewrite take_app_length' in H2 by done.
  rewrite take_app_le in H2 by lia. done.
Qed.

Lemma covered_true pat s i j :
  (j ≤ i < j + length pat)%nat → Occurrences.occursAt pat s j = true →
  Occurrences.covered pat s i = true.
Proof.
  intros Hij Hocc. unfold Occurrences.covered. apply existsb_exists.
  exists j. split; [apply in_seq; lia|].
  rewrite Hocc. simpl. apply Nat.ltb_lt. lia.
Qed.

Lemma covered_false pat s i :
  (∀ j, (j ≤ i)%nat → Occurrences.occursAt pat s j = true →
        (j + length pat ≤ i)%nat) →
  Occurrences.covered pat s i = false.
Proof.
  intros H. unfold Occurrences.covered.
  apply not_true_is_false. intros [j [Hj Hb]]%existsb_exists.
  apply in_seq in Hj. apply andb_true_iff in Hb as [Hocc Hlt].
  apply Nat.ltb_lt in Hlt.
  assert (j ≤ i)%nat as Hji by lia. specialize (H j Hji Hocc). lia.
Qed.

Lemma keepUncovered_skip pat s k : ∀ n,
  (∀ i, (n ≤ i < n + k)%nat → Occurrences.covered pat s i = true) →
  Occurrences.keepUncovered pat s n (drop n s)
  = Occurrences.keepUncovered pat s (n + k) (drop (n + k) s).
Proof.
  induction k as [|k IH]; intros n Hcov.
  - by rewrite Nat.add_0_r.
  - destruct (drop n s) as [|c r] eqn:Hd.
    + rewrite (drop_ge s (n + S k)); [done|].
      apply (f_equal length) in Hd. rewrite length_drop in Hd. simpl in Hd. lia.
    + simpl. rewrite Hcov by lia.
      apply drop_cons_inv in Hd. subst r.
      replace (n + S k)%nat with (S n + k)%nat by lia.
      apply IH. intros i Hi. apply Hcov. lia.
Qed.

(** The scan deletes exactly the characters that lie inside an
    occurrence of a border-free pattern. *)
Lemma replace_go_uncovered pat s :
  pat ≠ [] → Occurrences.borderFree pat = true →
  ∀ m n, (length s - n ≤ m)%nat →
    (∀ j, (j < n)%nat → Occurrences.occursAt pat s j = true →
          (j + length pat ≤ n)%nat) →
    JS.replace_go pat 0 (drop n s)
    = Occurrences.keepUncovered pat s n (drop n s).
Proof.
  intros Hne Hbf.
  assert (Hlen : (0 < length pat)%nat) by (destruct pat; [done | simpl; lia]).
  induction m as [|m IH]; intros n Hm Hinv.
  - rewrite drop_ge by lia. done.
  - destruct (drop n s) as [|c r] eqn:Hd; [done|].
    assert (Hn : (n < length s)%nat).
    { apply (f_equal length) in Hd. rewrite length_drop in Hd. simpl in Hd. lia. }
    pose proof (drop_cons_inv _ _ _ _ Hd) as Hr.
    cbn [JS.replace_go].
    destruct (JS.startsWith pat (c :: r)) eqn:Hsw.
    + assert (Hocc : Occurrences.occursAt pat s n = true)
        by (unfold Occurrences.occursAt; by rewrite Hd).
      rewrite replace_go_skip. subst r. rewrite drop_drop.
      replace (S n + pred (length pat))%nat with (n + length pat)%nat by lia.
      rewrite IH; [| lia |].
      * rewrite <- Hd. symmetry. apply keepUncovered_skip.
        intros i Hi. apply (covered_true pat s i n); [lia | done].
      * intros j Hj Hoj.
        destruct (decide (j < n)%nat) as [Hjn|Hjn].
        { specialize (Hinv j Hjn Hoj). lia. }
        destruct (decide (j = n)) as [->|Hne']; [lia|].
        replace j with (n + (j - n))%nat in Hoj by lia.
        pose proof (occurrences_disjoint pat s n (j - n) Hbf Hocc Hoj). lia.
    + assert (Hocc : Occurrences.occursAt pat s n = false)
        by (unfold Occurrences.occursAt; by rewrite Hd).
      cbn [Occurrences.keepUncovered]. rewrite covered_false.
      * f_equal. subst r. apply IH; [lia|].
        intros j Hj Hoj. destruct (decide (j = n)) as [->|]; [congruence|].
        assert (j < n)%nat as Hjn by lia. specialize (Hinv j Hjn Hoj). lia.
      * intros j Hj Hoj. destruct (decide (j = n)) as [->|]; [congruence|].
        apply Hinv; [lia | done].
Qed.

Lemma replace_list_deleteOccurrences pat s :
  Occurrences.borderFree pat = true →
  pat ≠ [] →
  JS.replace_list pat s = Occurrences.deleteOccurrences_list pat s.
Proof.
  intros Hbf Hne. unfold JS.replace_list, Occurrences.deleteOccurrences_list.
  destruct pat as [|a pat]; [done|].
  apply (replace_go_uncovered (a :: pat) s Hne Hbf (length s) 0%nat).
  - rewrite Nat.sub_0_r. done.
  - intros j Hj. lia.
Qed.

End Scan.

Lemma replaceAll_deleteOccurrences (pat s : string) :
  Occurrences.borderFree (list_ascii_of_string pat) = true →
  pat ≠ "" →
  JS.replaceAll pat s = Occurrences.deleteOccurrences pat s.
Proof.
  intros Hbf Hne. unfold JS.replaceAll, Occurrences.deleteOccurrences.
  f_equal. apply replace_list_deleteOccurrences; [done|].
  intros Hnil. apply Hne. by destruct pat.
Qed.

(** ** Key sets *)

Lemma elem_of_uniq_go seen l x :
  x ∈ JS.uniq_go seen l ↔ x ∈ l ∧ x ∉ seen.
Proof.
  revert seen. induction l as [|y l IH]; intros seen; simpl.
  - set_solver.
  - case_decide as Hy.
    + rewrite IH. destruct (decide (x = y)) as [->|]; set_solver.
    + rewrite elem_of_cons, IH.
      destruct (decide (x = y)) as [->|]; set_solver.
Qed.

Lemma NoDup_uniq_go seen l : NoDup (JS.uniq_go seen l).
Proof.
  revert seen. induction l as [|y l IH]; intros seen; simpl.
  - constructor.
  - case_decide; [apply IH|].
    constructor; [|apply IH]. rewrite elem_of_uniq_go. set_solver.
Qed.

Lemma elem_of_uniq l x : x ∈ JS.uniq l ↔ x ∈ l.
Proof. unfold JS.uniq. rewrite elem_of_uniq_go. set_solver. Qed.

Lemma NoDup_uniq l : NoDup (JS.uniq l).
Proof. apply NoDup_uniq_go. Qed.

Lemma elem_of_map_keys {V} (m : gmap string V) k :
  k ∈ (map_to_list m).*1 ↔ is_Some (m !! k).
Proof.
  rewrite list_elem_of_fmap. split.
  - intros [[k' v] [-> Hin]]. apply elem_of_map_to_list in Hin. by exists v.
  - intros [v Hv]. exists (k, v). split; [done|]. by apply elem_of_map_to_list.
Qed.

Lemma elem_of_keys obj k : k ∈ Obj.keys obj ↔ is_Some (Obj.get obj k).
Proof.
  unfold Obj.keys, Obj.get. rewrite elem_of_map_keys.
  destruct obj as [m|]; simpl; [done|]. by rewrite lookup_empty.
Qed.

Lemma elem_of_allKeys A B k :
  k ∈ Obj.allKeys A B ↔ is_Some (Obj.get A k) ∨ is_Some (Obj.get B k).
Proof.
  unfold Obj.allKeys. by rewrite elem_of_uniq, elem_of_app, !elem_of_keys.
Qed.

Lemma NoDup_allKeys A B : NoDup (Obj.allKeys A B).
Proof. apply NoDup_uniq. Qed.

Lemma disagree_ne A B k : Spec.disagree A B k ↔ Obj.get A k ≠ Obj.get B k.
Proof.
  unfold Spec.disagree.
  destruct (Obj.get A k) as [x|], (Obj.get B k) as [y|]; split.
  - intros [[_ ?]|[[? _]|(?&?&?&?&?)]]; congruence.
  - intros H. right; right. exists x, y. repeat split; congruence.
  - intros _. congruence.
  - intros _. left. eauto.
  - intros _. congruence.
  - intros _. right; left. eauto.
  - intros [[[? ?] _]|[[_ [? ?]]|(?&?&?&?&?)]]; congruence.
  - congruence.
Qed.

(** The keys of the records kept by a key-preserving selection form a
    sublist of the keys scanned. *)
Lemma omap_keys_sublist {R} (f : string → option R) (keyOf : R → string) l :
  (∀ k r, f k = Some r → keyOf r = k) →
  keyOf <$> omap f l `sublist_of` l.
Proof.
  intros Hkey. induction l as [|k l IH]; simpl; [done|].
  destruct (f k) as [r|] eqn:Hf; simpl.
  - rewrite (Hkey _ _ Hf). by apply sublist_skip.
  - by apply sublist_cons.
Qed.

(** ** The diff engines *)

Lemma CheckConfig_diffOf_Some A B k r :
  CheckConfig.diffOf A B k = Some r →
  CheckConfig.key r = k
  ∧ CheckConfig.old r = Obj.get A k
  ∧ CheckConfig.new r = Obj.get B k
  ∧ Obj.get A k ≠ Obj.get B k.
Proof.
  unfold CheckConfig.diffOf. case_bool_decide; [|done].
  intros [= <-]. done.
Qed.

Lemma CheckConfig_diffOf_ne A B k :
  Obj.get A k ≠ Obj.get B k → is_Some (CheckConfig.diffOf A B k).
Proof. intros H. unfold CheckConfig.diffOf. rewrite bool_decide_eq_true_2; eauto. Qed.

Lemma CheckConfig_elem_of_computeDiffs A B r :
  r ∈ CheckConfig.computeDiffs A B ↔
  CheckConfig.diffOf A B (CheckConfig.key r) = Some r.
Proof.
  unfold CheckConfig.computeDiffs. rewrite list_elem_of_omap. split.
  - intros (k & _ & Hk).
    by destruct (CheckConfig_diffOf_Some _ _ _ _ Hk) as (<- & _).
  - intros Hr. exists (CheckConfig.key r). split; [|done].
    apply CheckConfig_diffOf_Some in Hr as (_ & _ & _ & Hne).
    apply elem_of_allKeys.
    destruct (Obj.get A (CheckConfig.key r)), (Obj.get B (CheckConfig.key r));
      eauto; congruence.
Qed.

Lemma CompareEnvs_diffOf_Some A B f k r :
  CompareEnvs.diffOf A B f k = Some r →
  CompareEnvs.key r = k
  ∧ CompareEnvs.pt r = Obj.get A k
  ∧ CompareEnvs.prod r = Obj.get B k
  ∧ Obj.get A k ≠ Obj.get B k
  ∧ CompareEnvs.shouldIgnore f (Obj.get A k) (Obj.get B k) = false.
Proof.
  unfold CompareEnvs.diffOf. case_bool_decide; [|done].
  destruct (CompareEnvs.shouldIgnore _ _ _) eqn:Hi; [done|].
  intros [= <-]. done.
Qed.

Lemma CompareEnvs_diffOf_ne A B f k :
  Obj.get A k ≠ Obj.get B k →
  CompareEnvs.shouldIgnore f (Obj.get A k) (Obj.get B k) = false →
  is_Some (CompareEnvs.diffOf A B f k).
Proof.
  intros H Hi. unfold CompareEnvs.diffOf.
  rewrite bool_decide_eq_true_2, Hi; eauto.
Qed.

Lemma CompareEnvs_elem_of_computeDiffs A B f r :
  r ∈ CompareEnvs.computeDiffs A B f ↔
  CompareEnvs.diffOf A B f (CompareEnvs.key r) = Some r.
Proof.
  unfold CompareEnvs.computeDiffs. rewrite list_elem_of_omap. split.
  - intros (k & _ & Hk).
    by destruct (CompareEnvs_diffOf_Some _ _ _ _ _ Hk) as (<- & _).
  - intros Hr. exists (CompareEnvs.key r). split; [|done].
    apply CompareEnvs_diffOf_Some in Hr as (_ & _ & _ & Hne & _).
    apply elem_of_allKeys.
    destruct (Obj.get A (CompareEnvs.key r)), (Obj.get B (CompareEnvs.key r));
      eauto; congruence.
Qed.

(** A record is determined by its key: the value pushed for [k]. *)
Lemma CompareEnvs_diffOf_filter_free A B f k r :
  CompareEnvs.diffOf A B f k = Some r → CompareEnvs.diffOf A B false k = Some r.
Proof.
  unfold CompareEnvs.diffOf. case_bool_decide; [|done].
  destruct (CompareEnvs.shouldIgnore f _ _); [done|]. done.
Qed.

Lemma CheckConfig_key_mem A B k :
  k ∈ CheckConfig.key <$> CheckConfig.computeDiffs A B ↔ Obj.get A k ≠ Obj.get B k.
Proof.
  rewrite list_elem_of_fmap. split.
  - intros (r & -> & Hr). apply CheckConfig_elem_of_computeDiffs in Hr.
    by apply CheckConfig_diffOf_Some in Hr as (_ & _ & _ & Hne).
  - intros Hne. destruct (CheckConfig_diffOf_ne A B k Hne) as [r Hr].
    pose proof (CheckConfig_diffOf_Some _ _ _ _ Hr) as (Hk & _).
    exists r. split; [done|]. apply CheckConfig_elem_of_computeDiffs.
    by rewrite Hk.
Qed.

Lemma CompareEnvs_key_mem A B f k :
  k ∈ CompareEnvs.key <$> CompareEnvs.computeDiffs A B f ↔
  Obj.get A k ≠ Obj.get B k
  ∧ CompareEnvs.shouldIgnore f (Obj.get A k) (Obj.get B k) = false.
Proof.
  rewrite list_elem_of_fmap. split.
  - intros (r & -> & Hr). apply CompareEnvs_elem_of_computeDiffs in Hr.
    by apply CompareEnvs_diffOf_Some in Hr as (_ & _ & _ & Hne & Hi).
  - intros [Hne Hi]. destruct (CompareEnvs_diffOf_ne A B f k Hne Hi) as [r Hr].
    pose proof (CompareEnvs_diffOf_Some _ _ _ _ _ Hr) as (Hk & _).
    exists r. split; [done|]. apply CompareEnvs_elem_of_computeDiffs.
    by rewrite Hk.
Qed.

Lemma CheckConfig_keys_NoDup A B :
  NoDup (CheckConfig.key <$> CheckConfig.computeDiffs A B).
Proof.
  eapply sublist_NoDup; [apply (NoDup_allKeys A B)|].
  apply omap_keys_sublist. intros k r Hr.
  by apply CheckConfig_diffOf_Some in Hr as (? & _).
Qed.

Lemma CompareEnvs_keys_NoDup A B f :
  NoDup (CompareEnvs.key <$> CompareEnvs.computeDiffs A B f).
Proof.
  eapply sublist_NoDup; [apply (NoDup_allKeys A B)|].
  apply omap_keys_sublist. intros k r Hr.
  by apply CompareEnvs_diffOf_Some in Hr as (? & _).
Qed.

(** C1: without suppression, the keys of the records returned by either
    diff engine are exactly the keys on which the two sides disagree
    (one-sided presence or different values); a key with equal values
    never appears, and no key appears in two records. *)
Theorem C1_diff_keys_exactly_disagreeing (A B : option (gmap string string)) :
  (∀ k, k ∈ CheckConfig.key <$> CheckConfig.computeDiffs A B ↔ Spec.disagree A B k)
  ∧ NoDup (CheckConfig.key <$> CheckConfig.computeDiffs A B)
  ∧ (∀ k, k ∈ CompareEnvs.key <$> CompareEnvs.computeDiffs A B false
          ↔ Spec.disagree A B k)
  ∧ NoDup (CompareEnvs.key <$> CompareEnvs.computeDiffs A B false)
  ∧ (∀ k, Spec.disagree A B k → k ∈ Obj.allKeys A B).
Proof.
  split; [|split; [|split; [|split]]].
  - intros k. by rewrite CheckConfig_key_mem, disagree_ne.
  - apply CheckConfig_keys_NoDup.
  - intros k. rewrite CompareEnvs_key_mem, disagree_ne. simpl. tauto.
  - apply CompareEnvs_keys_NoDup.
  - intros k Hd%disagree_ne. apply elem_of_allKeys.
    destruct (Obj.get A k), (Obj.get B k); eauto; congruence.
Qed.

(** C4: in both diff engines the kind of an emitted record is Added
    ([added], [added_in_prod]) exactly when its key is present only on the
    new/right side, Removed ([removed], [added_in_pt]) exactly when it is
    present only on the old/left side, and Changed exactly when it is
    present on both sides with different values. *)
Theorem C4_change_kind_classification (A B : option (gmap string string)) :
  (∀ r, r ∈ CheckConfig.computeDiffs A B →
     (CheckConfig.type r = CheckConfig.added
        ↔ Spec.onlyRight A B (CheckConfig.key r))
     ∧ (CheckConfig.type r = CheckConfig.removed
          ↔ Spec.onlyLeft A B (CheckConfig.key r))
     ∧ (CheckConfig.type r = CheckConfig.changed
          ↔ Spec.bothDiffer A B (CheckConfig.key r)))
  ∧ (∀ applyFilter r, r ∈ CompareEnvs.computeDiffs A B applyFilter →
       (CompareEnvs.type r = CompareEnvs.added_in_prod
          ↔ Spec.onlyRight A B (CompareEnvs.key r))
       ∧ (CompareEnvs.type r = CompareEnvs.added_in_pt
            ↔ Spec.onlyLeft A B (CompareEnvs.key r))
       ∧ (CompareEnvs.type r = CompareEnvs.changed
            ↔ Spec.bothDiffer A B (CompareEnvs.key r))).
Proof.
  unfold Spec.onlyRight, Spec.onlyLeft, Spec.bothDiffer. split.
  - intros r Hr%CheckConfig_elem_of_computeDiffs.
    unfold CheckConfig.diffOf in Hr. case_bool_decide as Hne; [|done].
    injection Hr as <-. simpl in *.
    destruct (Obj.get A _) as [x|], (Obj.get B _) as [y|];
      repeat split; try done; try (intros [? ?]; done);
      try (intros [[? ?] ?]; done); try (intros [? [? ?]]; done);
      try (intros (?&?&?&?&?); done); eauto.
    intros _. exists x, y. repeat split. congruence.
  - intros f r Hr%CompareEnvs_elem_of_computeDiffs.
    unfold CompareEnvs.diffOf in Hr. case_bool_decide as Hne; [|done].
    destruct (CompareEnvs.shouldIgnore _ _ _); [done|].
    injection Hr as <-. simpl in *.
    destruct (Obj.get A _) as [x|], (Obj.get B _) as [y|];
      repeat split; try done; try (intros [? ?]; done);
      try (intros [[? ?] ?]; done); try (intros [? [? ?]]; done);
      try (intros (?&?&?&?&?); done); eauto.
    intros _. exists x, y. repeat split. congruence.
Qed.

Lemma normalizeValue_None isPt : CompareEnvs.normalizeValue None isPt = "".
Proof. done. Qed.

Lemma shouldIgnore_true l r :
  CompareEnvs.shouldIgnore true l r = true ↔
  CompareEnvs.normalizeValue l true = CompareEnvs.normalizeValue r false
  ∧ CompareEnvs.normalizeValue l true ≠ "".
Proof.
  unfold CompareEnvs.shouldIgnore.
  rewrite !andb_true_iff, !bool_decide_eq_true. split.
  - intros [[? ?] ?]. done.
  - intros [Heq ?]. repeat split; [done| |done]. by rewrite <- Heq.
Qed.

(** C2: with suppression enabled the record of a key is dropped exactly
    when the key is a Changed-type difference whose Role-A normalization
    of the left value equals the Role-B normalization of the right value,
    that string being non-empty; with suppression disabled every
    disagreeing key has its record; the records of keys present on one
    side only are never dropped; and suppression only removes records,
    leaving the others unchanged. *)
Theorem C2_suppression_exactly_normalized_equal
  (A B : option (gmap string string)) (k : string) :
  ((k ∈ CompareEnvs.key <$> CompareEnvs.computeDiffs A B false
    ∧ k ∉ CompareEnvs.key <$> CompareEnvs.computeDiffs A B true)
   ↔ Spec.bothDiffer A B k
     ∧ CompareEnvs.normalizeValue (Obj.get A k) Spec.RoleA
       = CompareEnvs.normalizeValue (Obj.get B k) Spec.RoleB
     ∧ CompareEnvs.normalizeValue (Obj.get A k) Spec.RoleA ≠ "")
  ∧ (k ∈ CompareEnvs.key <$> CompareEnvs.computeDiffs A B false
     ↔ Spec.disagree A B k)
  ∧ (Spec.onlyLeft A B k ∨ Spec.onlyRight A B k →
     k ∈ CompareEnvs.key <$> CompareEnvs.computeDiffs A B true)
  ∧ (∀ r, r ∈ CompareEnvs.computeDiffs A B true →
          r ∈ CompareEnvs.computeDiffs A B false).
Proof.
  unfold Spec.RoleA, Spec.RoleB.
  rewrite !CompareEnvs_key_mem. split; [|split; [|split]].
  - split.
    + intros [[Hne _] Hnot].
      assert (Hi : CompareEnvs.shouldIgnore true (Obj.get A k) (Obj.get B k) = true).
      { destruct (CompareEnvs.shouldIgnore true _ _) eqn:E; [done|].
        exfalso. by apply Hnot. }
      apply shouldIgnore_true in Hi as [Heq Hnz]. split; [|done].
      unfold Spec.bothDiffer.
      destruct (Obj.get A k) as [x|] eqn:Ea; [|done].
      destruct (Obj.get B k) as [y|] eqn:Eb.
      * exists x, y. repeat split. congruence.
      * rewrite normalizeValue_None in Heq. done.
    + intros [(x & y & Ea & Eb & Hxy) [Heq Hnz]]. rewrite Ea, Eb in *.
      split; [split; [congruence | done]|].
      intros [_ Hi].
      assert (CompareEnvs.shouldIgnore true (Some x) (Some y) = true)
        by (by apply shouldIgnore_true). congruence.
  - rewrite disagree_ne. simpl. tauto.
  - unfold Spec.onlyLeft, Spec.onlyRight. intros Hside.
    assert (Hne : Obj.get A k ≠ Obj.get B k).
    { destruct Hside as [[[? Ha] Hb]|[Ha [? Hb]]]; congruence. }
    split; [done|].
    destruct (CompareEnvs.shouldIgnore true _ _) eqn:E; [|done].
    apply shouldIgnore_true in E as [Heq Hnz].
    destruct Hside as [[_ Hb]|[Ha _]].
    + rewrite Hb, normalizeValue_None in Heq. congruence.
    + rewrite Ha, normalizeValue_None in Hnz. done.
  - intros r Hr%CompareEnvs_elem_of_computeDiffs.
    apply CompareEnvs_elem_of_computeDiffs.
    by eapply CompareEnvs_diffOf_filter_free.
Qed.

(** ** The normalizer *)

Lemma patterns_borderFree isPt pat :
  pat ∈ CompareEnvs.patterns isPt →
  Occurrences.borderFree (list_ascii_of_string pat) = true ∧ pat ≠ "".
Proof.
  destruct isPt; simpl; rewrite ?elem_of_cons, elem_of_nil;
    intros H; repeat destruct H as [->|H]; try done.
Qed.

(** C3: the normalizer is total; an absent or empty value gives the empty
    string; otherwise Role A deletes every occurrence of "pt-" and then
    every occurrence of "contents-pt", and Role B every occurrence of
    "prod-", then of "prd-", then of "contents", each rule being applied
    to the whole string before the next; "pt-svc" under Role A and
    "prod-svc" under Role B both give "svc". *)
Theorem C3_normalizer_deletes_every_occurrence :
  (∀ role, CompareEnvs.normalizeValue None role = "")
  ∧ (∀ role, CompareEnvs.normalizeValue (Some "") role = "")
  ∧ (∀ v, CompareEnvs.normalizeValue (Some v) Spec.RoleA
          = Occurrences.deleteOccurrences "contents-pt"
              (Occurrences.deleteOccurrences "pt-" v))
  ∧ (∀ v, CompareEnvs.normalizeValue (Some v) Spec.RoleB
          = Occurrences.deleteOccurrences "contents"
              (Occurrences.deleteOccurrences "prd-"
                 (Occurrences.deleteOccurrences "prod-" v)))
  ∧ CompareEnvs.normalizeValue (Some "pt-svc") Spec.RoleA = "svc"
  ∧ CompareEnvs.normalizeValue (Some "prod-svc") Spec.RoleB = "svc".
Proof.
  split; [done|]. split; [done|]. split; [|split; [|split]].
  - intros v. destruct v as [|c v]; [done|].
    unfold CompareEnvs.normalizeValue, Spec.RoleA. simpl foldl.
    cbn [Obj.falsy]. rewrite bool_decide_eq_false_2 by done. simpl default.
    rewrite !replaceAll_deleteOccurrences; done.
  - intros v. destruct v as [|c v]; [done|].
    unfold CompareEnvs.normalizeValue, Spec.RoleB. simpl foldl.
    cbn [Obj.falsy]. rewrite bool_decide_eq_false_2 by done. simpl default.
    rewrite !replaceAll_deleteOccurrences; done.
  - vm_compute. reflexivity.
  - vm_compute. reflexivity.
Qed.

(** C10: the normalizer is not idempotent.  Each rule is one left-to-right
    pass, so a deletion can bring characters together into a new
    occurrence: "ppt-t-x" under Role A gives "pt-x", which still contains
    "pt-", and normalizing again gives "x". *)
Theorem C10_normalizer_not_idempotent :
  CompareEnvs.normalizeValue (Some "ppt-t-x") Spec.RoleA = "pt-x"
  ∧ JS.includes "pt-x" "pt-" = true
  ∧ CompareEnvs.normalizeValue
      (Some (CompareEnvs.normalizeValue (Some "ppt-t-x") Spec.RoleA)) Spec.RoleA
    = "x"
  ∧ ¬ (∀ v role,
         CompareEnvs.normalizeValue
           (Some (CompareEnvs.normalizeValue (Some v) role)) role
         = CompareEnvs.normalizeValue (Some v) role).
Proof.
  split; [vm_compute; reflexivity|]. split; [vm_compute; reflexivity|].
  split; [vm_compute; reflexivity|].
  intros H. specialize (H "ppt-t-x" true). vm_compute in H. discriminate H.
Qed.

(** ** Reasoning about runs *)

Section Runs.

Context {J : Type}.

Lemma bind_unfold {A B} (m : M J A) (f : A → M J B) :
  m ≫= f = match m.2 with
           | Ret a => (m.1 ++ (f a).1, (f a).2)
           | Throw e => (m.1, Throw e)
           | Exit c => (m.1, Exit c)
           end.
Proof. done. Qed.

Lemma bind_Ret {A B} (m : M J A) (f : A → M J B) tr a :
  m = (tr, Ret a) → m ≫= f = (tr ++ (f a).1, (f a).2).
Proof. intros ->. done. Qed.

Lemma bind_Ret_inv {A B} (m : M J A) (f : A → M J B) tr b :
  m ≫= f = (tr, Ret b) →
  ∃ tr1 a tr2, m = (tr1, Ret a) ∧ f a = (tr2, Ret b) ∧ tr = tr1 ++ tr2.
Proof.
  rewrite bind_unfold. destruct m as [tr1 [a|e|c]]; simpl; [|done..].
  destruct (f a) as [tr2 o] eqn:Hf. simpl. intros [= <- ->].
  by exists tr1, a, tr2.
Qed.

Lemma bind_events {A B} (m : M J A) (f : A → M J B) e :
  e ∈ (m ≫= f).1 → e ∈ m.1 ∨ ∃ a, m.2 = Ret a ∧ e ∈ (f a).1.
Proof.
  rewrite bind_unfold. destruct m as [tr1 [a|msg|c]]; simpl; [|auto..].
  rewrite elem_of_app. intros [?|?]; [auto|]. right. by exists a.
Qed.

Lemma tryCatch_events {A} (m : M J A) (h : string → M J A) e :
  e ∈ (tryCatch m h).1 → e ∈ m.1 ∨ ∃ msg, m.2 = Throw msg ∧ e ∈ (h msg).1.
Proof.
  unfold tryCatch. destruct m as [tr1 [a|msg|c]]; simpl; [auto| |auto].
  rewrite elem_of_app. intros [?|?]; [auto|]. right. by exists msg.
Qed.

Lemma forEachM_events {S A} (P : Event J → Prop)
  (body : S → A → M J S) (l : list A) :
  (∀ st x, x ∈ l → Forall P (body st x).1) →
  ∀ st, Forall P (forEachM body st l).1.
Proof.
  induction l as [|x l IH]; intros Hbody st; simpl.
  - constructor.
  - rewrite bind_unfold.
    pose proof (Hbody st x (list_elem_of_here _ _)) as Hx.
    assert (∀ st', Forall P (forEachM body st' l).1) as Hl.
    { apply IH. intros st' y Hy. apply Hbody. by apply list_elem_of_further. }
    destruct (body st x) as [tr1 [st'|msg|c]]; simpl in *; [|done..].
    apply Forall_app. split; [done | apply Hl].
Qed.

(** Loop invariant rule: [I pre st] relates the state to the elements
    already processed. *)
Lemma forEachM_invariant {S A} (I : list A → S → Prop)
  (body : S → A → M J S) (l : list A) st0 :
  I [] st0 →
  (∀ pre x st st' tr,
     pre ++ [x] `prefix_of` l → I pre st → body st x = (tr, Ret st') →
     I (pre ++ [x]) st') →
  ∀ tr st, forEachM body st0 l = (tr, Ret st) → I l st.
Proof.
  intros H0 Hstep.
  assert (∀ suf pre st1 tr st,
            l = pre ++ suf → I pre st1 →
            forEachM body st1 suf = (tr, Ret st) → I l st) as Hgen.
  { induction suf as [|x suf IH]; intros pre st1 tr st Hl Hpre Hrun.
    - simpl in Hrun. injection Hrun as <- <-. by rewrite Hl, app_nil_r.
    - simpl in Hrun. apply bind_Ret_inv in Hrun as (tr1 & st' & tr2 & Hb & Hrest & _).
      apply (IH (pre ++ [x]) st' tr2 st).
      + by rewrite <- app_assoc.
      + eapply Hstep; [|done..]. exists suf. by rewrite <- app_assoc.
      + done. }
  intros tr st Hrun. by apply (Hgen l [] st0 tr st).
Qed.

(** A loop that returns has run its body to completion on every
    element. *)
Lemma forEachM_Ret_body {S A} (body : S → A → M J S) (l : list A) :
  ∀ st0 tr st, forEachM body st0 l = (tr, Ret st) →
  ∀ x, x ∈ l → ∃ st1 tr1 st2, body st1 x = (tr1, Ret st2).
Proof.
  induction l as [|y l IH]; intros st0 tr st Hrun x Hx.
  - by apply elem_of_nil in Hx.
  - simpl in Hrun. apply bind_Ret_inv in Hrun as (tr1 & st' & tr2 & Hb & Hrest & _).
    apply elem_of_cons in Hx as [->|Hx]; [eauto|]. by eapply IH.
Qed.

End Runs.

(** ** Runs of [check_config.js] *)

Section CheckConfigRuns.

Context (git : Git) (path : Path) (parse : string → gmap string string).
Context (oldTag newTag : string).

Local Abbreviation getFileContent := (CheckConfig.getFileContent git parse).
Local Abbreviation listFiles := (CheckConfig.listFiles git).
Local Abbreviation processFile := (CheckConfig.processFile git path parse oldTag newTag).
Local Abbreviation processEnv := (CheckConfig.processEnv git path parse oldTag newTag).
Local Abbreviation fileDiffOf := (CheckConfig.fileDiffOf git parse oldTag newTag).
Local Abbreviation filesOf := (CheckConfig.filesOf git newTag).
Local Abbreviation storeFile := (CheckConfig.storeFile git path parse oldTag newTag).
Local Abbreviation entriesOf := (CheckConfig.entriesOf git path parse oldTag newTag).
Local Abbreviation validateRefs := (CheckConfig.validateRefs git oldTag newTag).
Local Abbreviation scan := (CheckConfig.scan git path parse oldTag newTag).
Local Abbreviation main := (CheckConfig.main git path parse oldTag newTag).

Lemma CheckConfig_getFileContent_trace tag p :
  (getFileContent tag p).1 = [GitShow (tag +:+ ":" +:+ p)].
Proof.
  unfold CheckConfig.getFileContent, tryCatch, await. rewrite bind_unfold.
  destruct (show git _) as [msg|content]; simpl; [|done].
  by destruct (JS.includes msg _).
Qed.

Lemma CheckConfig_listFiles_trace tag dir :
  (listFiles tag dir).1 = [GitRaw (CheckConfig.lsTreeArgs tag dir)].
Proof.
  unfold CheckConfig.listFiles, tryCatch, await. rewrite bind_unfold.
  destruct (raw git _) as [msg|output]; simpl; [|done].
  by destruct (JS.includes msg _).
Qed.

Lemma CheckConfig_processFile_Ret env res p tr res' :
  processFile env res p = (tr, Ret res') →
  ∃ fd, fileDiffOf p = Some fd
        ∧ res' = if CheckConfig.retained (CheckConfig.oldContent fd)
                      (CheckConfig.newContent fd) (CheckConfig.diffs fd)
                 then alter (insert (basename path p) fd) env res
                 else res.
Proof.
  unfold CheckConfig.processFile, CheckConfig.fileDiffOf.
  intros (tr1 & oldC & tr2 & Ho & Hrest & _)%bind_Ret_inv.
  apply bind_Ret_inv in Hrest as (tr3 & newC & tr4 & Hn & Hrest & _).
  rewrite Ho, Hn. simpl. eexists. split; [done|]. simpl.
  destruct (CheckConfig.retained _ _ _); by injection Hrest as _ <-.
Qed.

Lemma CheckConfig_processFile_events env res p e :
  e ∈ (processFile env res p).1 → ∃ spec, e = GitShow spec.
Proof.
  unfold CheckConfig.processFile.
  intros [He|(oldC & _ & He)]%bind_events.
  { rewrite CheckConfig_getFileContent_trace in He.
    apply list_elem_of_singleton in He. eauto. }
  apply bind_events in He as [He|(newC & _ & He)].
  { rewrite CheckConfig_getFileContent_trace in He.
    apply list_elem_of_singleton in He. eauto. }
  destruct (CheckConfig.retained _ _ _); by apply elem_of_nil in He.
Qed.

Lemma CheckConfig_storeFile_Some m p fd :
  fileDiffOf p = Some fd →
  storeFile m p
  = if CheckConfig.retained (CheckConfig.oldContent fd)
         (CheckConfig.newContent fd) (CheckConfig.diffs fd)
    then <[basename path p := fd]> m else m.
Proof. unfold CheckConfig.storeFile. by intros ->. Qed.

(** The loop over the files of one environment computes [entriesOf]. *)
Lemma CheckConfig_files_loop env res files tr res' :
  forEachM (processFile env) (<[env := ∅]> res) files = (tr, Ret res') →
  res' = <[env := entriesOf files]> res
  ∧ ∀ p, p ∈ files → is_Some (fileDiffOf p).
Proof.
  intros Hrun. split.
  - revert tr res' Hrun.
    apply (forEachM_invariant
             (fun pre st => st = <[env := entriesOf pre]> res)); [done|].
    intros pre p st st' tr _ -> Hbody.
    apply CheckConfig_processFile_Ret in Hbody as (fd & Hfd & ->).
    unfold CheckConfig.entriesOf. rewrite foldl_snoc.
    rewrite (CheckConfig_storeFile_Some _ _ _ Hfd).
    destruct (CheckConfig.retained _ _ _); [|done].
    by rewrite alter_insert_eq.
  - intros p Hp.
    destruct (forEachM_Ret_body _ _ _ _ _ Hrun p Hp) as (st1 & tr1 & st2 & Hb).
    apply CheckConfig_processFile_Ret in Hb as (fd & Hfd & _). eauto.
Qed.

Lemma CheckConfig_processEnv_Ret res env tr res' :
  processEnv res env = (tr, Ret res') →
  ∃ files, filesOf env = Some files
           ∧ res' = <[env := entriesOf files]> res
           ∧ ∀ p, p ∈ files → is_Some (fileDiffOf p).
Proof.
  unfold CheckConfig.processEnv, CheckConfig.filesOf.
  intros (tr1 & listed & tr2 & Hl & Hrest & _)%bind_Ret_inv.
  rewrite Hl. simpl. eexists. split; [done|].
  by eapply CheckConfig_files_loop.
Qed.

Lemma CheckConfig_processEnv_events res env e :
  e ∈ (processEnv res env).1 →
  (∃ spec, e = GitShow spec)
  ∨ (∃ dir, e = GitRaw (CheckConfig.lsTreeArgs newTag dir)).
Proof.
  unfold CheckConfig.processEnv.
  intros [He|(listed & _ & He)]%bind_events.
  - rewrite CheckConfig_listFiles_trace in He.
    apply list_elem_of_singleton in He. eauto.
  - left. revert e He. apply Forall_forall, forEachM_events.
    intros st p _. apply Forall_forall. apply CheckConfig_processFile_events.
Qed.

Lemma CheckConfig_envs_loop envs tr result :
  forEachM processEnv ∅ envs = (tr, Ret result) →
  (∀ env, env ∈ envs →
     ∃ files, filesOf env = Some files ∧ ∀ p, p ∈ files → is_Some (fileDiffOf p))
  ∧ (∀ env, result !! env
            = if decide (env ∈ envs) then entriesOf <$> filesOf env else None).
Proof.
  intros Hrun. split.
  - intros env Henv.
    destruct (forEachM_Ret_body _ _ _ _ _ Hrun env Henv) as (st1 & tr1 & st2 & Hb).
    apply CheckConfig_processEnv_Ret in Hb as (files & Hf & _ & Hp). eauto.
  - pose (I := fun (pre : list string)
                    (st : gmap string (gmap string CheckConfig.FileDiff)) =>
               ∀ env, st !! env
                 = if decide (env ∈ pre) then entriesOf <$> filesOf env else None).
    cut (I envs result); [done|].
    apply (forEachM_invariant I processEnv envs ∅) with (tr := tr);
      [| |done]; unfold I.
    { intros env. rewrite lookup_empty. case_decide as H; [|done].
      by apply elem_of_nil in H. }
    intros pre x st st' tr' _ Hpre Hbody env.
    apply CheckConfig_processEnv_Ret in Hbody as (files & Hf & -> & _).
    destruct (decide (env = x)) as [->|Hne].
    + rewrite lookup_insert_eq, Hf. simpl.
      rewrite decide_True; [done|]. apply elem_of_app. right. by left.
    + rewrite lookup_insert_ne by done. rewrite Hpre.
      repeat case_decide; try done.
      * exfalso. set_solver.
      * exfalso. set_solver.
Qed.

Lemma CheckConfig_envs_loop_events envs st e :
  e ∈ (forEachM processEnv st envs).1 →
  (∃ spec, e = GitShow spec)
  ∨ (∃ dir, e = GitRaw (CheckConfig.lsTreeArgs newTag dir)).
Proof.
  revert e. apply Forall_forall, forEachM_events.
  intros st' env _. apply Forall_forall. apply CheckConfig_processEnv_events.
Qed.

Lemma CheckConfig_pruneEnv_lookup (r : gmap string (gmap string CheckConfig.FileDiff)) k env :
  CheckConfig.pruneEnv r k !! env
  = if decide (env = k)
    then match r !! k with
         | Some files => if bool_decide (size files = 0) then None else Some files
         | None => None
         end
    else r !! env.
Proof.
  unfold CheckConfig.pruneEnv. case_decide as Hk.
  - subst env. destruct (r !! k) as [files|] eqn:Hr; [|done].
    case_bool_decide; [apply lookup_delete_eq | done].
  - destruct (r !! k) as [files|] eqn:Hr; [|done].
    case_bool_decide; [by apply lookup_delete_ne | done].
Qed.

Lemma CheckConfig_prune_lookup (r : gmap string (gmap string CheckConfig.FileDiff)) env :
  CheckConfig.prune r !! env
  = match r !! env with
    | Some files => if bool_decide (size files = 0) then None else Some files
    | None => None
    end.
Proof.
  unfold CheckConfig.prune.
  assert (∀ l (r0 : gmap string (gmap string CheckConfig.FileDiff)), NoDup l →
            foldl CheckConfig.pruneEnv r0 l !! env
            = if decide (env ∈ l)
              then match r0 !! env with
                   | Some files =>
                       if bool_decide (size files = 0) then None else Some files
                   | None => None
                   end
              else r0 !! env) as Hgen.
  { induction l as [|k l IH]; intros r0 Hnd; cbn [foldl].
    - rewrite decide_False; [done | apply not_elem_of_nil].
    - apply NoDup_cons in Hnd as [Hk Hnd]. rewrite IH by done.
      rewrite !CheckConfig_pruneEnv_lookup.
      destruct (decide (env = k)) as [->|Hne].
      + rewrite (decide_False (P := k ∈ l)) by done.
        rewrite (decide_True (P := k ∈ k :: l)) by (by left). done.
      + destruct (decide (env ∈ l)) as [Hin|Hin].
        * rewrite (decide_True (P := env ∈ k :: l)) by (by right). done.
        * rewrite (decide_False (P := env ∈ k :: l)); [done|].
          intros [?|?]%elem_of_cons; done. }
  rewrite Hgen by apply NoDup_fst_map_to_list.
  case_decide as Hin; [done|].
  destruct (r !! env) as [files|] eqn:Hr; [|done].
  exfalso. apply Hin. apply elem_of_map_keys. eauto.
Qed.

Lemma CheckConfig_entry_prune r env name :
  CheckConfig.entry (CheckConfig.prune r) env name = CheckConfig.entry r env name.
Proof.
  unfold CheckConfig.entry. rewrite CheckConfig_prune_lookup.
  destruct (r !! env) as [files|]; [|done].
  case_bool_decide as Hs; [|done]. simpl.
  apply map_size_empty_inv in Hs. subst files. by rewrite lookup_empty.
Qed.

Lemma CheckConfig_scan_Stdout r :
  Stdout r ∈ (scan ∅).1 →
  match (listFiles newTag CheckConfig.configDir).2 with
  | Ret allFiles =>
      ∃ tr result,
        forEachM processEnv ∅ (CheckConfig.envsOf path allFiles) = (tr, Ret result)
        ∧ r = CheckConfig.prune result
  | _ => r = ∅
  end.
Proof.
  unfold CheckConfig.scan.
  pose proof (CheckConfig_listFiles_trace newTag CheckConfig.configDir) as Htr.
  destruct (listFiles newTag CheckConfig.configDir) as [tr0 [allFiles|msg|c]];
    simpl in Htr; subst tr0; unfold tryCatch; rewrite !bind_unfold; simpl.
  - intros [[=]|He]%elem_of_cons.
    destruct (forEachM processEnv ∅ _) as [tr [result|msg|c]] eqn:Hloop; simpl in He.
    + apply elem_of_app in He as [He|He].
      * pose proof (CheckConfig_envs_loop_events
                      (CheckConfig.envsOf path allFiles) ∅ (Stdout r)) as Hev.
        rewrite Hloop in Hev. destruct (Hev He) as [[? [=]]|[? [=]]].
      * apply list_elem_of_singleton in He. injection He as ->. eauto.
    + pose proof (CheckConfig_envs_loop_events
                      (CheckConfig.envsOf path allFiles) ∅ (Stdout r)) as Hev.
      rewrite Hloop in Hev. destruct (Hev He) as [[? [=]]|[? [=]]].
    + pose proof (CheckConfig_envs_loop_events
                      (CheckConfig.envsOf path allFiles) ∅ (Stdout r)) as Hev.
      rewrite Hloop in Hev. destruct (Hev He) as [[? [=]]|[? [=]]].
  - intros [[=]|He]%elem_of_cons.
    apply elem_of_cons in He as [He|He]; [by injection He as -> |].
    by apply elem_of_nil in He.
  - intros [[=]|He]%elem_of_cons. by apply elem_of_nil in He.
Qed.

Lemma CheckConfig_scan_events res e :
  e ∈ (scan res).1 →
  (∃ spec, e = GitShow spec)
  ∨ (∃ dir, e = GitRaw (CheckConfig.lsTreeArgs newTag dir))
  ∨ (∃ r, e = Stdout r).
Proof.
  unfold CheckConfig.scan. intros [He|(listing & _ & He)]%bind_events.
  - apply tryCatch_events in He as [He|(msg & _ & He)].
    + apply bind_events in He as [He|(a & _ & He)].
      * rewrite CheckConfig_listFiles_trace in He.
        apply list_elem_of_singleton in He. eauto.
      * by apply elem_of_nil in He.
    + apply bind_events in He as [He|(a & _ & He)].
      * apply list_elem_of_singleton in He. eauto.
      * by apply elem_of_nil in He.
  - destruct listing as [allFiles|]; [|by apply elem_of_nil in He].
    apply bind_events in He as [He|(result & _ & He)].
    + apply CheckConfig_envs_loop_events in He as [?|?]; eauto.
    + apply list_elem_of_singleton in He. eauto.
Qed.

Lemma CheckConfig_validateRefs_events e :
  e ∈ validateRefs.1 → e = GitTags ∨ e = GitRaw ["rev-list"; "--all"].
Proof.
  unfold CheckConfig.validateRefs. intros [He|(allTags & _ & He)]%bind_events.
  { apply list_elem_of_singleton in He. eauto. }
  apply bind_events in He as [He|(commits & _ & He)].
  { apply list_elem_of_singleton in He. eauto. }
  destruct (_ || _); by apply elem_of_nil in He.
Qed.

Lemma CheckConfig_validateRefs_cases :
  (validateRefs.2 = Ret tt
   ∧ Spec.resolvable git oldTag ∧ Spec.resolvable git newTag)
  ∨ (∃ msg, validateRefs.2 = Throw msg).
Proof.
  unfold CheckConfig.validateRefs, await, Spec.resolvable. rewrite !bind_unfold.
  destruct (tags git) as [msg|allTags]; simpl; [eauto|].
  destruct (raw git _) as [msg|commits]; simpl; [eauto|].
  destruct (bool_decide (oldTag ∈ _)) eqn:Ho; simpl; [|eauto].
  destruct (bool_decide (newTag ∈ _)) eqn:Hn; simpl; [|eauto].
  apply bool_decide_eq_true in Ho, Hn.
  apply elem_of_app in Ho, Hn. left. split; [done|]. split.
  - destruct Ho; [left | right]; eauto.
  - destruct Hn; [left | right]; eauto.
Qed.

Lemma CheckConfig_validateRefs_split_only msg' allTags commits :
  tags git = inr allTags → raw git ["rev-list"; "--all"] = inr commits →
  validateRefs.2 = Throw msg' →
  oldTag ∉ allTags ++ JS.split "010" commits
  ∨ newTag ∉ allTags ++ JS.split "010" commits.
Proof.
  unfold CheckConfig.validateRefs, await. rewrite !bind_unfold.
  intros -> ->. simpl.
  destruct (bool_decide (oldTag ∈ _)) eqn:Ho; simpl.
  - destruct (bool_decide (newTag ∈ _)) eqn:Hn; simpl; [done|].
    apply bool_decide_eq_false in Hn. eauto.
  - apply bool_decide_eq_false in Ho. eauto.
Qed.

Lemma CheckConfig_main_unfold :
  main = tryCatch (validateRefs ≫= fun _ => scan ∅)
           (fun message =>
              emit (Stderr ("ข้อผิดพลาด: " +:+ message)) ≫= fun _ => exit 1).
Proof. done. Qed.

(** A rejected reference ends the run before the scan starts. *)
Lemma CheckConfig_main_rejected msg :
  validateRefs.2 = Throw msg →
  main = (validateRefs.1 ++ [Stderr ("ข้อผิดพลาด: " +:+ msg)], Exit 1).
Proof.
  intros Hv. rewrite CheckConfig_main_unfold. unfold tryCatch.
  rewrite (bind_unfold validateRefs). rewrite Hv. done.
Qed.

Lemma CheckConfig_main_events e :
  e ∈ main.1 →
  e = GitTags ∨ e = GitRaw ["rev-list"; "--all"]
  ∨ e ∈ (scan ∅).1 ∨ (∃ line, e = Stderr line).
Proof.
  rewrite CheckConfig_main_unfold.
  intros [He|(msg & _ & He)]%tryCatch_events.
  - apply bind_events in He as [He|(a & _ & He)].
    + apply CheckConfig_validateRefs_events in He as [?|?]; eauto.
    + eauto.
  - apply bind_events in He as [He|(a & _ & He)].
    + apply list_elem_of_singleton in He. eauto 6.
    + by apply elem_of_nil in He.
Qed.

Lemma CheckConfig_main_Stdout r :
  Stdout r ∈ main.1 → Stdout r ∈ (scan ∅).1.
Proof.
  intros [[=]|[[=]|[?|[? [=]]]]]%CheckConfig_main_events. done.
Qed.

(** What a printed report holds, in terms of the listings and fetches. *)
Lemma CheckConfig_report r allFiles :
  Stdout r ∈ main.1 →
  (listFiles newTag CheckConfig.configDir).2 = Ret allFiles →
  (∀ env, env ∈ CheckConfig.envsOf path allFiles →
     ∃ files, filesOf env = Some files
              ∧ (∀ p, p ∈ files → is_Some (fileDiffOf p))
              ∧ ∀ name, CheckConfig.entry r env name = entriesOf files !! name)
  ∧ (∀ env, env ∉ CheckConfig.envsOf path allFiles → r !! env = None).
Proof.
  intros Hr%CheckConfig_main_Stdout%CheckConfig_scan_Stdout Hl.
  rewrite Hl in Hr. destruct Hr as (tr & result & Hloop & ->).
  apply CheckConfig_envs_loop in Hloop as [Hfiles Hlook]. split.
  - intros env Henv. destruct (Hfiles env Henv) as (files & Hf & Hp).
    exists files. split; [done|]. split; [done|]. intros name.
    rewrite CheckConfig_entry_prune. unfold CheckConfig.entry.
    rewrite Hlook, decide_True, Hf by done. done.
  - intros env Henv. rewrite CheckConfig_prune_lookup, Hlook.
    by rewrite decide_False.
Qed.

Lemma CheckConfig_storeFile_lookup m p name :
  storeFile m p !! name
  = match fileDiffOf p with
    | Some fd =>
        if CheckConfig.retained (CheckConfig.oldContent fd)
             (CheckConfig.newContent fd) (CheckConfig.diffs fd)
           && bool_decide (basename path p = name)
        then Some fd else m !! name
    | None => m !! name
    end.
Proof.
  unfold CheckConfig.storeFile. destruct (fileDiffOf p) as [fd|]; [|done].
  destruct (CheckConfig.retained _ _ _); simpl; [|done].
  case_bool_decide as Hn.
  - subst name. apply lookup_insert_eq.
  - by apply lookup_insert_ne.
Qed.

(** Every stored entry comes from a path gone through. *)
Lemma CheckConfig_entriesOf_Some files name fd :
  entriesOf files !! name = Some fd →
  ∃ p, p ∈ files ∧ basename path p = name ∧ fileDiffOf p = Some fd
       ∧ CheckConfig.retained (CheckConfig.oldContent fd)
           (CheckConfig.newContent fd) (CheckConfig.diffs fd) = true.
Proof.
  unfold CheckConfig.entriesOf.
  induction files as [|q files IH] using rev_ind; simpl.
  - by rewrite lookup_empty.
  - rewrite foldl_snoc, CheckConfig_storeFile_lookup.
    destruct (fileDiffOf q) as [fd'|] eqn:Hq.
    + destruct (CheckConfig.retained (CheckConfig.oldContent fd') _ _) eqn:Hret;
        simpl.
      * case_bool_decide as Hn.
        { intros [= <-]. exists q. split; [|done].
          apply elem_of_app. right. by left. }
        intros (p & Hp & ?)%IH. exists p. split; [|done].
        apply elem_of_app. by left.
      * intros (p & Hp & ?)%IH. exists p. split; [|done].
        apply elem_of_app. by left.
    + intros (p & Hp & ?)%IH. exists p. split; [|done].
      apply elem_of_app. by left.
Qed.



End CheckConfigRuns.

(** ** Retention tests *)



(** ** Runs of [compare_envs.js] *)

Section CompareEnvsRuns.

Context (git : Git) (path : Path) (parse : string → gmap string string).
Context (access : string → option string) (repoPath : string).
Context (tag flt : string).

Local Abbreviation getFileContent := (CompareEnvs.getFileContent git parse).
Local Abbreviation listFiles := (CompareEnvs.listFiles git).
Local Abbreviation collectEnv := (CompareEnvs.collectEnv git path parse tag).
Local Abbreviation collect := (CompareEnvs.collect git path parse tag).
Local Abbreviation compareFile := (CompareEnvs.compareFile flt).
Local Abbreviation compareAll := (CompareEnvs.compareAll flt).
Local Abbreviation fileDiffOf := (CompareEnvs.fileDiffOf flt).
Local Abbreviation validateRef := (CompareEnvs.validateRef git tag).
Local Abbreviation checkRepoPath := (CompareEnvs.checkRepoPath path access repoPath).
Local Abbreviation main :=
  (CompareEnvs.main git path parse access repoPath tag flt).

Lemma CompareEnvs_getFileContent_trace rev p :
  (getFileContent rev p).1 = [GitShow (rev +:+ ":" +:+ p)].
Proof.
  unfold CompareEnvs.getFileContent, tryCatch, await. rewrite bind_unfold.
  destruct (show git _) as [msg|content]; simpl; [|done].
  by destruct (JS.includes msg _).
Qed.

Lemma CompareEnvs_listFiles_trace rev dir :
  (listFiles rev dir).1 = [GitRaw (CompareEnvs.lsTreeArgs rev dir)].
Proof.
  unfold CompareEnvs.listFiles, tryCatch, await. rewrite bind_unfold.
  by destruct (raw git _) as [msg|output].
Qed.

Lemma CompareEnvs_collectEnv_events envs env e :
  e ∈ (collectEnv envs env).1 →
  (∃ spec, e = GitShow spec)
  ∨ (∃ dir, e = GitRaw (CompareEnvs.lsTreeArgs tag dir)).
Proof.
  unfold CompareEnvs.collectEnv.
  intros [He|(listed & _ & He)]%bind_events.
  - rewrite CompareEnvs_listFiles_trace in He.
    apply list_elem_of_singleton in He. eauto.
  - left. revert e He. apply Forall_forall, forEachM_events.
    intros st p _. apply Forall_forall. intros e.
    unfold CompareEnvs.collectFile. intros [He|(c & _ & He)]%bind_events.
    + rewrite CompareEnvs_getFileContent_trace in He.
      apply list_elem_of_singleton in He. eauto.
    + by apply elem_of_nil in He.
Qed.

Lemma CompareEnvs_collect_events e :
  e ∈ collect.1 →
  (∃ spec, e = GitShow spec)
  ∨ (∃ dir, e = GitRaw (CompareEnvs.lsTreeArgs tag dir)).
Proof.
  revert e. apply Forall_forall, forEachM_events.
  intros st env _. apply Forall_forall. apply CompareEnvs_collectEnv_events.
Qed.

Lemma emit_lines {J} (lines : list string) :
  forEachM (fun (_ : unit) line => emit (J := J) (Stderr line)) tt lines
  = (Stderr <$> lines, Ret tt).
Proof.
  induction lines as [|line lines IH]; [done|].
  cbn [forEachM]. rewrite bind_unfold. simpl. by rewrite IH.
Qed.

(** The callback always returns, writes diagnostics only, and stores the
    entry of the file name exactly when it is retained. *)
Lemma CompareEnvs_compareFile_eq envs result name :
  compareFile envs result name
  = (Stderr <$> CompareEnvs.computeDiffsLog
                  (CompareEnvs.contentOf envs "pt" name)
                  (CompareEnvs.contentOf envs "prod" name)
                  (bool_decide (flt = "true")),
     Ret (if CompareEnvs.retained
               (CompareEnvs.ptContent (fileDiffOf envs name))
               (CompareEnvs.prodContent (fileDiffOf envs name))
               (CompareEnvs.diffs (fileDiffOf envs name))
          then <[name := fileDiffOf envs name]> result else result)).
Proof.
  unfold CompareEnvs.compareFile. rewrite emit_lines, bind_unfold. simpl.
  destruct (CompareEnvs.retained _ _ _); by rewrite app_nil_r.
Qed.

Lemma CompareEnvs_compareAll_Ret envs :
  ∃ result, (compareAll envs).2 = Ret result.
Proof.
  unfold CompareEnvs.compareAll. generalize (∅ : gmap string CompareEnvs.FileDiff).
  induction (CompareEnvs.allFiles envs) as [|name l IH]; intros st; simpl.
  - eauto.
  - rewrite bind_unfold, CompareEnvs_compareFile_eq. simpl. apply IH.
Qed.

Lemma CompareEnvs_compareAll_events envs e :
  e ∈ (compareAll envs).1 → ∃ line, e = Stderr line.
Proof.
  revert e. apply Forall_forall, forEachM_events.
  intros st name _. rewrite CompareEnvs_compareFile_eq. simpl.
  apply Forall_forall. intros e (line & -> & _)%list_elem_of_fmap. eauto.
Qed.

Lemma CompareEnvs_compareAll_lookup envs result name :
  (compareAll envs).2 = Ret result →
  result !! name
  = if decide (name ∈ CompareEnvs.allFiles envs)
    then if CompareEnvs.retained
              (CompareEnvs.ptContent (fileDiffOf envs name))
              (CompareEnvs.prodContent (fileDiffOf envs name))
              (CompareEnvs.diffs (fileDiffOf envs name))
         then Some (fileDiffOf envs name) else None
    else None.
Proof.
  destruct (compareAll envs) as [tr o] eqn:Hrun. simpl. intros ->.
  revert name.
  pose (I := fun (pre : list string) (st : gmap string CompareEnvs.FileDiff) =>
    ∀ name, st !! name
      = if decide (name ∈ pre)
        then if CompareEnvs.retained
                  (CompareEnvs.ptContent (fileDiffOf envs name))
                  (CompareEnvs.prodContent (fileDiffOf envs name))
                  (CompareEnvs.diffs (fileDiffOf envs name))
             then Some (fileDiffOf envs name) else None
        else None).
  cut (I (CompareEnvs.allFiles envs) result); [done|].
  apply (forEachM_invariant I (compareFile envs) (CompareEnvs.allFiles envs) ∅)
    with (tr := tr); [| |done]; unfold I.
  { intros name. rewrite lookup_empty.
    rewrite decide_False; [done | apply not_elem_of_nil]. }
  intros pre x st st' tr' _ Hpre Hbody name.
  rewrite CompareEnvs_compareFile_eq in Hbody. injection Hbody as _ Hst.
  assert (name ∈ pre ++ [x] ↔ name ∈ pre ∨ name = x) as Hmem.
  { rewrite elem_of_app, list_elem_of_singleton. done. }
  simpl in Hst.
  destruct (CompareEnvs.retained _ _ _) eqn:Hret; subst st';
    (destruct (decide (name = x)) as [->|Hne];
     [ rewrite (decide_True (P := x ∈ pre ++ [x])) by (apply Hmem; by right)
     | ]).
  - rewrite lookup_insert_eq. simpl. by rewrite Hret.
  - rewrite lookup_insert_ne, Hpre by done.
    destruct (decide (name ∈ pre)) as [Hin|Hin].
    + rewrite (decide_True (P := name ∈ pre ++ [x])) by (apply Hmem; by left).
      done.
    + rewrite (decide_False (P := name ∈ pre ++ [x])); [done|].
      intros [?|?]%Hmem; done.
  - rewrite Hpre. simpl. rewrite Hret. by destruct (decide (x ∈ pre)).
  - rewrite Hpre.
    destruct (decide (name ∈ pre)) as [Hin|Hin].
    + rewrite (decide_True (P := name ∈ pre ++ [x])) by (apply Hmem; by left).
      done.
    + rewrite (decide_False (P := name ∈ pre ++ [x])); [done|].
      intros [?|?]%Hmem; done.
Qed.

Lemma CompareEnvs_checkRepoPath_cases :
  (checkRepoPath.2 = Ret tt ∨ checkRepoPath.2 = Exit 1)
  ∧ (∀ e, e ∈ checkRepoPath.1 → (∃ p, e = FsAccess p) ∨ (∃ line, e = Stderr line))
  ∧ (∃ line, Stderr line ∈ checkRepoPath.1).
Proof.
  unfold CompareEnvs.checkRepoPath, CompareEnvs.fsAccess, tryCatch, await.
  rewrite !bind_unfold.
  destruct (access repoPath) as [msg|]; simpl.
  { split; [eauto|]. split; [|eexists; right; left].
    intros e [->|[->|[]%elem_of_nil]%elem_of_cons]%elem_of_cons; eauto. }
  destruct (access (join path repoPath ".git")) as [msg|]; simpl.
  { split; [eauto|]. split; [|eexists; right; right; left].
    intros e [->|[->|[->|[]%elem_of_nil]%elem_of_cons]%elem_of_cons]%elem_of_cons;
      eauto. }
  split; [eauto|]. split; [|eexists; right; right; left].
  intros e [->|[->|[->|[]%elem_of_nil]%elem_of_cons]%elem_of_cons]%elem_of_cons;
    eauto.
Qed.

(** The three ways [checkRepoPath] goes, with what it writes. *)
Lemma CompareEnvs_checkRepoPath_exact :
  (is_Some (access repoPath)
   ∧ checkRepoPath
     = ([FsAccess repoPath;
         Stderr ("ข้อผิดพลาด: Directory " +:+ repoPath
                 +:+ " ไม่มีอยู่หรือไม่ใช่ Git repository")], Exit 1))
  ∨ (access repoPath = None ∧ is_Some (access (join path repoPath ".git"))
     ∧ checkRepoPath
       = ([FsAccess repoPath; FsAccess (join path repoPath ".git");
           Stderr ("ข้อผิดพลาด: Directory " +:+ repoPath
                   +:+ " ไม่มีอยู่หรือไม่ใช่ Git repository")], Exit 1))
  ∨ (access repoPath = None ∧ access (join path repoPath ".git") = None
     ∧ checkRepoPath
       = ([FsAccess repoPath; FsAccess (join path repoPath ".git");
           Stderr ("Repo path ถูกต้อง: " +:+ repoPath)], Ret tt)).
Proof.
  unfold CompareEnvs.checkRepoPath, CompareEnvs.fsAccess, tryCatch, await.
  rewrite !bind_unfold.
  destruct (access repoPath) as [m|]; cbn [fst snd].
  { left. split; [eauto|]. reflexivity. }
  destruct (access (join path repoPath ".git")) as [m|]; cbn [fst snd].
  { right. left. split; [done|]. split; [eauto|]. reflexivity. }
  right. right. split; [done|]. split; [done|]. reflexivity.
Qed.

Lemma CompareEnvs_validateRef_events e :
  e ∈ validateRef.1 → e = GitTags ∨ e = GitRaw ["rev-list"; "--all"].
Proof.
  unfold CompareEnvs.validateRef. intros [He|(allTags & _ & He)]%bind_events.
  { apply list_elem_of_singleton in He. eauto. }
  apply bind_events in He as [He|(commits & _ & He)].
  { apply list_elem_of_singleton in He. eauto. }
  destruct (negb _); by apply elem_of_nil in He.
Qed.

Lemma CompareEnvs_validateRef_cases :
  (validateRef.2 = Ret tt ∧ Spec.resolvable git tag)
  ∨ (∃ msg, validateRef.2 = Throw msg).
Proof.
  unfold CompareEnvs.validateRef, await, Spec.resolvable. rewrite !bind_unfold.
  destruct (tags git) as [msg|allTags]; simpl; [eauto|].
  destruct (raw git _) as [msg|commits]; simpl; [eauto|].
  destruct (bool_decide (tag ∈ _)) eqn:Ho; simpl; [|eauto].
  apply bool_decide_eq_true in Ho. apply elem_of_app in Ho.
  left. split; [done|]. destruct Ho; [left | right]; eauto.
Qed.

Lemma CompareEnvs_main_unfold :
  main = checkRepoPath ≫= fun _ =>
         tryCatch
           (validateRef ≫= fun _ =>
            collect ≫= fun envs =>
            compareAll envs ≫= fun result =>
            emit (Stderr ("จำนวน diffs รวม: "
                          +:+ pretty (CompareEnvs.totalDiffs result))) ≫= fun _ =>
            emit (Stdout result))
           (fun message =>
              emit (Stderr ("ข้อผิดพลาด: " +:+ message)) ≫= fun _ => exit 1).
Proof. done. Qed.

Lemma CompareEnvs_main_events e :
  e ∈ main.1 →
  (∃ p, e = FsAccess p) ∨ (∃ line, e = Stderr line)
  ∨ e = GitTags ∨ e = GitRaw ["rev-list"; "--all"]
  ∨ (validateRef.2 = Ret tt ∧ e ∈ collect.1)
  ∨ (validateRef.2 = Ret tt
     ∧ ∃ envs result, collect.2 = Ret envs ∧ (compareAll envs).2 = Ret result
                      ∧ e = Stdout result).
Proof.
  rewrite CompareEnvs_main_unfold.
  intros [He|(a & _ & He)]%bind_events.
  { destruct CompareEnvs_checkRepoPath_cases as (_ & Hev & _).
    destruct (Hev e He); eauto. }
  apply tryCatch_events in He as [He|(msg & _ & He)].
  - apply bind_events in He as [He|([] & Hv & He)].
    { apply CompareEnvs_validateRef_events in He as [?|?]; eauto 6. }
    apply bind_events in He as [He|(envs & Hc & He)]; [eauto 7|].
    apply bind_events in He as [He|(result & Hr & He)].
    { apply CompareEnvs_compareAll_events in He. eauto. }
    apply bind_events in He as [He|(? & _ & He)].
    { apply list_elem_of_singleton in He. eauto. }
    apply list_elem_of_singleton in He. right. right. right. right. right.
    split; [done|]. eauto.
  - apply bind_events in He as [He|(? & _ & He)].
    + apply list_elem_of_singleton in He. eauto.
    + by apply elem_of_nil in He.
Qed.

(** What a printed report is. *)
Lemma CompareEnvs_main_Stdout r :
  Stdout r ∈ main.1 →
  ∃ envs, collect.2 = Ret envs ∧ (compareAll envs).2 = Ret r.
Proof.
  intros [[? [=]]|[[? [=]]|[[=]|[[=]|[[_ He]|[_ He]]]]]]%CompareEnvs_main_events.
  - apply CompareEnvs_collect_events in He as [[? [=]]|[? [=]]].
  - destruct He as (envs & result & Hc & Hr & [= ->]). eauto.
Qed.

(** A rejected reference ends the run before anything is listed. *)
Lemma CompareEnvs_main_rejected msg :
  validateRef.2 = Throw msg →
  main.2 = Exit 1
  ∧ (∀ e, e ∈ main.1 →
       (∃ p, e = FsAccess p) ∨ (∃ line, e = Stderr line)
       ∨ e = GitTags ∨ e = GitRaw ["rev-list"; "--all"])
  ∧ (∃ line, Stderr line ∈ main.1).
Proof.
  intros Hv. split; [|split].
  - rewrite CompareEnvs_main_unfold, bind_unfold.
    destruct CompareEnvs_checkRepoPath_cases as ([Hc|Hc] & _ & _);
      rewrite Hc; [|done].
    unfold tryCatch. rewrite (bind_unfold validateRef), Hv. done.
  - intros e [?|[?|[?|[?|[[Hr _]|[Hr _]]]]]]%CompareEnvs_main_events; eauto;
      congruence.
  - destruct CompareEnvs_checkRepoPath_cases as (_ & _ & line & Hline).
    exists line. rewrite CompareEnvs_main_unfold, bind_unfold.
    destruct (checkRepoPath.2); simpl; [|done..].
    apply elem_of_app. by left.
Qed.

(** A rejected reference, or a repository check that fails, ends the trace
    on the line of a [catch] handler. *)
Lemma CompareEnvs_main_rejected_last msg :
  validateRef.2 = Throw msg →
  ∃ pre text, main.1 = pre ++ [Stderr ("ข้อผิดพลาด: " +:+ text)].
Proof.
  intros Hv. rewrite CompareEnvs_main_unfold, bind_unfold.
  destruct CompareEnvs_checkRepoPath_exact
    as [(_ & ->)|[(_ & _ & ->)|(_ & _ & ->)]]; cbn [fst snd].
  - exists [FsAccess repoPath],
      ("Directory " +:+ repoPath +:+ " ไม่มีอยู่หรือไม่ใช่ Git repository").
    reflexivity.
  - exists [FsAccess repoPath; FsAccess (join path repoPath ".git")],
      ("Directory " +:+ repoPath +:+ " ไม่มีอยู่หรือไม่ใช่ Git repository").
    reflexivity.
  - unfold tryCatch. rewrite (bind_unfold validateRef), Hv. cbn [fst snd].
    eexists (_ :: _ :: _ :: validateRef.1), msg. reflexivity.
Qed.

End CompareEnvsRuns.

(** ** Reference validation *)

(** C7: in both modes, when a supplied revision reference is neither a
    tag nor a commit listed by [rev-list --all], the script ends with
    exit status 1, its trace holds no file listing, no content fetch and
    no JSON output, and the last thing it does is to write a diagnostic on
    the error stream: the usage line (an empty reference), the line of
    the [catch] handler of [main], or the uncaught error of the
    constructor of the handle.  When the handle is constructed, the
    repository is accepted and both reference listings are answered, the
    run is exactly the two listings followed by the handler's line naming
    the rejected reference. *)
Theorem C7_invalid_reference_is_fatal
  (git : Git) (path : Path) (parse : string → gmap string string)
  (access : string → option string) (repoPath : string) :
  (∀ argv oldTag newTag,
     argv !! 2%nat = Some oldTag → argv !! 3%nat = Some newTag →
     ¬ Spec.resolvable git oldTag ∨ ¬ Spec.resolvable git newTag →
     (CheckConfig.script git path parse argv).2 = 1%nat
     ∧ Forall (fun e => ¬ Spec.touchesFiles e ∧ ¬ Spec.printsJson e)
              (CheckConfig.script git path parse argv).1
     ∧ (∃ pre e, (CheckConfig.script git path parse argv).1 = pre ++ [e]
                 ∧ Spec.diagnostic git e)
     ∧ (∀ allTags commits,
          oldTag ≠ "" → newTag ≠ "" → simpleGit git = None →
          tags git = inr allTags →
          raw git ["rev-list"; "--all"] = inr commits →
          CheckConfig.script git path parse argv
          = ([GitTags; GitRaw ["rev-list"; "--all"];
              Stderr ("ข้อผิดพลาด: Tag หรือ commit ไม่ถูกต้อง: oldTag="
                      +:+ oldTag +:+ ", newTag=" +:+ newTag)], 1%nat)))
  ∧ (∀ argv tag,
       argv !! 2%nat = Some tag →
       ¬ Spec.resolvable git tag →
       (CompareEnvs.script git path parse access repoPath argv).2 = 1%nat
       ∧ Forall (fun e => ¬ Spec.touchesFiles e ∧ ¬ Spec.printsJson e)
                (CompareEnvs.script git path parse access repoPath argv).1
       ∧ (∃ pre e, (CompareEnvs.script git path parse access repoPath argv).1
                   = pre ++ [e]
                   ∧ Spec.diagnostic git e)
       ∧ (∀ allTags commits,
            tag ≠ "" → simpleGit git = None →
            access repoPath = None →
            access (join path repoPath ".git") = None →
            tags git = inr allTags →
            raw git ["rev-list"; "--all"] = inr commits →
            CompareEnvs.script git path parse access repoPath argv
            = ([FsAccess repoPath; FsAccess (join path repoPath ".git");
                Stderr ("Repo path ถูกต้อง: " +:+ repoPath);
                GitTags; GitRaw ["rev-list"; "--all"];
                Stderr ("ข้อผิดพลาด: Tag หรือ commit ไม่ถูกต้อง: " +:+ tag)],
               1%nat))).
Proof.
  split.
  - intros argv oldTag newTag H2 H3 Hbad. unfold CheckConfig.script.
    rewrite H2, H3. cbn [from_option id].
    destruct (Obj.falsy (Some oldTag) || Obj.falsy (Some newTag)) eqn:Hu.
    { split; [done|]. split; [|split].
      - constructor; [|constructor]. simpl. tauto.
      - eexists [], _. split; [done|]. left. vm_compute. reflexivity.
      - intros allTags commits Ho Hn _ _ _. exfalso.
        apply orb_true_iff in Hu as [Hu|Hu];
          apply (bool_decide_eq_true_1 (_ = _)) in Hu; done. }
    destruct (simpleGit git) as [text|] eqn:Hsg.
    { split; [done|]. split; [|split].
      - constructor; [|constructor]. simpl. tauto.
      - eexists [], _. split; [done|]. by right.
      - by intros allTags commits _ _ [=]. }
    destruct (CheckConfig_validateRefs_cases git oldTag newTag)
      as [(_ & Ho & Hn)|[msg Hv]]; [tauto|].
    rewrite (CheckConfig_main_rejected git path parse oldTag newTag msg Hv).
    cbn [fst snd status]. split; [done|]. split; [|split].
    + apply Forall_app. split; [|constructor; [simpl; tauto | constructor]].
      apply Forall_forall.
      intros e [->| ->]%CheckConfig_validateRefs_events; simpl; tauto.
    + eexists _, _. split; [done|]. left. apply failureLine_error.
    + intros allTags commits _ _ _ Ht Hr.
      assert (negb (bool_decide (oldTag ∈ allTags ++ JS.split "010" commits))
              || negb (bool_decide (newTag ∈ allTags ++ JS.split "010" commits))
              = true) as Hcond.
      { apply orb_true_iff.
        destruct Hbad as [Hb|Hb]; [left | right];
          apply negb_true_iff, bool_decide_eq_false_2;
          intros [Hin|Hin]%elem_of_app; apply Hb; [left|right|left|right];
          eauto. }
      revert Hv. unfold CheckConfig.validateRefs, await. rewrite Ht, Hr.
      cbn -[JS.split bool_decide]. rewrite Hcond.
      cbn -[JS.split bool_decide]. by intros [= <-].
  - intros argv tag H2 Hbad. unfold CompareEnvs.script.
    rewrite H2. cbn [from_option id].
    destruct (Obj.falsy (Some tag)) eqn:Hu.
    { split; [done|]. split; [|split].
      - constructor; [|constructor]. simpl. tauto.
      - eexists [], _. split; [done|]. left. vm_compute. reflexivity.
      - intros allTags commits Ht. exfalso.
        apply (bool_decide_eq_true_1 (_ = _)) in Hu. done. }
    destruct (simpleGit git) as [text|] eqn:Hsg.
    { split; [done|]. split; [|split].
      - constructor; [|constructor]. simpl. tauto.
      - eexists [], _. split; [done|]. by right.
      - by intros allTags commits _ [=]. }
    destruct (CompareEnvs_validateRef_cases git tag) as [[_ Hr]|[msg Hv]];
      [tauto|].
    destruct (CompareEnvs_main_rejected git path parse access repoPath tag
                (CompareEnvs.filterArg argv) msg Hv) as (Hexit & Hev & _).
    cbn [fst snd]. rewrite Hexit. split; [done|]. split; [|split].
    + apply Forall_forall.
      intros e [[? ->]|[[? ->]|[->| ->]]]%Hev; simpl; tauto.
    + destruct (CompareEnvs_main_rejected_last git path parse access repoPath
                  tag (CompareEnvs.filterArg argv) msg Hv) as (pre & text & ->).
      eexists _, _. split; [done|]. left. apply failureLine_error.
    + intros allTags commits _ _ Ha Hg Ht Hr'.
      assert (negb (bool_decide (tag ∈ allTags ++ JS.split "010" commits))
              = true) as Hcond.
      { apply negb_true_iff, bool_decide_eq_false_2.
        intros [Hin|Hin]%elem_of_app; apply Hbad; [left|right]; eauto. }
      assert (CompareEnvs.validateRef git tag
              = ([GitTags; GitRaw ["rev-list"; "--all"]],
                 Throw ("Tag หรือ commit ไม่ถูกต้อง: " +:+ tag))) as Hval.
      { unfold CompareEnvs.validateRef, await. rewrite Ht, Hr'.
        cbn -[JS.split bool_decide]. rewrite Hcond. done. }
      rewrite CompareEnvs_main_unfold, bind_unfold.
      destruct (CompareEnvs_checkRepoPath_exact path access repoPath)
        as [([? Hx] & _)|[(_ & [? Hx] & _)|(_ & _ & ->)]];
        [congruence..|].
      cbn [fst snd]. unfold tryCatch.
      rewrite (bind_unfold (CompareEnvs.validateRef git tag)).
      rewrite Hval. cbn [fst snd status]. done.
Qed.

(** ** Pruning *)

(** C6: no printed temporal report maps an environment to an empty
    mapping; the loop of lines 132-136 removes exactly the environments
    whose mapping is empty. *)
Theorem C6_no_empty_environment
  (git : Git) (path : Path) (parse : string → gmap string string)
  (oldTag newTag : string) :
  (∀ r env files,
     Stdout r ∈ (CheckConfig.main git path parse oldTag newTag).1 →
     r !! env = Some files → files ≠ ∅)
  ∧ (∀ (result : gmap string (gmap string CheckConfig.FileDiff)) env,
       CheckConfig.prune result !! env
       = match result !! env with
         | Some files => if bool_decide (files = ∅) then None else Some files
         | None => None
         end).
Proof.
  assert (∀ (result : gmap string (gmap string CheckConfig.FileDiff)) env,
            CheckConfig.prune result !! env
            = match result !! env with
              | Some files => if bool_decide (files = ∅) then None else Some files
              | None => None
              end) as Hprune.
  { intros result env. rewrite CheckConfig_prune_lookup.
    destruct (result !! env) as [files|]; [|done].
    by rewrite (bool_decide_ext (size files = 0) (files = ∅))
      by apply map_size_empty_iff. }
  split; [|done].
  intros r env files Hr%CheckConfig_main_Stdout%CheckConfig_scan_Stdout Hlook.
  destruct (_.2) as [allFiles|msg|c].
  - destruct Hr as (tr & result & _ & ->). rewrite Hprune in Hlook.
    destruct (result !! env) as [files'|]; [|done].
    case_bool_decide; [done|]. by injection Hlook as <-.
  - subst r. by rewrite lookup_empty in Hlook.
  - subst r. by rewrite lookup_empty in Hlook.
Qed.

(** ** Discovery *)

(** C8: in temporal mode the only listings requested are listings at the
    new revision, and every entry of a printed report stands for a
    [.properties] path listed at the new revision under an environment
    directory of the configuration root; the old revision is never
    listed, so a path missing from the new listing is never reported. *)
Theorem C8_files_enumerated_at_new_revision_only
  (git : Git) (path : Path) (parse : string → gmap string string)
  (oldTag newTag : string) :
  (∀ args,
     GitRaw args ∈ (CheckConfig.main git path parse oldTag newTag).1 →
     args = ["rev-list"; "--all"]
     ∨ ∃ dir, args = CheckConfig.lsTreeArgs newTag dir)
  ∧ (∀ dir,
       oldTag ≠ newTag →
       GitRaw (CheckConfig.lsTreeArgs oldTag dir)
       ∉ (CheckConfig.main git path parse oldTag newTag).1)
  ∧ (∀ r env files name fd,
       Stdout r ∈ (CheckConfig.main git path parse oldTag newTag).1 →
       r !! env = Some files → files !! name = Some fd →
       ∃ allFiles listed fullPath,
         (CheckConfig.listFiles git newTag CheckConfig.configDir).2 = Ret allFiles
         ∧ env ∈ CheckConfig.envsOf path allFiles
         ∧ (CheckConfig.listFiles git newTag
              (CheckConfig.configDir +:+ "/" +:+ env)).2 = Ret listed
         ∧ fullPath ∈ listed
         ∧ JS.endsWith fullPath ".properties" = true
         ∧ basename path fullPath = name).
Proof.
  assert (∀ args,
            GitRaw args ∈ (CheckConfig.main git path parse oldTag newTag).1 →
            args = ["rev-list"; "--all"]
            ∨ ∃ dir, args = CheckConfig.lsTreeArgs newTag dir) as Hraw.
  { intros args [[=]|[[= ->]|[He|[? [=]]]]]%CheckConfig_main_events; [by left|].
    apply CheckConfig_scan_events in He as [[? [=]]|[[dir [= ->]]|[? [=]]]].
    right. eauto. }
  split; [done|]. split.
  - intros dir Hne [[=]|[dir' [=]]]%Hraw. done.
  - intros r env files name fd Hr Henv Hname.
    pose proof (CheckConfig_scan_Stdout git path parse oldTag newTag r
                  (CheckConfig_main_Stdout git path parse oldTag newTag r Hr))
      as Hscan.
    destruct (CheckConfig.listFiles git newTag CheckConfig.configDir).2
      as [allFiles|msg|c] eqn:Hl;
      [|subst r; by rewrite lookup_empty in Henv..].
    clear Hscan.
    destruct (CheckConfig_report git path parse oldTag newTag r allFiles Hr Hl)
      as [Hin Hout].
    destruct (decide (env ∈ CheckConfig.envsOf path allFiles)) as [He|He];
      [|rewrite (Hout env He) in Henv; done].
    destruct (Hin env He) as (paths & Hpaths & _ & Hentry).
    specialize (Hentry name). unfold CheckConfig.entry in Hentry.
    rewrite Henv in Hentry. simpl in Hentry. rewrite Hname in Hentry.
    symmetry in Hentry.
    apply CheckConfig_entriesOf_Some in Hentry as (p & Hp & Hb & _).
    unfold CheckConfig.filesOf in Hpaths.
    destruct (CheckConfig.listFiles git newTag
                (CheckConfig.configDir +:+ "/" +:+ env)).2
      as [listed| |] eqn:Hlisted; [|done..].
    injection Hpaths as <-. apply list_elem_of_filter in Hp as [Hends Hp].
    exists allFiles, listed, p. split_and!; try done.
    by apply Is_true_true.
Qed.

(** ** Retention of file entries *)

(** C5, as stated, fails in temporal mode: entries are stored under the
    base name of the compared path, and [config/pt/a/svc.properties] of
    the sample repository, which has a changed key, is overwritten by the
    entry of [config/pt/b/svc.properties]. *)
Lemma C5_counterexample_same_base_name :
  ¬ (∀ (git : Git) (path : Path) (parse : string → gmap string string)
       (oldTag newTag : string) r allFiles env files p fd,
       Stdout r ∈ (CheckConfig.main git path parse oldTag newTag).1 →
       (CheckConfig.listFiles git newTag CheckConfig.configDir).2 = Ret allFiles →
       env ∈ CheckConfig.envsOf path allFiles →
       CheckConfig.filesOf git newTag env = Some files →
       p ∈ files →
       CheckConfig.fileDiffOf git parse oldTag newTag p = Some fd →
       (CheckConfig.entry r env (basename path p) = Some fd
        ↔ Spec.worthReporting (CheckConfig.oldContent fd)
            (CheckConfig.newContent fd) (CheckConfig.diffs fd))).
Proof.
  intros H.
  assert (Stdout Sample.temporalReport
          ∈ (CheckConfig.main Sample.repo Sample.posix Sample.parse "v1" "v2").1)
    as H1 by (apply last_Some_elem_of; vm_compute; reflexivity).
  assert ((CheckConfig.listFiles Sample.repo "v2" CheckConfig.configDir).2
          = Ret ["config/prod/svc.properties"; "config/pt/a/svc.properties";
                 "config/pt/b/svc.properties"])
    as H2 by (vm_compute; reflexivity).
  assert ("pt" ∈ CheckConfig.envsOf Sample.posix
                   ["config/prod/svc.properties"; "config/pt/a/svc.properties";
                    "config/pt/b/svc.properties"])
    as H3 by (apply (bool_decide_eq_true_1 (_ ∈ _)); vm_compute; reflexivity).
  assert (CheckConfig.filesOf Sample.repo "v2" "pt"
          = Some ["config/pt/a/svc.properties"; "config/pt/b/svc.properties"])
    as H4 by (vm_compute; reflexivity).
  assert ("config/pt/a/svc.properties"
          ∈ ["config/pt/a/svc.properties"; "config/pt/b/svc.properties"])
    as H5 by (by left).
  assert (CheckConfig.fileDiffOf Sample.repo Sample.parse "v1" "v2"
            "config/pt/a/svc.properties" = Some Sample.shadowed)
    as H6 by (vm_compute; reflexivity).
  assert (CheckConfig.entry Sample.temporalReport "pt"
            (basename Sample.posix "config/pt/a/svc.properties")
          ≠ Some Sample.shadowed) as Hne.
  { apply (bool_decide_eq_false_1 (_ = _)). vm_compute. reflexivity. }
  apply Hne, (H _ _ _ _ _ _ _ _ _ _ _ H1 H2 H3 H4 H5 H6).
  left. discriminate.
Qed.

(** C5 at the failing input.  Between [v1] and [v2] of the sample
    repository, the environment [pt] lists [config/pt/a/svc.properties]
    and [config/pt/b/svc.properties].  The entry computed for the first has
    one changed key, so the claim wants it in the report; the script
    stores it under [svc.properties] (lines 121-127) and then stores the
    entry of the second path under the same name.  The printed report
    holds the entry of the second path there, and the entry of the first
    nowhere. *)
Theorem C5_changed_file_lost_under_shared_base_name :
  Stdout Sample.temporalReport
  ∈ (CheckConfig.main Sample.repo Sample.posix Sample.parse "v1" "v2").1
  ∧ CheckConfig.filesOf Sample.repo "v2" "pt"
    = Some ["config/pt/a/svc.properties"; "config/pt/b/svc.properties"]
  ∧ CheckConfig.fileDiffOf Sample.repo Sample.parse "v1" "v2"
      "config/pt/a/svc.properties" = Some Sample.shadowed
  ∧ Spec.worthReporting (CheckConfig.oldContent Sample.shadowed)
      (CheckConfig.newContent Sample.shadowed) (CheckConfig.diffs Sample.shadowed)
  ∧ CheckConfig.fileDiffOf Sample.repo Sample.parse "v1" "v2"
      "config/pt/b/svc.properties" = Some Sample.overwriting
  ∧ CheckConfig.entry Sample.temporalReport "pt"
      (basename Sample.posix "config/pt/a/svc.properties")
    = Some Sample.overwriting
  ∧ Sample.temporalReport
    = {[ "prod" := {[ "svc.properties" := Sample.addedFile ]};
         "pt" := {[ "svc.properties" := Sample.overwriting ]} ]}
  ∧ (∀ env name,
       CheckConfig.entry Sample.temporalReport env name ≠ Some Sample.shadowed).
Proof.
  assert (Sample.temporalReport
          = {[ "prod" := {[ "svc.properties" := Sample.addedFile ]};
               "pt" := {[ "svc.properties" := Sample.overwriting ]} ]}) as Hr
    by (vm_compute; reflexivity).
  split_and!.
  - apply last_Some_elem_of. vm_compute. reflexivity.
  - vm_compute. reflexivity.
  - vm_compute. reflexivity.
  - left. discriminate.
  - vm_compute. reflexivity.
  - vm_compute. reflexivity.
  - exact Hr.
  - intros env name. rewrite Hr. unfold CheckConfig.entry.
    destruct (decide (env = "prod")) as [->|Hprod].
    { rewrite lookup_insert_eq. simpl.
      destruct (decide (name = "svc.properties")) as [->|Hn].
      - rewrite lookup_singleton_eq. discriminate.
      - by rewrite lookup_singleton_ne. }
    rewrite lookup_insert_ne by done.
    destruct (decide (env = "pt")) as [->|Hpt].
    { rewrite lookup_singleton_eq. simpl.
      destruct (decide (name = "svc.properties")) as [->|Hn].
      - rewrite lookup_singleton_eq. discriminate.
      - by rewrite lookup_singleton_ne. }
    by rewrite lookup_singleton_ne.
Qed.

(** ** The suppression flag *)

Lemma filterArg_true argv :
  bool_decide (CompareEnvs.filterArg argv = "true")
  = bool_decide (Spec.suppressionRequested argv).
Proof.
  apply bool_decide_ext. unfold CompareEnvs.filterArg, Spec.suppressionRequested.
  destruct (argv !! 3%nat) as [f|]; simpl; split; try done.
  - intros ->. by right.
  - intros [[=]|[= ->]]. done.
  - by left.
Qed.

(** C9: in cross-environment mode the records of every printed entry are
    computed with suppression enabled exactly when the second positional
    argument is absent or is the string "true"; any other string, "false"
    and the empty string included, disables it. *)
Theorem C9_suppression_flag
  (git : Git) (path : Path) (parse : string → gmap string string)
  (access : string → option string) (repoPath : string) :
  (∀ argv r name fd,
     Stdout r ∈ (CompareEnvs.script git path parse access repoPath argv).1 →
     r !! name = Some fd →
     CompareEnvs.diffs fd
     = CompareEnvs.computeDiffs (CompareEnvs.ptContent fd)
         (CompareEnvs.prodContent fd)
         (bool_decide (Spec.suppressionRequested argv)))
  ∧ (∀ argv, Spec.suppressionRequested argv
             ↔ argv !! 3%nat = None ∨ argv !! 3%nat = Some "true")
  ∧ (∀ node file tag, Spec.suppressionRequested [node; file; tag])
  ∧ (∀ node file tag flt,
       Spec.suppressionRequested [node; file; tag; flt] ↔ flt = "true")
  ∧ ¬ Spec.suppressionRequested ["node"; "compare_envs.js"; "v2"; "false"]
  ∧ ¬ Spec.suppressionRequested ["node"; "compare_envs.js"; "v2"; ""].
Proof.
  split; [|split; [done|split; [by left|split; [|split]]]].
  - intros argv r name fd. unfold CompareEnvs.script.
    destruct (Obj.falsy _); simpl.
    { intros [[=]|[]%elem_of_nil]%elem_of_cons. }
    destruct (simpleGit git); simpl.
    { intros [[=]|[]%elem_of_nil]%elem_of_cons. }
    intros (envs & _ & Hcmp)%CompareEnvs_main_Stdout Hfd.
    rewrite (CompareEnvs_compareAll_lookup _ envs r name Hcmp) in Hfd.
    case_decide; [|done].
    destruct (CompareEnvs.retained _ _ _); [|done].
    injection Hfd as <-. simpl. by rewrite filterArg_true.
  - intros node file tag flt. unfold Spec.suppressionRequested. simpl.
    split; [intros [[=]|[= ->]]; done | intros ->; by right].
  - intros [[=]|[=]].
  - intros [[=]|[=]].
Qed.

(** ** The statements at work on the sample data *)

Lemma sample_v9_unresolvable : ¬ Spec.resolvable Sample.repo "v9".
Proof.
  intros [(allTags & [= <-] & Hin)|(commits & [= <-] & Hin)];
    revert Hin; apply (bool_decide_eq_false_1 (_ ∈ _)); vm_compute; reflexivity.
Defined.

Lemma sample_temporal_printed :
  Stdout Sample.temporalReport
  ∈ (CheckConfig.main Sample.repo Sample.posix Sample.parse "v1" "v2").1.
Proof. apply last_Some_elem_of. vm_compute. reflexivity. Defined.

Lemma sample_cross_printed :
  Stdout (Sample.crossReport "false")
  ∈ (CompareEnvs.script Sample.repo Sample.posix Sample.parse Sample.access
       "/srv/cloud-config" ["node"; "compare_envs.js"; "v2"; "false"]).1.
Proof. apply last_Some_elem_of. vm_compute. reflexivity. Defined.

Lemma C1_witness :
  Spec.disagree Sample.oldMap Sample.newMap "c"
  ∧ "c" ∈ Obj.allKeys Sample.oldMap Sample.newMap.
Proof.
  assert (Spec.disagree Sample.oldMap Sample.newMap "c") as H.
  { right. left. split; [vm_compute; reflexivity|].
    exists "4". vm_compute. reflexivity. }
  split; [exact H|].
  exact (proj2 (proj2 (proj2 (proj2
           (C1_diff_keys_exactly_disagreeing Sample.oldMap Sample.newMap))))
           "c" H).
Defined.

Lemma C2_witness :
  (Spec.onlyLeft Sample.ptMap None "host" ∨ Spec.onlyRight Sample.ptMap None "host")
  ∧ "host" ∈ CompareEnvs.key <$> CompareEnvs.computeDiffs Sample.ptMap None true.
Proof.
  assert (Spec.onlyLeft Sample.ptMap None "host"
          ∨ Spec.onlyRight Sample.ptMap None "host") as H.
  { left. split; [|reflexivity]. exists "pt-svc". vm_compute. reflexivity. }
  split; [exact H|].
  exact (proj1 (proj2 (proj2
           (C2_suppression_exactly_normalized_equal Sample.ptMap None "host")))
           H).
Defined.

Lemma C4_witness :
  Sample.changedB ∈ CheckConfig.computeDiffs Sample.oldMap Sample.newMap
  ∧ (CheckConfig.type Sample.changedB = CheckConfig.changed
     ↔ Spec.bothDiffer Sample.oldMap Sample.newMap "b").
Proof.
  assert (Sample.changedB ∈ CheckConfig.computeDiffs Sample.oldMap Sample.newMap)
    as H.
  { apply (bool_decide_eq_true_1 (_ ∈ _)). vm_compute. reflexivity. }
  split; [exact H|].
  exact (proj2 (proj2
           (proj1 (C4_change_kind_classification Sample.oldMap Sample.newMap)
              Sample.changedB H))).
Defined.

Lemma C6_witness :
  Sample.temporalReport !! "prod" = Some {[ "svc.properties" := Sample.addedFile ]}
  ∧ ({[ "svc.properties" := Sample.addedFile ]} : gmap string CheckConfig.FileDiff)
    ≠ ∅.
Proof.
  assert (Sample.temporalReport !! "prod"
          = Some {[ "svc.properties" := Sample.addedFile ]}) as E
    by (vm_compute; reflexivity).
  split; [exact E|].
  exact (proj1 (C6_no_empty_environment Sample.repo Sample.posix
                  Sample.parse "v1" "v2")
           Sample.temporalReport "prod" _ sample_temporal_printed E).
Defined.

Lemma C7_witness :
  ((CheckConfig.script Sample.repo Sample.posix Sample.parse
      ["node"; "check_config.js"; "v1"; "v9"]).2 = 1%nat
   ∧ Forall (fun e => ¬ Spec.touchesFiles e ∧ ¬ Spec.printsJson e)
       (CheckConfig.script Sample.repo Sample.posix Sample.parse
          ["node"; "check_config.js"; "v1"; "v9"]).1
   ∧ CheckConfig.script Sample.repo Sample.posix Sample.parse
       ["node"; "check_config.js"; "v1"; "v9"]
     = ([GitTags; GitRaw ["rev-list"; "--all"];
         Stderr ("ข้อผิดพลาด: Tag หรือ commit ไม่ถูกต้อง: oldTag="
                 +:+ "v1" +:+ ", newTag=" +:+ "v9")], 1%nat))
  ∧ ((CompareEnvs.script Sample.repo Sample.posix Sample.parse Sample.access
        "/srv/cloud-config" ["node"; "compare_envs.js"; "v9"]).2 = 1%nat
     ∧ Forall (fun e => ¬ Spec.touchesFiles e ∧ ¬ Spec.printsJson e)
         (CompareEnvs.script Sample.repo Sample.posix Sample.parse
            Sample.access "/srv/cloud-config"
            ["node"; "compare_envs.js"; "v9"]).1
     ∧ CompareEnvs.script Sample.repo Sample.posix Sample.parse Sample.access
         "/srv/cloud-config" ["node"; "compare_envs.js"; "v9"]
       = ([FsAccess "/srv/cloud-config";
           FsAccess (join Sample.posix "/srv/cloud-config" ".git");
           Stderr ("Repo path ถูกต้อง: " +:+ "/srv/cloud-config");
           GitTags; GitRaw ["rev-list"; "--all"];
           Stderr ("ข้อผิดพลาด: Tag หรือ commit ไม่ถูกต้อง: " +:+ "v9")],
          1%nat)).
Proof.
  split.
  - destruct (proj1 (C7_invalid_reference_is_fatal Sample.repo Sample.posix
                       Sample.parse Sample.access "/srv/cloud-config")
                ["node"; "check_config.js"; "v1"; "v9"] "v1" "v9"
                eq_refl eq_refl (or_intror sample_v9_unresolvable))
      as (Hs & Hq & _ & Hexact).
    split; [exact Hs|]. split; [exact Hq|].
    apply (Hexact ["v1"; "v2"]
             ("c0ffee" +:+ Sample.nl +:+ "decade" +:+ Sample.nl));
      first [discriminate | reflexivity].
  - destruct (proj2 (C7_invalid_reference_is_fatal Sample.repo Sample.posix
                       Sample.parse Sample.access "/srv/cloud-config")
                ["node"; "compare_envs.js"; "v9"] "v9"
                eq_refl sample_v9_unresolvable)
      as (Hs & Hq & _ & Hexact).
    split; [exact Hs|]. split; [exact Hq|].
    apply (Hexact ["v1"; "v2"]
             ("c0ffee" +:+ Sample.nl +:+ "decade" +:+ Sample.nl));
      first [discriminate | reflexivity].
Defined.

Lemma C8_witness :
  Sample.temporalReport !! "pt" = Some {[ "svc.properties" := Sample.overwriting ]}
  ∧ ∃ allFiles listed fullPath,
      (CheckConfig.listFiles Sample.repo "v2" CheckConfig.configDir).2
      = Ret allFiles
      ∧ "pt" ∈ CheckConfig.envsOf Sample.posix allFiles
      ∧ (CheckConfig.listFiles Sample.repo "v2"
           (CheckConfig.configDir +:+ "/" +:+ "pt")).2 = Ret listed
      ∧ fullPath ∈ listed
      ∧ JS.endsWith fullPath ".properties" = true
      ∧ basename Sample.posix fullPath = "svc.properties".
Proof.
  assert (Sample.temporalReport !! "pt"
          = Some {[ "svc.properties" := Sample.overwriting ]}) as E
    by (vm_compute; reflexivity).
  split; [exact E|].
  exact (proj2 (proj2 (C8_files_enumerated_at_new_revision_only
                         Sample.repo Sample.posix Sample.parse "v1" "v2"))
           Sample.temporalReport "pt" _ "svc.properties" Sample.overwriting
           sample_temporal_printed E (lookup_singleton_eq _ _)).
Defined.

Lemma C9_witness :
  Sample.crossReport "false" !! "svc.properties" = Some Sample.unfiltered
  ∧ CompareEnvs.diffs Sample.unfiltered
    = CompareEnvs.computeDiffs (CompareEnvs.ptContent Sample.unfiltered)
        (CompareEnvs.prodContent Sample.unfiltered)
        (bool_decide (Spec.suppressionRequested
                        ["node"; "compare_envs.js"; "v2"; "false"])).
Proof.
  assert (Sample.crossReport "false" !! "svc.properties" = Some Sample.unfiltered)
    as E by (vm_compute; reflexivity).
  split; [exact E|].
  exact (proj1 (C9_suppression_flag Sample.repo Sample.posix Sample.parse
                  Sample.access "/srv/cloud-config")
           ["node"; "compare_envs.js"; "v2"; "false"]
           (Sample.crossReport "false") "svc.properties" Sample.unfiltered
           sample_cross_printed E).
Defined.

(** * Further properties of the two scripts *)

(** ** The diff engines, further *)

Lemma omap_nil_iff {A B} (f : A → option B) (l : list A) :
  omap f l = [] ↔ ∀ x, x ∈ l → f x = None.
Proof.
  induction l as [|x l IH]; simpl.
  - split; [intros _ y Hy; by apply elem_of_nil in Hy | done].
  - destruct (f x) as [y|] eqn:Hx.
    + split; [done|]. intros H. specialize (H x (list_elem_of_here _ _)).
      congruence.
    + rewrite IH. split.
      * intros H y [->|Hy]%elem_of_cons; auto.
      * intros H y Hy. apply H. by right.
Qed.

Lemma lookups_agree_iff (A B : option (gmap string string)) :
  (∀ k, Obj.get A k = Obj.get B k) ↔ default ∅ A = default ∅ B.
Proof.
  split.
  - intros H. apply map_eq. intros k. specialize (H k).
    destruct A, B; simpl in *; rewrite ?lookup_empty; done.
  - intros H k. destruct A as [a|], B as [b|]; simpl in *; subst;
      rewrite ?lookup_empty; done.
Qed.

Lemma CheckConfig_diffOf_None A B k :
  CheckConfig.diffOf A B k = None ↔ Obj.get A k = Obj.get B k.
Proof.
  unfold CheckConfig.diffOf. case_bool_decide as H; split; try done.
Qed.

Lemma CompareEnvs_diffOf_false_None A B k :
  CompareEnvs.diffOf A B false k = None ↔ Obj.get A k = Obj.get B k.
Proof.
  unfold CompareEnvs.diffOf. simpl. case_bool_decide as H; split; try done.
Qed.

Lemma get_None_outside A B k :
  k ∉ Obj.allKeys A B → Obj.get A k = Obj.get B k.
Proof.
  rewrite elem_of_allKeys. intros H.
  destruct (Obj.get A k) eqn:Ea; [exfalso; eauto|].
  destruct (Obj.get B k) eqn:Eb; [exfalso; eauto|]. done.
Qed.

(** X1: computeDiffs (both scripts, the environment comparison with the
    filter off) returns no record exactly when the two sides hold the same
    key/value pairs, an absent side (null) counting as an empty file; a side
    compared with itself gives no record under either filter setting; in
    particular an absent file and an empty file are not told apart. *)
Theorem computeDiffs_empty_iff_same_content (A B : option (gmap string string)) :
  (CheckConfig.computeDiffs A B = [] ↔ default ∅ A = default ∅ B)
  ∧ (CompareEnvs.computeDiffs A B false = [] ↔ default ∅ A = default ∅ B)
  ∧ (∀ applyFilter, CompareEnvs.computeDiffs A A applyFilter = [])
  ∧ CheckConfig.computeDiffs None (Some ∅) = []
  ∧ CheckConfig.computeDiffs (Some ∅) None = [].
Proof.
  split; [|split; [|split; [|split]]].
  - unfold CheckConfig.computeDiffs.
    rewrite omap_nil_iff, <- lookups_agree_iff. split.
    + intros H k. destruct (decide (k ∈ Obj.allKeys A B)) as [Hk|Hk].
      * by apply CheckConfig_diffOf_None, H.
      * by apply get_None_outside.
    + intros H k _. by apply CheckConfig_diffOf_None.
  - unfold CompareEnvs.computeDiffs.
    rewrite omap_nil_iff, <- lookups_agree_iff. split.
    + intros H k. destruct (decide (k ∈ Obj.allKeys A B)) as [Hk|Hk].
      * by apply CompareEnvs_diffOf_false_None, H.
      * by apply get_None_outside.
    + intros H k _. by apply CompareEnvs_diffOf_false_None.
  - intros f. unfold CompareEnvs.computeDiffs. apply omap_nil_iff.
    intros k _. unfold CompareEnvs.diffOf. by rewrite bool_decide_eq_false_2 by auto.
  - vm_compute. reflexivity.
  - vm_compute. reflexivity.
Qed.

Lemma uniq_go_NoDup_id seen l :
  NoDup l → (∀ x, x ∈ l → x ∉ seen) → JS.uniq_go seen l = l.
Proof.
  revert seen. induction l as [|x l IH]; intros seen Hnd Hseen; simpl; [done|].
  apply NoDup_cons in Hnd as [Hx Hnd].
  rewrite decide_False by (apply Hseen; by left). f_equal.
  apply IH; [done|]. intros y Hy [->|Hin]%elem_of_cons; [done|].
  by apply (Hseen y); [right|].
Qed.

Lemma uniq_NoDup_id l : NoDup l → JS.uniq l = l.
Proof.
  intros H. apply uniq_go_NoDup_id; [done|]. intros x _. apply not_elem_of_nil.
Qed.

Lemma allKeys_None_l (m : gmap string string) :
  Obj.allKeys None (Some m) = (map_to_list m).*1.
Proof.
  unfold Obj.allKeys, Obj.keys. simpl. rewrite map_to_list_empty. simpl.
  apply uniq_NoDup_id, NoDup_fst_map_to_list.
Qed.

Lemma allKeys_None_r (m : gmap string string) :
  Obj.allKeys (Some m) None = (map_to_list m).*1.
Proof.
  unfold Obj.allKeys, Obj.keys. simpl. rewrite map_to_list_empty. simpl.
  rewrite app_nil_r. apply uniq_NoDup_id, NoDup_fst_map_to_list.
Qed.

(** A selection that keeps every key scanned keeps them in order. *)
Lemma omap_keys_all {R} (f : string → option R) (keyOf : R → string)
  (l : list string) :
  (∀ k, k ∈ l → ∃ r, f k = Some r ∧ keyOf r = k) →
  keyOf <$> omap f l = l.
Proof.
  induction l as [|k l IH]; intros H; simpl; [done|].
  destruct (H k (list_elem_of_here _ _)) as (r & -> & Hk). simpl.
  rewrite Hk. f_equal. apply IH. intros k' Hk'. apply H. by right.
Qed.

Lemma shouldIgnore_absent f l r :
  l = None ∨ r = None → CompareEnvs.shouldIgnore f l r = false.
Proof.
  unfold CompareEnvs.shouldIgnore. destruct f; [|done].
  intros [-> | ->]; rewrite normalizeValue_None; simpl.
  - done.
  - by rewrite andb_false_r.
Qed.

(** X2: computeDiffs against an absent side (null) yields exactly one record
    per key of the present side and no other record: every record is [added]
    when the old side is absent and [removed] when the new side is absent,
    carries the present side's value and no value for the absent side
    (check_config.js); [added_in_prod] resp. [added_in_pt] under either filter
    setting (compare_envs.js).  The number of records is the number of keys
    of the present side.  Nothing is said here of the order of the
    records. *)
Theorem computeDiffs_against_absent_side (m : gmap string string) :
  (NoDup (CheckConfig.key <$> CheckConfig.computeDiffs None (Some m))
   ∧ (∀ k, k ∈ CheckConfig.key <$> CheckConfig.computeDiffs None (Some m)
           ↔ is_Some (m !! k))
   ∧ ∀ r, r ∈ CheckConfig.computeDiffs None (Some m) →
       CheckConfig.type r = CheckConfig.added
       ∧ CheckConfig.old r = None
       ∧ CheckConfig.new r = m !! CheckConfig.key r)
  ∧ (NoDup (CheckConfig.key <$> CheckConfig.computeDiffs (Some m) None)
     ∧ (∀ k, k ∈ CheckConfig.key <$> CheckConfig.computeDiffs (Some m) None
             ↔ is_Some (m !! k))
     ∧ ∀ r, r ∈ CheckConfig.computeDiffs (Some m) None →
         CheckConfig.type r = CheckConfig.removed
         ∧ CheckConfig.old r = m !! CheckConfig.key r
         ∧ CheckConfig.new r = None)
  ∧ (∀ applyFilter,
       NoDup (CompareEnvs.key
                <$> CompareEnvs.computeDiffs None (Some m) applyFilter)
       ∧ NoDup (CompareEnvs.key
                  <$> CompareEnvs.computeDiffs (Some m) None applyFilter)
       ∧ (∀ k, k ∈ CompareEnvs.key
                     <$> CompareEnvs.computeDiffs None (Some m) applyFilter
               ↔ is_Some (m !! k))
       ∧ (∀ k, k ∈ CompareEnvs.key
                     <$> CompareEnvs.computeDiffs (Some m) None applyFilter
               ↔ is_Some (m !! k))
       ∧ (∀ r, r ∈ CompareEnvs.computeDiffs None (Some m) applyFilter →
            CompareEnvs.type r = CompareEnvs.added_in_prod
            ∧ CompareEnvs.pt r = None
            ∧ CompareEnvs.prod r = m !! CompareEnvs.key r)
       ∧ (∀ r, r ∈ CompareEnvs.computeDiffs (Some m) None applyFilter →
            CompareEnvs.type r = CompareEnvs.added_in_pt
            ∧ CompareEnvs.pt r = m !! CompareEnvs.key r
            ∧ CompareEnvs.prod r = None)
       ∧ length (CompareEnvs.computeDiffs None (Some m) applyFilter) = size m
       ∧ length (CompareEnvs.computeDiffs (Some m) None applyFilter) = size m)
  ∧ length (CheckConfig.computeDiffs None (Some m)) = size m
  ∧ length (CheckConfig.computeDiffs (Some m) None) = size m.
Proof.
  assert (CheckConfig.key <$> CheckConfig.computeDiffs None (Some m)
          = (map_to_list m).*1) as H1.
  { unfold CheckConfig.computeDiffs. rewrite allKeys_None_l.
    apply omap_keys_all. intros k [v Hv]%elem_of_map_keys.
    unfold CheckConfig.diffOf. simpl. rewrite Hv.
    rewrite bool_decide_eq_true_2 by done. eauto. }
  assert (CheckConfig.key <$> CheckConfig.computeDiffs (Some m) None
          = (map_to_list m).*1) as H2.
  { unfold CheckConfig.computeDiffs. rewrite allKeys_None_r.
    apply omap_keys_all. intros k [v Hv]%elem_of_map_keys.
    unfold CheckConfig.diffOf. simpl. rewrite Hv.
    rewrite bool_decide_eq_true_2 by done. eauto. }
  assert (∀ f, CompareEnvs.key <$> CompareEnvs.computeDiffs None (Some m) f
               = (map_to_list m).*1) as H3.
  { intros f. unfold CompareEnvs.computeDiffs. rewrite allKeys_None_l.
    apply omap_keys_all. intros k [v Hv]%elem_of_map_keys.
    unfold CompareEnvs.diffOf. simpl. rewrite Hv.
    rewrite bool_decide_eq_true_2 by done.
    rewrite shouldIgnore_absent by auto. eauto. }
  assert (∀ f, CompareEnvs.key <$> CompareEnvs.computeDiffs (Some m) None f
               = (map_to_list m).*1) as H4.
  { intros f. unfold CompareEnvs.computeDiffs. rewrite allKeys_None_r.
    apply omap_keys_all. intros k [v Hv]%elem_of_map_keys.
    unfold CompareEnvs.diffOf. simpl. rewrite Hv.
    rewrite bool_decide_eq_true_2 by done.
    rewrite shouldIgnore_absent by auto. eauto. }
  split; [|split; [|split; [|split]]].
  - rewrite H1. split; [apply NoDup_fst_map_to_list|].
    split; [intros k; apply elem_of_map_keys|].
    intros r Hr%CheckConfig_elem_of_computeDiffs.
    unfold CheckConfig.diffOf in Hr. simpl in Hr.
    case_bool_decide; [|done]. by injection Hr as <-.
  - rewrite H2. split; [apply NoDup_fst_map_to_list|].
    split; [intros k; apply elem_of_map_keys|].
    intros r Hr%CheckConfig_elem_of_computeDiffs.
    unfold CheckConfig.diffOf in Hr. simpl in Hr.
    case_bool_decide; [|done]. injection Hr as <-. simpl.
    by destruct (m !! _).
  - intros f. rewrite <- (length_fmap CompareEnvs.key), H3.
    rewrite <- (length_fmap CompareEnvs.key
                  (CompareEnvs.computeDiffs (Some m) None f)), H4.
    rewrite length_fmap, length_map_to_list.
    split_and!; try done; try apply NoDup_fst_map_to_list;
      try (intros k; apply elem_of_map_keys).
    + intros r Hr%CompareEnvs_elem_of_computeDiffs.
      unfold CompareEnvs.diffOf in Hr. simpl in Hr.
      case_bool_decide; [|done].
      destruct (CompareEnvs.shouldIgnore _ _ _); [done|]. by injection Hr as <-.
    + intros r Hr%CompareEnvs_elem_of_computeDiffs.
      unfold CompareEnvs.diffOf in Hr. simpl in Hr.
      case_bool_decide as Hne; [|done].
      destruct (CompareEnvs.shouldIgnore _ _ _); [done|]. injection Hr as <-.
      simpl. destruct (m !! _); [done|]. by destruct Hne.
  - rewrite <- (length_fmap CheckConfig.key), H1, length_fmap.
    apply length_map_to_list.
  - rewrite <- (length_fmap CheckConfig.key), H2, length_fmap.
    apply length_map_to_list.
Qed.

(** ** Exchanging the sides *)

Lemma flip_involutive r : Views.flip (Views.flip r) = r.
Proof. by destruct r as [k o n []]. Qed.

Lemma flipEnv_involutive r : Views.flipEnv (Views.flipEnv r) = r.
Proof. by destruct r as [k o n []]. Qed.

Lemma allKeys_comm A B k : k ∈ Obj.allKeys A B ↔ k ∈ Obj.allKeys B A.
Proof. rewrite !elem_of_allKeys. tauto. Qed.

Lemma CheckConfig_diffOf_flip A B k :
  CheckConfig.diffOf B A k = Views.flip <$> CheckConfig.diffOf A B k.
Proof.
  unfold CheckConfig.diffOf.
  destruct (Obj.get A k) as [x|], (Obj.get B k) as [y|];
    repeat case_bool_decide; simpl; try done; congruence.
Qed.

Lemma CompareEnvs_diffOf_flip A B k :
  CompareEnvs.diffOf B A false k
  = Views.flipEnv <$> CompareEnvs.diffOf A B false k.
Proof.
  unfold CompareEnvs.diffOf. simpl.
  destruct (Obj.get A k) as [x|], (Obj.get B k) as [y|];
    repeat case_bool_decide; simpl; try done; congruence.
Qed.

Lemma CheckConfig_records_NoDup A B : NoDup (CheckConfig.computeDiffs A B).
Proof. eapply NoDup_fmap_1, CheckConfig_keys_NoDup. Qed.

Lemma CompareEnvs_records_NoDup A B f : NoDup (CompareEnvs.computeDiffs A B f).
Proof. eapply NoDup_fmap_1, CompareEnvs_keys_NoDup. Qed.

(** X3: In check_config.js, and in compare_envs.js with the filter off,
    exchanging the two sides of computeDiffs exchanges the roles in every
    record and nothing else: the records of (B, A) are, up to order, those of
    (A, B) with the two values exchanged and added/removed (added_in_prod /
    added_in_pt) exchanged, and the number of records is the same.  With the
    filter on this fails, because the labels are stripped according to the
    position of the argument: [pt-svc] against [prod-svc] gives no record,
    [prod-svc] against [pt-svc] gives one. *)
Theorem computeDiffs_exchange_sides (A B : option (gmap string string)) :
  Views.flip <$> CheckConfig.computeDiffs A B ≡ₚ CheckConfig.computeDiffs B A
  ∧ Views.flipEnv <$> CompareEnvs.computeDiffs A B false
    ≡ₚ CompareEnvs.computeDiffs B A false
  ∧ length (CheckConfig.computeDiffs A B) = length (CheckConfig.computeDiffs B A)
  ∧ length (CompareEnvs.computeDiffs A B false)
    = length (CompareEnvs.computeDiffs B A false)
  ∧ CompareEnvs.computeDiffs Sample.ptMap Sample.prodMap true = []
  ∧ CompareEnvs.computeDiffs Sample.prodMap Sample.ptMap true
    = [ {| CompareEnvs.key := "host"; CompareEnvs.pt := Some "prod-svc";
           CompareEnvs.prod := Some "pt-svc";
           CompareEnvs.type := CompareEnvs.changed |} ].
Proof.
  assert (Views.flip <$> CheckConfig.computeDiffs A B
          ≡ₚ CheckConfig.computeDiffs B A) as H1.
  { apply NoDup_Permutation.
    - apply NoDup_fmap_2_strong; [|apply CheckConfig_records_NoDup].
      intros x y _ _ Hxy. by rewrite <- (flip_involutive x), Hxy, flip_involutive.
    - apply CheckConfig_records_NoDup.
    - intros r. rewrite list_elem_of_fmap. split.
      + intros (r' & -> & Hr'%CheckConfig_elem_of_computeDiffs).
        apply CheckConfig_elem_of_computeDiffs.
        rewrite CheckConfig_diffOf_flip. simpl. by rewrite Hr'.
      + intros Hr%CheckConfig_elem_of_computeDiffs.
        exists (Views.flip r). split; [by rewrite flip_involutive|].
        apply CheckConfig_elem_of_computeDiffs.
        rewrite CheckConfig_diffOf_flip. simpl. by rewrite Hr. }
  assert (Views.flipEnv <$> CompareEnvs.computeDiffs A B false
          ≡ₚ CompareEnvs.computeDiffs B A false) as H2.
  { apply NoDup_Permutation.
    - apply NoDup_fmap_2_strong; [|apply CompareEnvs_records_NoDup].
      intros x y _ _ Hxy.
      by rewrite <- (flipEnv_involutive x), Hxy, flipEnv_involutive.
    - apply CompareEnvs_records_NoDup.
    - intros r. rewrite list_elem_of_fmap. split.
      + intros (r' & -> & Hr'%CompareEnvs_elem_of_computeDiffs).
        apply CompareEnvs_elem_of_computeDiffs.
        rewrite CompareEnvs_diffOf_flip. simpl. by rewrite Hr'.
      + intros Hr%CompareEnvs_elem_of_computeDiffs.
        exists (Views.flipEnv r). split; [by rewrite flipEnv_involutive|].
        apply CompareEnvs_elem_of_computeDiffs.
        rewrite CompareEnvs_diffOf_flip. simpl. by rewrite Hr. }
  split; [done|]. split; [done|]. split_and!.
  - rewrite <- H1. by rewrite length_fmap.
  - rewrite <- H2. by rewrite length_fmap.
  - vm_compute. reflexivity.
  - vm_compute. reflexivity.
Qed.

(** ** Suppression, further *)

Lemma omap_sublist {A B} (f g : A → option B) (l : list A) :
  (∀ x, f x = None ∨ f x = g x) → omap f l `sublist_of` omap g l.
Proof.
  intros H. induction l as [|x l IH]; simpl; [done|].
  destruct (H x) as [Hf|Hf]; rewrite Hf.
  - destruct (g x); [by apply sublist_cons | done].
  - destruct (g x); [by apply sublist_skip | done].
Qed.

Lemma CompareEnvs_diffOf_filtered A B f k :
  CompareEnvs.diffOf A B f k
  = if CompareEnvs.shouldIgnore f (Obj.get A k) (Obj.get B k) then None
    else CompareEnvs.diffOf A B false k.
Proof.
  unfold CompareEnvs.diffOf. cbn [CompareEnvs.shouldIgnore].
  case_bool_decide; by destruct (CompareEnvs.shouldIgnore f _ _).
Qed.

Lemma CompareEnvs_accounting_on (A B : option (gmap string string)) f
  (l : list string) :
  (length (omap (CompareEnvs.diffOf A B f) l)
   + length (filter (fun k =>
               Obj.get A k ≠ Obj.get B k
               ∧ CompareEnvs.shouldIgnore f (Obj.get A k) (Obj.get B k)) l)
   = length (omap (CompareEnvs.diffOf A B false) l))%nat.
Proof.
  induction l as [|k l IH]; [done|].
  rewrite filter_cons. cbn [omap list_omap].
  change (list_omap _ _ ?g l) with (omap g l).
  rewrite (CompareEnvs_diffOf_filtered A B f k).
  destruct (decide (Obj.get A k = Obj.get B k)) as [Heq|Hne].
  - rewrite decide_False by (intros [Hn _]; by apply Hn).
    assert (CompareEnvs.diffOf A B false k = None) as ->.
    { unfold CompareEnvs.diffOf. by rewrite bool_decide_eq_false_2 by auto. }
    by destruct (CompareEnvs.shouldIgnore f _ _).
  - destruct (CompareEnvs_diffOf_ne A B false k Hne eq_refl) as [r ->].
    destruct (CompareEnvs.shouldIgnore f _ _) eqn:Hi.
    + rewrite decide_True by done. simpl. lia.
    + rewrite decide_False by (intros [_ Hn]; done). simpl. lia.
Qed.

(** X4: Accounting of the suppression in compare_envs.js computeDiffs: the
    records returned with the filter on are a sub-sequence (same order) of
    those returned with the filter off; every record missing from the filtered
    result is accounted for by exactly one ignored key, so that
    |diffs| + |ignoredKeys| equals the unfiltered count; with the filter off
    nothing is ignored and nothing is logged; with the filter on the log has
    one line per ignored key plus the summary line. *)
Theorem suppression_accounting (A B : option (gmap string string)) :
  CompareEnvs.computeDiffs A B true `sublist_of` CompareEnvs.computeDiffs A B false
  ∧ (∀ applyFilter,
       (length (CompareEnvs.computeDiffs A B applyFilter)
        + length (CompareEnvs.ignoredKeys A B applyFilter)
        = length (CompareEnvs.computeDiffs A B false))%nat)
  ∧ CompareEnvs.ignoredKeys A B false = []
  ∧ CompareEnvs.computeDiffsLog A B false = []
  ∧ length (CompareEnvs.computeDiffsLog A B true)
    = S (length (CompareEnvs.ignoredKeys A B true)).
Proof.
  split_and!.
  - apply omap_sublist. intros k. unfold CompareEnvs.diffOf.
    case_bool_decide; [|by left].
    destruct (CompareEnvs.shouldIgnore true _ _); [by left | by right].
  - intros f. apply CompareEnvs_accounting_on.
  - unfold CompareEnvs.ignoredKeys. induction (Obj.allKeys A B) as [|k l IH];
      [done|].
    rewrite filter_cons, decide_False; [done|]. simpl. intros [_ []].
  - unfold CompareEnvs.computeDiffsLog.
    assert (CompareEnvs.ignoredKeys A B false = []) as ->; [|done].
    unfold CompareEnvs.ignoredKeys. induction (Obj.allKeys A B) as [|k l IH];
      [done|].
    rewrite filter_cons, decide_False; [done|]. simpl. intros [_ []].
  - unfold CompareEnvs.computeDiffsLog. rewrite length_app, length_fmap.
    destruct (CompareEnvs.ignoredKeys A B true); simpl; lia.
Qed.

(** ** The two engines side by side *)

(** X5: With the filter off, computeDiffs of compare_envs.js is computeDiffs
    of check_config.js up to the naming of the record fields: mapping pt to
    old, prod to new, added_in_prod to added and added_in_pt to removed turns
    the one result into the other, record by record and in the same order. *)
Theorem engines_agree_without_filter (A B : option (gmap string string)) :
  Views.toTemporal <$> CompareEnvs.computeDiffs A B false
  = CheckConfig.computeDiffs A B.
Proof.
  unfold CompareEnvs.computeDiffs, CheckConfig.computeDiffs.
  assert (∀ k, Views.toTemporal <$> CompareEnvs.diffOf A B false k
               = CheckConfig.diffOf A B k) as Hk.
  { intros k. unfold CompareEnvs.diffOf, CheckConfig.diffOf. simpl.
    case_bool_decide; [|done]. simpl.
    by destruct (Obj.get A k), (Obj.get B k). }
  induction (Obj.allKeys A B) as [|k l IH]; [done|].
  cbn [omap list_omap]. rewrite <- Hk.
  destruct (CompareEnvs.diffOf A B false k); simpl; [f_equal|]; apply IH.
Qed.

(** ** The normalizer, further *)

Lemma replace_go_sublist pat s : ∀ k, JS.replace_go pat k s `sublist_of` s.
Proof.
  induction s as [|c s IH]; intros k; simpl; [done|].
  destruct k as [|k]; [|by apply sublist_cons].
  destruct (JS.startsWith pat (c :: s)); [by apply sublist_cons|].
  by apply sublist_skip.
Qed.

Lemma replace_list_sublist pat s : JS.replace_list pat s `sublist_of` s.
Proof. destruct pat; [done|]. apply replace_go_sublist. Qed.

Lemma replaceAll_chars pat s :
  list_ascii_of_string (JS.replaceAll pat s)
  = JS.replace_list (list_ascii_of_string pat) (list_ascii_of_string s).
Proof. unfold JS.replaceAll. apply list_ascii_of_string_of_list_ascii. Qed.

Lemma string_length_chars s : String.length s = length (list_ascii_of_string s).
Proof. induction s as [|c s IH]; simpl; [done | by rewrite IH]. Qed.

Lemma passes_sublist (ps : list string) : ∀ v,
  list_ascii_of_string
    (foldl (fun normalized pattern => JS.replaceAll pattern normalized) v ps)
  `sublist_of` list_ascii_of_string v.
Proof.
  induction ps as [|p ps IH]; intros v; simpl; [done|].
  etrans; [apply IH|]. rewrite replaceAll_chars. apply replace_list_sublist.
Qed.

(** X6: normalizeValue only deletes characters: the characters of its result
    are a sub-sequence of the characters of its argument (the empty string for
    an absent value), so the result is never longer than the argument and
    never contains a character the argument lacks. *)
Theorem normalizer_only_deletes (value : option string) (isPt : bool) :
  list_ascii_of_string (CompareEnvs.normalizeValue value isPt)
  `sublist_of` list_ascii_of_string (default "" value)
  ∧ (String.length (CompareEnvs.normalizeValue value isPt)
     ≤ String.length (default "" value))%nat.
Proof.
  assert (list_ascii_of_string (CompareEnvs.normalizeValue value isPt)
          `sublist_of` list_ascii_of_string (default "" value)) as H.
  { unfold CompareEnvs.normalizeValue.
    destruct (Obj.falsy value); [apply sublist_nil_l | apply passes_sublist]. }
  split; [done|]. rewrite !string_length_chars. by apply sublist_length.
Qed.

Lemma replace_go_absent pat s :
  JS.includes_list pat s = false → JS.replace_go pat 0 s = s.
Proof.
  induction s as [|c s IH]; [done|].
  cbn [JS.includes_list JS.replace_go].
  intros [Hs Hi]%orb_false_iff. rewrite Hs. f_equal. by apply IH.
Qed.

Lemma replace_go_present pat s :
  pat ≠ [] → JS.includes_list pat s = true →
  (length (JS.replace_go pat 0 s) < length s)%nat.
Proof.
  intros Hne. induction s as [|c s IH].
  - simpl. destruct pat; [done|]. done.
  - cbn [JS.includes_list JS.replace_go].
    destruct (JS.startsWith pat (c :: s)) eqn:Hs; simpl.
    + intros _. pose proof (sublist_length _ _
        (replace_go_sublist pat s (pred (length pat)))). lia.
    + intros Hi. specialize (IH Hi). lia.
Qed.

Lemma replaceAll_unchanged_iff pat s :
  pat ≠ "" → JS.replaceAll pat s = s ↔ JS.includes s pat = false.
Proof.
  intros Hne. unfold JS.includes.
  assert (list_ascii_of_string pat ≠ []) as Hl by (by destruct pat).
  split.
  - intros Heq. destruct (JS.includes_list _ _) eqn:Hi; [|done].
    apply (f_equal String.length) in Heq.
    rewrite !string_length_chars, replaceAll_chars in Heq.
    unfold JS.replace_list in Heq.
    destruct (list_ascii_of_string pat) as [|a p] eqn:Hp; [done|].
    pose proof (replace_go_present (a :: p) (list_ascii_of_string s) Hl Hi). lia.
  - intros Hi. unfold JS.replaceAll, JS.replace_list.
    destruct (list_ascii_of_string pat) as [|a p] eqn:Hp; [done|].
    rewrite replace_go_absent by done. apply string_of_list_ascii_of_string.
Qed.

Lemma passes_unchanged_iff (ps : list string) :
  (∀ p, p ∈ ps → p ≠ "") → ∀ v,
  foldl (fun normalized pattern => JS.replaceAll pattern normalized) v ps = v
  ↔ ∀ p, p ∈ ps → JS.includes v p = false.
Proof.
  induction ps as [|p ps IH]; intros Hne v; simpl.
  - split; [intros _ p Hp; by apply elem_of_nil in Hp | done].
  - assert (p ≠ "") as Hp by (apply Hne; by left).
    assert (∀ q, q ∈ ps → q ≠ "") as Hps by (intros q Hq; apply Hne; by right).
    split.
    + intros Heq.
      assert (JS.replaceAll p v = v) as Hpv.
      { destruct (JS.includes v p) eqn:Hi; [|by apply replaceAll_unchanged_iff].
        exfalso. apply (f_equal String.length) in Heq.
        rewrite !string_length_chars in Heq.
        pose proof (sublist_length _ _ (passes_sublist ps (JS.replaceAll p v))).
        assert (length (list_ascii_of_string (JS.replaceAll p v))
                < length (list_ascii_of_string v))%nat; [|lia].
        rewrite replaceAll_chars. unfold JS.includes in Hi. unfold JS.replace_list.
        destruct (list_ascii_of_string p) as [|a p'] eqn:Hp'; [by destruct p|].
        by apply replace_go_present. }
      rewrite Hpv in Heq. intros q [->|Hq]%elem_of_cons.
      * by apply replaceAll_unchanged_iff.
      * by apply (IH Hps v).
    + intros H.
      assert (JS.replaceAll p v = v) as ->
        by (apply replaceAll_unchanged_iff; [done | apply H; by left]).
      apply IH; [done|]. intros q Hq. apply H. by right.
Qed.

(** X7: normalizeValue returns a string unchanged exactly when the string
    contains none of the environment labels of the side it is normalised
    for. *)
Theorem normalizer_unchanged_iff_no_label (v : string) (isPt : bool) :
  CompareEnvs.normalizeValue (Some v) isPt = v
  ↔ ∀ pat, pat ∈ CompareEnvs.patterns isPt → JS.includes v pat = false.
Proof.
  unfold CompareEnvs.normalizeValue. simpl.
  assert (∀ p, p ∈ CompareEnvs.patterns isPt → p ≠ "") as Hne.
  { intros p Hp. by destruct (patterns_borderFree isPt p Hp). }
  case_bool_decide as Hv; [|by apply passes_unchanged_iff].
  subst v. split; [|done]. intros _ pat Hp. specialize (Hne pat Hp).
  unfold JS.includes. simpl. by destruct pat.
Qed.

Lemma replace_list_leading pat x :
  JS.replace_list pat (pat ++ x) = JS.replace_list pat x.
Proof.
  destruct pat as [|a p]; [done|]. unfold JS.replace_list.
  cbn [app JS.replace_go].
  assert (JS.startsWith (a :: p) (a :: p ++ x) = true) as ->.
  { apply startsWith_prefix. by apply (prefix_app_r (a :: p) (a :: p) x). }
  rewrite replace_go_skip. simpl. by rewrite drop_app_length.
Qed.

Lemma replaceAll_leading pat x :
  JS.replaceAll pat (pat +:+ x) = JS.replaceAll pat x.
Proof. unfold JS.replaceAll. by rewrite chars_append, replace_list_leading. Qed.

Lemma labelFree_spec x pat :
  Views.labelFree x = true →
  pat ∈ CompareEnvs.patterns true ++ CompareEnvs.patterns false →
  JS.replaceAll pat x = x ∧ JS.includes x pat = false.
Proof.
  unfold Views.labelFree. rewrite forallb_forall. intros H Hin.
  assert (JS.includes x pat = false) as Hi.
  { apply negb_true_iff, H, list_elem_of_In, Hin. }
  split; [|done]. apply replaceAll_unchanged_iff; [|done].
  apply elem_of_app in Hin as [Hin|Hin];
    by destruct (patterns_borderFree _ _ Hin).
Qed.

Lemma normalize_pt_label x :
  Views.labelFree x = true →
  CompareEnvs.normalizeValue (Some ("pt-" +:+ x)) true = x.
Proof.
  intros H. unfold CompareEnvs.normalizeValue. simpl.
  change (String "p" (String "t" (String "-" x))) with ("pt-" +:+ x).
  rewrite replaceAll_leading.
  rewrite (proj1 (labelFree_spec x "pt-" H ltac:(set_solver))).
  apply (labelFree_spec x "contents-pt" H). set_solver.
Qed.

Lemma normalize_prod_label x :
  Views.labelFree x = true →
  CompareEnvs.normalizeValue (Some ("prod-" +:+ x)) false = x.
Proof.
  intros H. unfold CompareEnvs.normalizeValue. simpl.
  change (String "p" (String "r" (String "o" (String "d" (String "-" x)))))
    with ("prod-" +:+ x).
  rewrite replaceAll_leading.
  rewrite (proj1 (labelFree_spec x "prod-" H ltac:(set_solver))).
  rewrite (proj1 (labelFree_spec x "prd-" H ltac:(set_solver))).
  apply (labelFree_spec x "contents" H). set_solver.
Qed.

Lemma normalize_prd_label x :
  Views.labelFree x = true →
  CompareEnvs.normalizeValue (Some ("prd-" +:+ x)) false = x.
Proof.
  intros H. unfold CompareEnvs.normalizeValue. simpl.
  change (String "p" (String "r" (String "d" (String "-" x))))
    with ("prd-" +:+ x).
  assert (JS.replaceAll "prod-" ("prd-" +:+ x) = "prd-" +:+ x) as ->.
  { apply replaceAll_unchanged_iff; [done|].
    pose proof (proj2 (labelFree_spec x "prod-" H ltac:(set_solver))) as Hi.
    unfold JS.includes in *. simpl in *. change ("" +:+ x) with x.
    by rewrite Hi. }
  rewrite replaceAll_leading.
  rewrite (proj1 (labelFree_spec x "prd-" H ltac:(set_solver))).
  apply (labelFree_spec x "contents" H). set_solver.
Qed.

(** X8: A value that differs between the two environments only by its
    leading environment label (pt- on the one side, prod- or prd- on the
    other, followed by the same label-free non-empty text) is normalised to
    that text on both sides; its key is reported with the filter off and is
    not reported with the filter on. *)
Theorem label_substitution_is_suppressed
  (A B : option (gmap string string)) (k x : string) :
  Views.labelFree x = true → x ≠ "" →
  Obj.get A k = Some ("pt-" +:+ x) →
  Obj.get B k = Some ("prod-" +:+ x) ∨ Obj.get B k = Some ("prd-" +:+ x) →
  CompareEnvs.normalizeValue (Obj.get A k) true = x
  ∧ CompareEnvs.normalizeValue (Obj.get B k) false = x
  ∧ k ∈ CompareEnvs.key <$> CompareEnvs.computeDiffs A B false
  ∧ k ∉ CompareEnvs.key <$> CompareEnvs.computeDiffs A B true.
Proof.
  intros Hfree Hx Ha Hb.
  assert (CompareEnvs.normalizeValue (Obj.get A k) true = x) as Hna
    by (rewrite Ha; by apply normalize_pt_label).
  assert (CompareEnvs.normalizeValue (Obj.get B k) false = x) as Hnb
    by (destruct Hb as [-> | ->];
        [by apply normalize_prod_label | by apply normalize_prd_label]).
  assert (Obj.get A k ≠ Obj.get B k) as Hne
    by (rewrite Ha; destruct Hb as [-> | ->]; discriminate).
  split; [done|]. split; [done|]. rewrite !CompareEnvs_key_mem. split.
  - done.
  - intros [_ Hi].
    assert (CompareEnvs.shouldIgnore true (Obj.get A k) (Obj.get B k) = true);
      [|congruence].
    apply shouldIgnore_true. rewrite Hna, Hnb. done.
Qed.

Lemma label_substitution_witness :
  CompareEnvs.normalizeValue (Obj.get Sample.ptMap "host") true = "svc"
  ∧ CompareEnvs.normalizeValue (Obj.get Sample.prodMap "host") false = "svc"
  ∧ "host" ∈ CompareEnvs.key
             <$> CompareEnvs.computeDiffs Sample.ptMap Sample.prodMap false
  ∧ "host" ∉ CompareEnvs.key
             <$> CompareEnvs.computeDiffs Sample.ptMap Sample.prodMap true.
Proof.
  apply (label_substitution_is_suppressed Sample.ptMap Sample.prodMap
           "host" "svc").
  - vm_compute. reflexivity.
  - discriminate.
  - vm_compute. reflexivity.
  - left. vm_compute. reflexivity.
Defined.

(** ** Outcomes of runs *)

Section Outcomes.

Context {J : Type}.

Lemma bind_no_exit {A B} (m : M J A) (f : A → M J B) :
  (∀ c, m.2 ≠ Exit c) → (∀ a c, (f a).2 ≠ Exit c) → ∀ c, (m ≫= f).2 ≠ Exit c.
Proof.
  intros Hm Hf c. rewrite bind_unfold.
  destruct m as [tr [a|msg|c']]; simpl in *; [apply Hf | done | by destruct (Hm c')].
Qed.

Lemma tryCatch_no_exit {A} (m : M J A) (h : string → M J A) :
  (∀ c, m.2 ≠ Exit c) → (∀ msg c, (h msg).2 ≠ Exit c) →
  ∀ c, (tryCatch m h).2 ≠ Exit c.
Proof.
  intros Hm Hh c. unfold tryCatch.
  destruct m as [tr [a|msg|c']]; simpl in *; [done | apply Hh | by destruct (Hm c')].
Qed.

Lemma forEachM_no_exit {S A} (body : S → A → M J S) (l : list A) :
  (∀ st x c, (body st x).2 ≠ Exit c) →
  ∀ st c, (forEachM body st l).2 ≠ Exit c.
Proof.
  intros Hbody. induction l as [|x l IH]; intros st c; simpl; [done|].
  apply bind_no_exit; [apply Hbody | intros; apply IH].
Qed.

Lemma await_no_exit {A} (e : Event J) (r : string + A) c :
  (await e r).2 ≠ Exit c.
Proof. by destruct r. Qed.

End Outcomes.

Section CheckConfigOutcomes.

Context (git : Git) (path : Path) (parse : string → gmap string string).
Context (oldTag newTag : string).

Local Abbreviation getFileContent := (CheckConfig.getFileContent git parse).
Local Abbreviation listFiles := (CheckConfig.listFiles git).
Local Abbreviation processFile := (CheckConfig.processFile git path parse oldTag newTag).
Local Abbreviation processEnv := (CheckConfig.processEnv git path parse oldTag newTag).
Local Abbreviation validateRefs := (CheckConfig.validateRefs git oldTag newTag).
Local Abbreviation scan := (CheckConfig.scan git path parse oldTag newTag).
Local Abbreviation main := (CheckConfig.main git path parse oldTag newTag).

Lemma CheckConfig_getFileContent_no_exit tag p c :
  (getFileContent tag p).2 ≠ Exit c.
Proof.
  unfold CheckConfig.getFileContent. apply tryCatch_no_exit.
  - apply bind_no_exit; [apply await_no_exit | done].
  - intros msg c'. by destruct (JS.includes msg _).
Qed.

Lemma CheckConfig_listFiles_no_exit tag dir c :
  (listFiles tag dir).2 ≠ Exit c.
Proof.
  unfold CheckConfig.listFiles. apply tryCatch_no_exit.
  - apply bind_no_exit; [apply await_no_exit | done].
  - intros msg c'. by destruct (JS.includes msg _).
Qed.

Lemma CheckConfig_processEnv_no_exit res env c :
  (processEnv res env).2 ≠ Exit c.
Proof.
  unfold CheckConfig.processEnv.
  apply bind_no_exit; [intros; apply CheckConfig_listFiles_no_exit|].
  intros listed c'. apply forEachM_no_exit. intros st p c''.
  unfold CheckConfig.processFile.
  apply bind_no_exit; [intros; apply CheckConfig_getFileContent_no_exit|].
  intros oldC c3.
  apply bind_no_exit; [intros; apply CheckConfig_getFileContent_no_exit|].
  intros newC c4. by destruct (CheckConfig.retained _ _ _).
Qed.

Local Abbreviation quiet := Views.quiet.

(** The scan either prints one report, last, and returns, or throws
    without having printed. *)
Lemma CheckConfig_scan_shape :
  (∃ pre r, scan ∅ = (pre ++ [Stdout r], Ret tt) ∧ quiet pre)
  ∨ (∃ pre msg, scan ∅ = (pre, Throw msg) ∧ quiet pre).
Proof.
  unfold CheckConfig.scan, tryCatch. rewrite !bind_unfold.
  pose proof (CheckConfig_listFiles_trace git newTag CheckConfig.configDir) as Htr.
  pose proof (CheckConfig_listFiles_no_exit newTag CheckConfig.configDir) as Hne.
  destruct (listFiles newTag CheckConfig.configDir) as [tr0 [allFiles|msg|c]];
    simpl in *; subst tr0; [| |by destruct (Hne c)].
  - pose proof (CheckConfig_envs_loop_events git path parse oldTag newTag
                  (CheckConfig.envsOf path allFiles) ∅) as Hev.
    pose proof (forEachM_no_exit processEnv (CheckConfig.envsOf path allFiles)
                  (CheckConfig_processEnv_no_exit) ∅) as Hnx.
    destruct (forEachM processEnv ∅ _) as [tr [result|msg|c]]; simpl in *;
      [| |by destruct (Hnx c)].
    + left. exists (GitRaw (CheckConfig.lsTreeArgs newTag CheckConfig.configDir) :: tr),
        (CheckConfig.prune result). split; [done|].
      constructor; [simpl; tauto|]. apply Forall_forall.
      intros e [[? ->]|[? ->]]%Hev; simpl; tauto.
    + right. exists (GitRaw (CheckConfig.lsTreeArgs newTag CheckConfig.configDir) :: tr),
        msg. split; [done|].
      constructor; [simpl; tauto|]. apply Forall_forall.
      intros e [[? ->]|[? ->]]%Hev; simpl; tauto.
  - left. exists [GitRaw (CheckConfig.lsTreeArgs newTag CheckConfig.configDir)], ∅.
    split; [done|]. constructor; [simpl; tauto | constructor].
Qed.

Lemma CheckConfig_validateRefs_quiet : quiet validateRefs.1.
Proof.
  apply Forall_forall.
  intros e [->| ->]%CheckConfig_validateRefs_events; simpl; tauto.
Qed.

(** A run of [main] either prints one report, as its last action, and
    returns, or prints none, ends on a diagnostic and exits with 1. *)
Lemma CheckConfig_main_shape :
  (∃ pre r, main = (pre ++ [Stdout r], Ret tt) ∧ quiet pre)
  ∨ (∃ pre line, main = (pre ++ [Stderr line], Exit 1) ∧ quiet pre).
Proof.
  destruct (CheckConfig_validateRefs_cases git oldTag newTag)
    as [(Hv & _ & _)|[msg Hv]].
  - rewrite CheckConfig_main_unfold. unfold tryCatch.
    rewrite (bind_unfold validateRefs), Hv. cbn [fst snd].
    destruct CheckConfig_scan_shape as [(pre & r & -> & Hq)|(pre & msg & -> & Hq)];
      cbn [fst snd].
    + left. exists (validateRefs.1 ++ pre), r.
      split; [by rewrite <- app_assoc|].
      apply Forall_app. split; [apply CheckConfig_validateRefs_quiet | done].
    + right. exists (validateRefs.1 ++ pre), ("ข้อผิดพลาด: " +:+ msg).
      split; [reflexivity|].
      apply Forall_app. split; [apply CheckConfig_validateRefs_quiet | done].
  - right. exists validateRefs.1, ("ข้อผิดพลาด: " +:+ msg).
    split; [by apply CheckConfig_main_rejected|].
    apply CheckConfig_validateRefs_quiet.
Qed.

End CheckConfigOutcomes.

(** ** What a temporal run prints and how it ends *)

(** X9: Every run of check_config.js ends in one of two ways: with exit
    status 0, the JSON report being the last action and the only one printed
    on stdout; or with exit status 1, nothing printed on stdout at all and a
    message on stderr as the last action. *)
Theorem CheckConfig_script_prints_once_or_fails
  (git : Git) (path : Path) (parse : string → gmap string string)
  (argv : list string) :
  ((CheckConfig.script git path parse argv).2 = 0%nat
   ∧ ∃ pre r, (CheckConfig.script git path parse argv).1 = pre ++ [Stdout r]
              ∧ Views.quiet pre)
  ∨ ((CheckConfig.script git path parse argv).2 = 1%nat
     ∧ Views.quiet (CheckConfig.script git path parse argv).1
     ∧ ∃ pre line, (CheckConfig.script git path parse argv).1
                   = pre ++ [Stderr line]).
Proof.
  unfold CheckConfig.script. destruct (_ || _).
  { right. simpl. split; [done|]. split.
    - constructor; [simpl; tauto | constructor].
    - by exists [], "การใช้งาน: node check_config.js <oldTag> <newTag>". }
  destruct (simpleGit git) as [text|].
  { right. simpl. split; [done|]. split.
    - constructor; [simpl; tauto | constructor].
    - by exists [], text. }
  destruct (CheckConfig_main_shape git path parse
              (default "" (argv !! 2%nat)) (default "" (argv !! 3%nat)))
    as [(pre & r & -> & Hq)|(pre & line & -> & Hq)]; simpl.
  - left. split; [done|]. eauto.
  - right. split; [done|]. split; [|eauto].
    apply Forall_app. split; [done|]. constructor; [simpl; tauto | constructor].
Qed.

(** X10: When both references resolve but the listing of the configuration
    root at the new revision fails, check_config.js does not fail: it prints
    the report with no environment and returns normally, without fetching any
    file (the inner try/catch of main). *)
Theorem CheckConfig_missing_root_gives_empty_report
  (git : Git) (path : Path) (parse : string → gmap string string)
  (oldTag newTag : string) (allTags : list string) (commits msg : string) :
  tags git = inr allTags →
  raw git ["rev-list"; "--all"] = inr commits →
  oldTag ∈ allTags ++ JS.split "010" commits →
  newTag ∈ allTags ++ JS.split "010" commits →
  raw git (CheckConfig.lsTreeArgs newTag "config") = inl msg →
  CheckConfig.main git path parse oldTag newTag
  = ([GitTags; GitRaw ["rev-list"; "--all"];
      GitRaw (CheckConfig.lsTreeArgs newTag "config"); Stdout ∅], Ret tt).
Proof.
  intros Ht Hr Ho Hn Hl.
  assert (CheckConfig.validateRefs git oldTag newTag
          = ([GitTags; GitRaw ["rev-list"; "--all"]], Ret tt)) as Hv.
  { unfold CheckConfig.validateRefs, await. rewrite Ht, Hr.
    cbn -[JS.split bool_decide].
    rewrite (bool_decide_eq_true_2 _ Ho), (bool_decide_eq_true_2 _ Hn). done. }
  assert (∃ m, CheckConfig.listFiles git newTag CheckConfig.configDir
               = ([GitRaw (CheckConfig.lsTreeArgs newTag "config")], Throw m))
    as [m Hlist].
  { unfold CheckConfig.listFiles, CheckConfig.configDir, tryCatch, await.
    rewrite Hl. cbn -[JS.includes].
    destruct (JS.includes msg _); eauto. }
  rewrite CheckConfig_main_unfold. unfold tryCatch, CheckConfig.scan.
  rewrite (bind_unfold (CheckConfig.validateRefs git oldTag newTag)), Hv.
  cbn [fst snd]. unfold tryCatch.
  rewrite (bind_unfold (CheckConfig.listFiles git newTag CheckConfig.configDir)).
  rewrite Hlist. cbn [fst snd]. done.
Qed.

Lemma CheckConfig_missing_root_witness :
  CheckConfig.main Sample.repo Sample.posix Sample.parse "v2" "v1"
  = ([GitTags; GitRaw ["rev-list"; "--all"];
      GitRaw (CheckConfig.lsTreeArgs "v1" "config"); Stdout ∅], Ret tt).
Proof.
  apply (CheckConfig_missing_root_gives_empty_report Sample.repo Sample.posix
           Sample.parse "v2" "v1" ["v1"; "v2"]
           ("c0ffee" +:+ Sample.nl +:+ "decade" +:+ Sample.nl)
           "fatal: not a valid pathspec").
  - reflexivity.
  - reflexivity.
  - apply (bool_decide_eq_true_1 (_ ∈ _)). vm_compute. reflexivity.
  - apply (bool_decide_eq_true_1 (_ ∈ _)). vm_compute. reflexivity.
  - reflexivity.
Defined.

(** Where an entry of a printed temporal report comes from. *)
Lemma CheckConfig_entry_origin
  (git : Git) (path : Path) (parse : string → gmap string string)
  (oldTag newTag : string) r env files name fd :
  Stdout r ∈ (CheckConfig.main git path parse oldTag newTag).1 →
  r !! env = Some files → files !! name = Some fd →
  ∃ p, CheckConfig.fileDiffOf git parse oldTag newTag p = Some fd
       ∧ basename path p = name
       ∧ CheckConfig.retained (CheckConfig.oldContent fd)
           (CheckConfig.newContent fd) (CheckConfig.diffs fd) = true.
Proof.
  intros Hr Henv Hname.
  pose proof (CheckConfig_scan_Stdout git path parse oldTag newTag r
                (CheckConfig_main_Stdout git path parse oldTag newTag r Hr))
    as Hscan.
  destruct (CheckConfig.listFiles git newTag CheckConfig.configDir).2
    as [allFiles|msg|c] eqn:Hl;
    [|subst r; by rewrite lookup_empty in Henv..].
  clear Hscan.
  destruct (CheckConfig_report git path parse oldTag newTag r allFiles Hr Hl)
    as [Hin Hout].
  destruct (decide (env ∈ CheckConfig.envsOf path allFiles)) as [He|He];
    [|rewrite (Hout env He) in Henv; done].
  destruct (Hin env He) as (paths & _ & _ & Hentry).
  specialize (Hentry name). unfold CheckConfig.entry in Hentry.
  rewrite Henv in Hentry. simpl in Hentry. rewrite Hname in Hentry.
  symmetry in Hentry.
  apply CheckConfig_entriesOf_Some in Hentry as (p & _ & Hb & Hfd & Hret).
  eauto.
Qed.

(** X11: Comparing a revision with itself (git answering a repeated query
    the same way), check_config.js never reports a change: any entry that is
    printed has no change record and no content on either side (such an entry
    exists only for a listed path whose content is missing at that
    revision). *)
Theorem CheckConfig_same_revision_reports_no_change
  (git : Git) (path : Path) (parse : string → gmap string string)
  (tag : string) r env files name fd :
  Stdout r ∈ (CheckConfig.main git path parse tag tag).1 →
  r !! env = Some files → files !! name = Some fd →
  CheckConfig.diffs fd = []
  ∧ CheckConfig.oldContent fd = None
  ∧ CheckConfig.newContent fd = None.
Proof.
  intros Hr Henv Hname.
  destruct (CheckConfig_entry_origin git path parse tag tag r env files name fd
              Hr Henv Hname) as (p & Hfd & _ & Hret).
  unfold CheckConfig.fileDiffOf in Hfd.
  destruct (CheckConfig.getFileContent git parse tag p).2 as [c| |]; [|done..].
  injection Hfd as <-. simpl in *.
  assert (CheckConfig.computeDiffs c c = []) as Hd.
  { unfold CheckConfig.computeDiffs. apply omap_nil_iff. intros k _.
    by apply CheckConfig_diffOf_None. }
  rewrite Hd in *. split; [done|].
  unfold CheckConfig.retained in Hret. simpl in Hret.
  apply orb_true_iff in Hret as [Hc|Hc]; apply bool_decide_eq_true in Hc; done.
Qed.

Lemma CheckConfig_same_revision_witness :
  CheckConfig.diffs Views.ghostEntry = []
  ∧ CheckConfig.oldContent Views.ghostEntry = None
  ∧ CheckConfig.newContent Views.ghostEntry = None.
Proof.
  apply (CheckConfig_same_revision_reports_no_change Views.stale Sample.posix
           Sample.parse "v2"
           {[ "pt" := {[ "gone.properties" := Views.ghostEntry ]} ]}
           "pt" {[ "gone.properties" := Views.ghostEntry ]} "gone.properties").
  - apply last_Some_elem_of. vm_compute. reflexivity.
  - apply lookup_singleton_eq.
  - apply lookup_singleton_eq.
Defined.

(** X12: After the root listing succeeded, a failing listing of one of
    the environments, or a failing fetch of one of its [.properties] files
    (an error other than a missing file), ends check_config.js with exit
    status 1 and nothing printed on stdout: there is no partial report. *)
Theorem CheckConfig_failed_listing_or_fetch_is_fatal
  (git : Git) (path : Path) (parse : string → gmap string string)
  (oldTag newTag : string) (allFiles : list string) (env : string) :
  (CheckConfig.listFiles git newTag CheckConfig.configDir).2 = Ret allFiles →
  env ∈ CheckConfig.envsOf path allFiles →
  CheckConfig.filesOf git newTag env = None
  ∨ (∃ files p, CheckConfig.filesOf git newTag env = Some files
                ∧ p ∈ files
                ∧ CheckConfig.fileDiffOf git parse oldTag newTag p = None) →
  (CheckConfig.main git path parse oldTag newTag).2 = Exit 1
  ∧ Views.quiet (CheckConfig.main git path parse oldTag newTag).1.
Proof.
  intros Hl Henv Hfail.
  assert (∀ r, Stdout r ∉ (CheckConfig.main git path parse oldTag newTag).1)
    as Hnone.
  { intros r Hr.
    destruct (CheckConfig_report git path parse oldTag newTag r allFiles Hr Hl)
      as [Hin _].
    destruct (Hin env Henv) as (files & Hfiles & Hfetch & _).
    destruct Hfail as [Hf|(files' & p & Hf & Hp & Hfd)]; [congruence|].
    assert (files' = files) as -> by congruence.
    destruct (Hfetch p Hp) as [fd Hfd']. congruence. }
  destruct (CheckConfig_main_shape git path parse oldTag newTag)
    as [(pre & r & Hm & Hq)|(pre & line & Hm & Hq)]; rewrite Hm in *; simpl.
  - exfalso. apply (Hnone r). simpl. apply elem_of_app. right. by left.
  - split; [done|]. apply Forall_app. split; [done|].
    constructor; [simpl; tauto | constructor].
Qed.

Lemma CheckConfig_failed_fetch_witness :
  (CheckConfig.main Views.flaky Sample.posix Sample.parse "v1" "v2").2 = Exit 1
  ∧ Views.quiet (CheckConfig.main Views.flaky Sample.posix Sample.parse "v1" "v2").1.
Proof.
  apply (CheckConfig_failed_listing_or_fetch_is_fatal Views.flaky Sample.posix
           Sample.parse "v1" "v2"
           ["config/prod/svc.properties"; "config/pt/a/svc.properties";
            "config/pt/b/svc.properties"] "prod").
  - vm_compute. reflexivity.
  - apply (bool_decide_eq_true_1 (_ ∈ _)). vm_compute. reflexivity.
  - right. exists ["config/prod/svc.properties"], "config/prod/svc.properties".
    split; [vm_compute; reflexivity|]. split; [by left|].
    vm_compute. reflexivity.
Defined.

(** ** Environments of a listing *)

(** X13: The environments that check_config.js visits are pairwise distinct,
    and they are exactly the first path components (relative to the
    configuration root) of the listed paths, the empty name and [.]
    excepted. *)
Theorem CheckConfig_envsOf_distinct_named (path : Path) (allFiles : list string) :
  NoDup (CheckConfig.envsOf path allFiles)
  ∧ ∀ env, env ∈ CheckConfig.envsOf path allFiles
           ↔ env ≠ "" ∧ env ≠ "."
             ∧ ∃ p, p ∈ allFiles ∧ CheckConfig.envOf path p = env.
Proof.
  unfold CheckConfig.envsOf. split; [apply NoDup_uniq|].
  intros env. rewrite elem_of_uniq, list_elem_of_filter, list_elem_of_fmap.
  split.
  - intros [[? ?] (p & -> & ?)]. eauto.
  - intros (? & ? & p & ? & <-). eauto.
Qed.

(** ** The usage check *)

Lemma bind_starts {J A B} (m : M J A) (f : A → M J B) :
  ∃ rest, (m ≫= f).1 = m.1 ++ rest.
Proof.
  rewrite bind_unfold. destruct m as [tr [a|msg|c]]; simpl; eauto.
  all: exists []; by rewrite app_nil_r.
Qed.

Lemma tryCatch_starts {J A} (m : M J A) (h : string → M J A) :
  ∃ rest, (tryCatch m h).1 = m.1 ++ rest.
Proof.
  unfold tryCatch. destruct m as [tr [a|msg|c]]; simpl; eauto.
  all: exists []; by rewrite app_nil_r.
Qed.

(** X14: The top level of the two scripts, before [main()] runs.  When a
    required argument is missing or empty the script prints exactly its
    usage line on stderr and exits with status 1 without any other action.
    With the arguments present, a constructor of the git handle that throws
    ends the run there: the uncaught error is the only output, the status
    is 1, and there is no access check and no git call.  Otherwise the first
    action is the tag query (check_config.js) resp. the access check of the
    repository path (compare_envs.js). *)
Theorem scripts_usage_check
  (git : Git) (path : Path) (parse : string → gmap string string)
  (access : string → option string) (repoPath : string) (argv : list string) :
  (Obj.falsy (argv !! 2%nat) || Obj.falsy (argv !! 3%nat) = true →
   CheckConfig.script git path parse argv
   = ([Stderr "การใช้งาน: node check_config.js <oldTag> <newTag>"], 1%nat))
  ∧ (∀ text,
       Obj.falsy (argv !! 2%nat) || Obj.falsy (argv !! 3%nat) = false →
       simpleGit git = Some text →
       CheckConfig.script git path parse argv = ([Stderr text], 1%nat))
  ∧ (Obj.falsy (argv !! 2%nat) || Obj.falsy (argv !! 3%nat) = false →
     simpleGit git = None →
     ∃ rest, (CheckConfig.script git path parse argv).1 = GitTags :: rest)
  ∧ (Obj.falsy (argv !! 2%nat) = true →
     CompareEnvs.script git path parse access repoPath argv
     = ([Stderr "การใช้งาน: node compare_envs.js <tag> [filter]"], 1%nat))
  ∧ (∀ text,
       Obj.falsy (argv !! 2%nat) = false →
       simpleGit git = Some text →
       CompareEnvs.script git path parse access repoPath argv
       = ([Stderr text], 1%nat))
  ∧ (Obj.falsy (argv !! 2%nat) = false →
     simpleGit git = None →
     ∃ rest, (CompareEnvs.script git path parse access repoPath argv).1
             = FsAccess repoPath :: rest).
Proof.
  split_and!.
  - intros H. unfold CheckConfig.script. by rewrite H.
  - intros text H Hsg. unfold CheckConfig.script. by rewrite H, Hsg.
  - intros H Hsg. unfold CheckConfig.script. rewrite H, Hsg. cbn [fst].
    rewrite CheckConfig_main_unfold.
    match goal with |- context [(tryCatch ?m ?h).1] =>
      destruct (tryCatch_starts m h) as [r1 ->] end.
    match goal with |- context [(?m ≫= ?f).1] =>
      destruct (bind_starts m f) as [r2 ->] end.
    unfold CheckConfig.validateRefs.
    match goal with |- context [(?m ≫= ?f).1] =>
      destruct (bind_starts m f) as [r3 ->] end.
    simpl. eauto.
  - intros H. unfold CompareEnvs.script. by rewrite H.
  - intros text H Hsg. unfold CompareEnvs.script. by rewrite H, Hsg.
  - intros H Hsg. unfold CompareEnvs.script. rewrite H, Hsg. cbn [fst].
    rewrite CompareEnvs_main_unfold.
    match goal with |- context [(?m ≫= ?f).1] =>
      destruct (bind_starts m f) as [r1 ->] end.
    unfold CompareEnvs.checkRepoPath.
    match goal with |- context [(tryCatch ?m ?h).1] =>
      destruct (tryCatch_starts m h) as [r2 ->] end.
    match goal with |- context [(?m ≫= ?f).1] =>
      destruct (bind_starts m f) as [r3 ->] end.
    simpl. eauto.
Qed.

(** ** What a cross-environment run prints and how it ends *)

Section CompareEnvsOutcomes.

Context (git : Git) (path : Path) (parse : string → gmap string string).
Context (access : string → option string) (repoPath : string).
Context (tag flt : string).

Local Abbreviation collect := (CompareEnvs.collect git path parse tag).
Local Abbreviation compareAll := (CompareEnvs.compareAll flt).
Local Abbreviation validateRef := (CompareEnvs.validateRef git tag).
Local Abbreviation checkRepoPath := (CompareEnvs.checkRepoPath path access repoPath).
Local Abbreviation main :=
  (CompareEnvs.main git path parse access repoPath tag flt).
Local Abbreviation quiet := Views.quiet.

Lemma CompareEnvs_getFileContent_no_exit rev p c :
  (CompareEnvs.getFileContent git parse rev p).2 ≠ Exit c.
Proof.
  unfold CompareEnvs.getFileContent. apply tryCatch_no_exit.
  - apply bind_no_exit; [apply await_no_exit | done].
  - intros msg c'. by destruct (JS.includes msg _).
Qed.

Lemma CompareEnvs_listFiles_no_exit rev dir c :
  (CompareEnvs.listFiles git rev dir).2 ≠ Exit c.
Proof.
  unfold CompareEnvs.listFiles. apply tryCatch_no_exit.
  - apply bind_no_exit; [apply await_no_exit | done].
  - done.
Qed.

Lemma CompareEnvs_collect_no_exit c : collect.2 ≠ Exit c.
Proof.
  unfold CompareEnvs.collect. apply forEachM_no_exit. intros st env c'.
  unfold CompareEnvs.collectEnv.
  apply bind_no_exit; [intros; apply CompareEnvs_listFiles_no_exit|].
  intros l c''. apply forEachM_no_exit. intros st' p c3.
  unfold CompareEnvs.collectFile.
  apply bind_no_exit; [intros; apply CompareEnvs_getFileContent_no_exit | done].
Qed.

(** The three ways [checkRepoPath] goes. *)
Lemma CompareEnvs_checkRepoPath_shape :
  (is_Some (access repoPath)
   ∧ ∃ line, checkRepoPath = ([FsAccess repoPath; Stderr line], Exit 1))
  ∨ (access repoPath = None ∧ is_Some (access (join path repoPath ".git"))
     ∧ ∃ line, checkRepoPath
               = ([FsAccess repoPath; FsAccess (join path repoPath ".git");
                   Stderr line], Exit 1))
  ∨ (access repoPath = None ∧ access (join path repoPath ".git") = None
     ∧ ∃ line, checkRepoPath
               = ([FsAccess repoPath; FsAccess (join path repoPath ".git");
                   Stderr line], Ret tt)).
Proof.
  unfold CompareEnvs.checkRepoPath, CompareEnvs.fsAccess, tryCatch, await.
  rewrite !bind_unfold.
  destruct (access repoPath) as [m|]; cbn [fst snd].
  { left. split; [eauto|]. eexists. reflexivity. }
  destruct (access (join path repoPath ".git")) as [m|]; cbn [fst snd].
  { right. left. split; [done|]. split; [eauto|]. eexists. reflexivity. }
  right. right. split; [done|]. split; [done|]. eexists. reflexivity.
Qed.

Lemma CompareEnvs_body_shape :
  let body :=
    validateRef ≫= fun _ =>
    collect ≫= fun envs =>
    compareAll envs ≫= fun result =>
    emit (Stderr ("จำนวน diffs รวม: "
                  +:+ pretty (CompareEnvs.totalDiffs result))) ≫= fun _ =>
    emit (Stdout result) in
  (∃ pre r, body = (pre ++ [Stdout r], Ret tt) ∧ quiet pre)
  ∨ (∃ pre msg, body = (pre, Throw msg) ∧ quiet pre).
Proof.
  intros body. unfold body. clear body.
  assert (quiet validateRef.1) as Hqv.
  { apply Forall_forall.
    intros e [->| ->]%CompareEnvs_validateRef_events; simpl; tauto. }
  assert (quiet collect.1) as Hqc.
  { apply Forall_forall.
    intros e [[? ->]|[? ->]]%CompareEnvs_collect_events; simpl; tauto. }
  rewrite (bind_unfold validateRef).
  destruct (CompareEnvs_validateRef_cases git tag) as [[Hv _]|[msg Hv]];
    rewrite Hv; [|right; eauto].
  rewrite (bind_unfold collect).
  pose proof CompareEnvs_collect_no_exit as Hnx.
  destruct collect as [trc [envs|msg|c]]; cbn [fst snd] in *;
    [| |by destruct (Hnx c)].
  - destruct (CompareEnvs_compareAll_Ret flt envs) as [result Hres].
    pose proof (CompareEnvs_compareAll_events flt envs) as Hev.
    rewrite (bind_unfold (compareAll envs)), Hres. rewrite !bind_unfold.
    cbn [fst snd emit]. left.
    exists (validateRef.1 ++ trc ++ (compareAll envs).1
            ++ [Stderr ("จำนวน diffs รวม: "
                        +:+ pretty (CompareEnvs.totalDiffs result))]), result.
    split.
    + f_equal. by rewrite <- !app_assoc.
    + apply Forall_app. split; [done|]. apply Forall_app. split; [done|].
      apply Forall_app. split.
      * apply Forall_forall. intros e [line ->]%Hev. simpl. tauto.
      * constructor; [simpl; tauto | constructor].
  - right. exists (validateRef.1 ++ trc), msg. split; [done|].
    apply Forall_app. by split.
Qed.

Lemma CompareEnvs_main_shape :
  (∃ pre r, main = (pre ++ [Stdout r], Ret tt) ∧ quiet pre)
  ∨ (∃ pre line, main = (pre ++ [Stderr line], Exit 1) ∧ quiet pre).
Proof.
  rewrite CompareEnvs_main_unfold. rewrite (bind_unfold checkRepoPath).
  destruct CompareEnvs_checkRepoPath_shape
    as [(_ & line & ->)|[(_ & _ & line & ->)|(_ & _ & line & ->)]];
    cbn [fst snd].
  - right. exists [FsAccess repoPath], line. split; [done|].
    constructor; [simpl; tauto | constructor].
  - right. exists [FsAccess repoPath; FsAccess (join path repoPath ".git")], line.
    split; [done|]. unfold Views.quiet.
    constructor; [simpl; tauto|]. constructor; [simpl; tauto|]. constructor.
  - assert (@Views.quiet (gmap string CompareEnvs.FileDiff)
              [FsAccess repoPath; FsAccess (join path repoPath ".git");
               Stderr line]) as Hq0.
    { unfold Views.quiet. constructor; [simpl; tauto|].
      constructor; [simpl; tauto|]. constructor; [simpl; tauto|]. constructor. }
    unfold tryCatch.
    destruct CompareEnvs_body_shape as [(pre & r & -> & Hq)|(pre & msg & -> & Hq)];
      cbn [fst snd].
    + left.
      exists ([FsAccess repoPath; FsAccess (join path repoPath ".git");
               Stderr line] ++ pre), r.
      split; [reflexivity|]. apply Forall_app. by split.
    + right.
      exists ([FsAccess repoPath; FsAccess (join path repoPath ".git");
               Stderr line] ++ pre), ("ข้อผิดพลาด: " +:+ msg).
      split; [reflexivity|]. apply Forall_app. by split.
Qed.

End CompareEnvsOutcomes.

(** X15: Every run of compare_envs.js ends in one of two ways: with exit
    status 0, the JSON report being the last action and the only one printed
    on stdout; or with exit status 1, nothing printed on stdout at all and a
    message on stderr as the last action. *)
Theorem CompareEnvs_script_prints_once_or_fails
  (git : Git) (path : Path) (parse : string → gmap string string)
  (access : string → option string) (repoPath : string) (argv : list string) :
  ((CompareEnvs.script git path parse access repoPath argv).2 = 0%nat
   ∧ ∃ pre r, (CompareEnvs.script git path parse access repoPath argv).1
              = pre ++ [Stdout r]
              ∧ Views.quiet pre)
  ∨ ((CompareEnvs.script git path parse access repoPath argv).2 = 1%nat
     ∧ Views.quiet (CompareEnvs.script git path parse access repoPath argv).1
     ∧ ∃ pre line, (CompareEnvs.script git path parse access repoPath argv).1
                   = pre ++ [Stderr line]).
Proof.
  unfold CompareEnvs.script. destruct (Obj.falsy _).
  { right. simpl. split; [done|]. split.
    - constructor; [simpl; tauto | constructor].
    - by exists [], "การใช้งาน: node compare_envs.js <tag> [filter]". }
  destruct (simpleGit git) as [text|].
  { right. simpl. split; [done|]. split.
    - constructor; [simpl; tauto | constructor].
    - by exists [], text. }
  destruct (CompareEnvs_main_shape git path parse access repoPath
              (default "" (argv !! 2%nat)) (CompareEnvs.filterArg argv))
    as [(pre & r & -> & Hq)|(pre & line & -> & Hq)]; simpl.
  - left. split; [done|]. eauto.
  - right. split; [done|]. split; [|eauto].
    apply Forall_app. split; [done|]. constructor; [simpl; tauto | constructor].
Qed.

(** X16: When the repository directory can be accessed but its [.git]
    entry cannot (a directory that is not a git repository), [main] of
    compare_envs.js stops in [checkRepoPath]: the run is exactly the two
    access checks followed by the line saying that the directory does not
    exist or is not a git repository, and it ends with exit status 1; no
    git call is made and no report is printed, whatever the handle would
    answer. *)
Theorem CompareEnvs_unusable_repository_is_fatal
  (git : Git) (path : Path) (parse : string → gmap string string)
  (access : string → option string) (repoPath tag flt : string) :
  access repoPath = None →
  is_Some (access (join path repoPath ".git")) →
  CompareEnvs.main git path parse access repoPath tag flt
  = ([FsAccess repoPath; FsAccess (join path repoPath ".git");
      Stderr ("ข้อผิดพลาด: Directory " +:+ repoPath
              +:+ " ไม่มีอยู่หรือไม่ใช่ Git repository")], Exit 1)
  ∧ Forall (fun e => ¬ Views.gitCall e ∧ ¬ Spec.printsJson e)
      (CompareEnvs.main git path parse access repoPath tag flt).1.
Proof.
  intros Ha [m Hg].
  assert (CompareEnvs.main git path parse access repoPath tag flt
          = ([FsAccess repoPath; FsAccess (join path repoPath ".git");
              Stderr ("ข้อผิดพลาด: Directory " +:+ repoPath
                      +:+ " ไม่มีอยู่หรือไม่ใช่ Git repository")], Exit 1))
    as ->.
  { rewrite CompareEnvs_main_unfold.
    rewrite (bind_unfold (CompareEnvs.checkRepoPath path access repoPath)).
    destruct (CompareEnvs_checkRepoPath_exact path access repoPath)
      as [([? Hx] & _)|[(_ & _ & ->)|(_ & Hx & _)]]; [congruence| |congruence].
    reflexivity. }
  split; [done|]. cbn [fst].
  constructor; [simpl; tauto|]. constructor; [simpl; tauto|].
  constructor; [simpl; tauto|]. constructor.
Qed.

Lemma CompareEnvs_unusable_repository_witness :
  CompareEnvs.main Sample.repo Sample.posix Sample.parse Views.noDotGit
    "/srv/cloud-config" "v2" "true"
  = ([FsAccess "/srv/cloud-config";
      FsAccess (join Sample.posix "/srv/cloud-config" ".git");
      Stderr ("ข้อผิดพลาด: Directory " +:+ "/srv/cloud-config"
              +:+ " ไม่มีอยู่หรือไม่ใช่ Git repository")], Exit 1)
  ∧ Forall (fun e => ¬ Views.gitCall e ∧ ¬ Spec.printsJson e)
      (CompareEnvs.main Sample.repo Sample.posix Sample.parse Views.noDotGit
         "/srv/cloud-config" "v2" "true").1.
Proof.
  apply (CompareEnvs_unusable_repository_is_fatal Sample.repo Sample.posix
           Sample.parse Views.noDotGit "/srv/cloud-config" "v2" "true").
  - vm_compute. reflexivity.
  - vm_compute. eauto.
Defined.

(** ** Reading the output of [ls-tree] *)

Lemma split_go_line sep l rest : ∀ cur,
  sep ∉ l →
  JS.split_go sep cur (l ++ sep :: rest)
  = string_of_list_ascii (reverse cur ++ l) :: JS.split_go sep [] rest.
Proof.
  induction l as [|c l IH]; intros cur Hsep; simpl.
  - rewrite decide_True by done. by rewrite app_nil_r.
  - apply not_elem_of_cons in Hsep as [Hc Hl].
    rewrite decide_False by done. rewrite IH by done.
    by rewrite reverse_cons, <- app_assoc.
Qed.

Lemma plainPath_spec p :
  Views.plainPath p = true →
  ("010"%char ∉ list_ascii_of_string p) ∧ JS.trim p ≠ "".
Proof.
  unfold Views.plainPath. intros [H1 H2]%andb_true_iff.
  apply negb_true_iff in H1, H2.
  split; [by apply (bool_decide_eq_false_1 (_ ∈ _))
         | by apply (bool_decide_eq_false_1 (_ = _))].
Qed.

Lemma split_lsTreeOutput paths :
  forallb Views.plainPath paths = true →
  JS.split "010" (Views.lsTreeOutput paths) = paths ++ [""].
Proof.
  induction paths as [|p paths IH]; [done|].
  cbn [forallb]. intros [Hp Hps]%andb_true_iff.
  apply plainPath_spec in Hp as [Hp _].
  unfold JS.split in *. cbn [Views.lsTreeOutput foldr].
  rewrite chars_append. cbn [list_ascii_of_string].
  rewrite split_go_line by done. rewrite reverse_nil, app_nil_l.
  rewrite string_of_list_ascii_of_string. cbn [app]. f_equal. by apply IH.
Qed.

Lemma filter_blank_lsTreeOutput paths :
  forallb Views.plainPath paths = true →
  filter (fun f => JS.trim f ≠ "") (JS.split "010" (Views.lsTreeOutput paths))
  = paths.
Proof.
  intros H. rewrite split_lsTreeOutput by done. rewrite filter_app.
  rewrite filter_cons, decide_False by (intros Hn; by apply Hn).
  rewrite filter_nil, app_nil_r.
  induction paths as [|p paths IH]; [done|].
  cbn [forallb] in H. apply andb_true_iff in H as [Hp Hps].
  apply plainPath_spec in Hp as [_ Hp].
  rewrite filter_cons, decide_True by done. f_equal. by apply IH.
Qed.

(** X17: listFiles (both scripts) reads back what [git ls-tree -r
    --name-only] printed: for paths that contain no newline and are not blank,
    printed one per line, it returns exactly these paths, in order, after a
    single git call. *)
Theorem listFiles_reads_back_paths
  (git : Git) (tag dir : string) (paths : list string) :
  forallb Views.plainPath paths = true →
  raw git (CheckConfig.lsTreeArgs tag dir) = inr (Views.lsTreeOutput paths) →
  CheckConfig.listFiles git tag dir
  = ([GitRaw (CheckConfig.lsTreeArgs tag dir)], Ret paths)
  ∧ CompareEnvs.listFiles git tag dir
    = ([GitRaw (CompareEnvs.lsTreeArgs tag dir)], Ret paths).
Proof.
  intros Hplain Hraw. split.
  - unfold CheckConfig.listFiles, tryCatch, await. rewrite bind_unfold, Hraw.
    cbn [fst snd]. by rewrite filter_blank_lsTreeOutput.
  - unfold CompareEnvs.listFiles, tryCatch, await.
    change (CompareEnvs.lsTreeArgs tag dir) with (CheckConfig.lsTreeArgs tag dir).
    rewrite bind_unfold, Hraw. cbn [fst snd].
    by rewrite filter_blank_lsTreeOutput.
Qed.

Lemma listFiles_reads_back_witness :
  CheckConfig.listFiles Sample.repo "v2" "config/pt"
  = ([GitRaw (CheckConfig.lsTreeArgs "v2" "config/pt")],
     Ret ["config/pt/a/svc.properties"; "config/pt/b/svc.properties"])
  ∧ CompareEnvs.listFiles Sample.repo "v2" "config/pt"
    = ([GitRaw (CompareEnvs.lsTreeArgs "v2" "config/pt")],
       Ret ["config/pt/a/svc.properties"; "config/pt/b/svc.properties"]).
Proof.
  apply (listFiles_reads_back_paths Sample.repo "v2" "config/pt"
           ["config/pt/a/svc.properties"; "config/pt/b/svc.properties"]).
  - vm_compute. reflexivity.
  - vm_compute. reflexivity.
Defined.

(** ** Where the cross-environment report comes from *)

Section CompareEnvsOrigin.

Context (git : Git) (path : Path) (parse : string → gmap string string).
Context (tag : string).

Local Abbreviation getFileContent := (CompareEnvs.getFileContent git parse).
Local Abbreviation collectFile := (CompareEnvs.collectFile git path parse tag).
Local Abbreviation collectEnv := (CompareEnvs.collectEnv git path parse tag).
Local Abbreviation collect := (CompareEnvs.collect git path parse tag).
Local Abbreviation storeContent := (Views.storeContent git path parse tag).
Local Abbreviation gathered := (Views.gathered git path parse tag).
Local Abbreviation listed := (Views.listed git tag).

Lemma CompareEnvs_collectFile_Ret env envs p tr envs' :
  collectFile env envs p = (tr, Ret envs') →
  ∃ c, (getFileContent tag p).2 = Ret c
       ∧ envs' = alter (insert (basename path p) c) env envs.
Proof.
  unfold CompareEnvs.collectFile.
  intros (tr1 & c & tr2 & Hc & Hrest & _)%bind_Ret_inv.
  exists c. rewrite Hc. split; [done|]. by injection Hrest as _ <-.
Qed.

Lemma CompareEnvs_files_loop env
  (envs : gmap string (gmap string (option (gmap string string)))) m0
  files tr envs' :
  envs !! env = Some m0 →
  forEachM (collectFile env) envs files = (tr, Ret envs') →
  envs' = <[env := foldl storeContent m0 files]> envs.
Proof.
  intros Hm0 Hrun.
  pose (I := fun (pre : list string)
                 (st : gmap string (gmap string (option (gmap string string)))) =>
               st = <[env := foldl storeContent m0 pre]> envs).
  cut (I files envs'); [done|].
  apply (forEachM_invariant I (collectFile env) files envs) with (tr := tr);
    [| |done]; unfold I.
  { simpl. by rewrite insert_id. }
  intros pre p st st' tr' _ -> Hbody.
  apply CompareEnvs_collectFile_Ret in Hbody as (c & Hc & ->).
  rewrite foldl_snoc, alter_insert_eq. f_equal.
  unfold Views.storeContent at 2. by rewrite Hc.
Qed.

Lemma CompareEnvs_collectEnv_Ret
  (envs : gmap string (gmap string (option (gmap string string)))) env m0
  tr envs' :
  envs !! env = Some m0 →
  collectEnv envs env = (tr, Ret envs') →
  ∃ files, listed env = Some files
           ∧ envs' = <[env := foldl storeContent m0 files]> envs.
Proof.
  intros Hm0. unfold CompareEnvs.collectEnv, Views.listed.
  intros (tr1 & l & tr2 & Hl & Hrest & _)%bind_Ret_inv.
  rewrite Hl. simpl. eexists. split; [done|].
  by eapply CompareEnvs_files_loop.
Qed.

Lemma CompareEnvs_collect_Ret envs :
  collect.2 = Ret envs →
  ∃ ptFiles prodFiles,
    listed "pt" = Some ptFiles ∧ listed "prod" = Some prodFiles
    ∧ envs !! "pt" = Some (gathered ptFiles)
    ∧ envs !! "prod" = Some (gathered prodFiles).
Proof.
  destruct collect as [tr o] eqn:Hrun. simpl. intros ->.
  unfold CompareEnvs.collect in Hrun. cbn [forEachM] in Hrun.
  apply bind_Ret_inv in Hrun as (tr1 & e1 & tr2 & H1 & Hrun & _).
  apply bind_Ret_inv in Hrun as (tr3 & e2 & tr4 & H2 & Hrun & _).
  injection Hrun as _ <-.
  apply (CompareEnvs_collectEnv_Ret _ "pt" ∅) in H1 as (ptFiles & Hpt & ->);
    [|done].
  apply (CompareEnvs_collectEnv_Ret _ "prod" ∅) in H2 as (prodFiles & Hprod & ->);
    [|done].
  exists ptFiles, prodFiles. split; [done|]. split; [done|]. split.
  - rewrite lookup_insert_ne by done. by rewrite lookup_insert_eq.
  - by rewrite lookup_insert_eq.
Qed.

Lemma gathered_is_Some files name :
  is_Some (gathered files !! name) →
  ∃ p, p ∈ files ∧ basename path p = name.
Proof.
  unfold Views.gathered.
  induction files as [|q files IH] using rev_ind; simpl.
  - rewrite lookup_empty. by intros [? ?].
  - rewrite foldl_snoc.
    assert (storeContent (foldl storeContent ∅ files) q
            = match (getFileContent tag q).2 with
              | Ret content =>
                  <[basename path q := content]> (foldl storeContent ∅ files)
              | _ => foldl storeContent ∅ files
              end) as -> by done.
    assert (is_Some (foldl storeContent ∅ files !! name) →
            ∃ p, p ∈ files ++ [q] ∧ basename path p = name) as Hold.
    { intros (p & Hp & Hb)%IH. exists p. split; [|done].
      apply elem_of_app. by left. }
    destruct (getFileContent tag q).2 as [c| |]; [|done..].
    destruct (decide (basename path q = name)) as [Hq|Hq].
    + intros _. exists q. split; [|done]. apply elem_of_app. right. by left.
    + by rewrite lookup_insert_ne.
Qed.

Lemma CompareEnvs_collectEnv_events_dir envs env e :
  e ∈ (collectEnv envs env).1 →
  (∃ spec, e = GitShow spec)
  ∨ e = GitRaw (CompareEnvs.lsTreeArgs tag (CompareEnvs.configDir +:+ "/" +:+ env)).
Proof.
  unfold CompareEnvs.collectEnv.
  intros [He|(l & _ & He)]%bind_events.
  - rewrite CompareEnvs_listFiles_trace in He.
    apply list_elem_of_singleton in He. eauto.
  - left. revert e He. apply Forall_forall, forEachM_events.
    intros st p _. apply Forall_forall. intros e.
    unfold CompareEnvs.collectFile. intros [He|(c & _ & He)]%bind_events.
    + rewrite CompareEnvs_getFileContent_trace in He.
      apply list_elem_of_singleton in He. eauto.
    + by apply elem_of_nil in He.
Qed.

Lemma CompareEnvs_collect_events_dir e :
  e ∈ collect.1 →
  (∃ spec, e = GitShow spec)
  ∨ e = GitRaw (CompareEnvs.lsTreeArgs tag "config/pt")
  ∨ e = GitRaw (CompareEnvs.lsTreeArgs tag "config/prod").
Proof.
  revert e. apply Forall_forall, forEachM_events.
  intros st env Henv. apply Forall_forall.
  intros e [?|He]%CompareEnvs_collectEnv_events_dir; [eauto|]. subst e.
  apply elem_of_cons in Henv as [->|Henv]; [eauto|].
  apply list_elem_of_singleton in Henv as ->. eauto.
Qed.

End CompareEnvsOrigin.

Lemma sample_cross_main_printed :
  Stdout (Sample.crossReport "false")
  ∈ (CompareEnvs.main Sample.repo Sample.posix Sample.parse Sample.access
       "/srv/cloud-config" "v2" "false").1.
Proof. apply last_Some_elem_of. vm_compute. reflexivity. Defined.

(** X18: Every file name in the report printed by compare_envs.js is the
    base name of a [.properties] path listed under config/pt or config/prod at
    the given revision, and the only raw git calls of a run are the commit
    listing and the ls-tree of these two directories at that revision. *)
Theorem CompareEnvs_report_comes_from_the_two_listings
  (git : Git) (path : Path) (parse : string → gmap string string)
  (access : string → option string) (repoPath tag flt : string) r :
  Stdout r ∈ (CompareEnvs.main git path parse access repoPath tag flt).1 →
  (∃ ptFiles prodFiles,
     Views.listed git tag "pt" = Some ptFiles
     ∧ Views.listed git tag "prod" = Some prodFiles
     ∧ ∀ name, is_Some (r !! name) →
         ∃ p, (p ∈ ptFiles ∨ p ∈ prodFiles)
              ∧ JS.endsWith p ".properties" = true
              ∧ basename path p = name)
  ∧ (∀ args,
       GitRaw args ∈ (CompareEnvs.main git path parse access repoPath tag flt).1 →
       args = ["rev-list"; "--all"]
       ∨ args = CompareEnvs.lsTreeArgs tag "config/pt"
       ∨ args = CompareEnvs.lsTreeArgs tag "config/prod").
Proof.
  intros Hr. split.
  - apply CompareEnvs_main_Stdout in Hr as (envs & Hc & Hcmp).
    destruct (CompareEnvs_collect_Ret git path parse tag envs Hc)
      as (ptFiles & prodFiles & Hpt & Hprod & Hept & Heprod).
    exists ptFiles, prodFiles. split; [done|]. split; [done|].
    intros name Hname.
    rewrite (CompareEnvs_compareAll_lookup flt envs r name Hcmp) in Hname.
    destruct (decide (name ∈ CompareEnvs.allFiles envs)) as [Hin|];
      [|by destruct Hname].
    unfold CompareEnvs.allFiles in Hin. rewrite Hept, Heprod in Hin. simpl in Hin.
    apply elem_of_uniq, elem_of_app in Hin.
    assert (∀ env files, Views.listed git tag env = Some files →
              ∀ p, p ∈ files → JS.endsWith p ".properties" = true) as Hends.
    { intros env files Hl p Hp. unfold Views.listed in Hl.
      destruct (CompareEnvs.listFiles git tag _).2; [|done..].
      injection Hl as <-. apply list_elem_of_filter in Hp as [Hp _].
      by apply Is_true_true. }
    destruct Hin as [Hin|Hin]; apply elem_of_map_keys in Hin;
      apply gathered_is_Some in Hin as (p & Hp & Hb); exists p.
    + split; [by left|]. split; [apply (Hends "pt" ptFiles Hpt p Hp) | done].
    + split; [by right|].
      split; [apply (Hends "prod" prodFiles Hprod p Hp) | done].
  - intros args [[? [=]]|[[? [=]]|[[=]|[[= ->]|[[_ He]|[_ He]]]]]]%CompareEnvs_main_events.
    + by left.
    + apply CompareEnvs_collect_events_dir in He as [[? [=]]|[[= ->]|[= ->]]]; auto.
    + by destruct He as (? & ? & _ & _ & [=]).
Qed.

Lemma CompareEnvs_report_origin_witness :
  (∃ ptFiles prodFiles,
     Views.listed Sample.repo "v2" "pt" = Some ptFiles
     ∧ Views.listed Sample.repo "v2" "prod" = Some prodFiles
     ∧ ∀ name, is_Some (Sample.crossReport "false" !! name) →
         ∃ p, (p ∈ ptFiles ∨ p ∈ prodFiles)
              ∧ JS.endsWith p ".properties" = true
              ∧ basename Sample.posix p = name)
  ∧ (∀ args,
       GitRaw args ∈ (CompareEnvs.main Sample.repo Sample.posix Sample.parse
                        Sample.access "/srv/cloud-config" "v2" "false").1 →
       args = ["rev-list"; "--all"]
       ∨ args = CompareEnvs.lsTreeArgs "v2" "config/pt"
       ∨ args = CompareEnvs.lsTreeArgs "v2" "config/prod").
Proof.
  exact (CompareEnvs_report_comes_from_the_two_listings Sample.repo Sample.posix
           Sample.parse Sample.access "/srv/cloud-config" "v2" "false"
           (Sample.crossReport "false") sample_cross_main_printed).
Defined.

(** ** What is fetched *)

Lemma CheckConfig_processEnv_fetches
  (git : Git) (path : Path) (parse : string → gmap string string)
  (oldTag newTag : string) res env spec :
  GitShow spec ∈ (CheckConfig.processEnv git path parse oldTag newTag res env).1 →
  ∃ p, JS.endsWith p ".properties" = true
       ∧ (spec = oldTag +:+ ":" +:+ p ∨ spec = newTag +:+ ":" +:+ p).
Proof.
  unfold CheckConfig.processEnv.
  intros [He|(l & _ & He)]%bind_events.
  { rewrite CheckConfig_listFiles_trace in He.
    by apply list_elem_of_singleton in He. }
  revert He.
  generalize (<[env:=∅]> res : gmap string (gmap string CheckConfig.FileDiff)).
  intros st He.
  assert (Forall (fun e : Event (gmap string (gmap string CheckConfig.FileDiff)) =>
            ∀ s, e = GitShow s →
              ∃ p, JS.endsWith p ".properties" = true
                   ∧ (s = oldTag +:+ ":" +:+ p ∨ s = newTag +:+ ":" +:+ p))
            (forEachM (CheckConfig.processFile git path parse oldTag newTag env)
               st (filter (fun f => JS.endsWith f ".properties") l)).1) as Hall.
  { apply forEachM_events. intros st' p [Hp _]%list_elem_of_filter.
    apply Is_true_true in Hp. apply Forall_forall. intros e He' s ->.
    unfold CheckConfig.processFile in He'.
    apply bind_events in He' as [He'|(o & _ & He')].
    { rewrite CheckConfig_getFileContent_trace in He'.
      apply list_elem_of_singleton in He'. injection He' as ->. eauto. }
    apply bind_events in He' as [He'|(n & _ & He')].
    { rewrite CheckConfig_getFileContent_trace in He'.
      apply list_elem_of_singleton in He'. injection He' as ->. eauto. }
    destruct (CheckConfig.retained _ _ _); by apply elem_of_nil in He'. }
  rewrite Forall_forall in Hall. by apply (Hall _ He).
Qed.

Lemma CompareEnvs_collectEnv_fetches
  (git : Git) (path : Path) (parse : string → gmap string string)
  (tag : string) envs env spec :
  GitShow spec ∈ (CompareEnvs.collectEnv git path parse tag envs env).1 →
  ∃ p, JS.endsWith p ".properties" = true ∧ spec = tag +:+ ":" +:+ p.
Proof.
  unfold CompareEnvs.collectEnv.
  intros [He|(l & _ & He)]%bind_events.
  { rewrite CompareEnvs_listFiles_trace in He.
    by apply list_elem_of_singleton in He. }
  assert (Forall (fun e : Event (gmap string CompareEnvs.FileDiff) =>
            ∀ s, e = GitShow s →
              ∃ p, JS.endsWith p ".properties" = true ∧ s = tag +:+ ":" +:+ p)
            (forEachM (CompareEnvs.collectFile git path parse tag env)
               envs (filter (fun f => JS.endsWith f ".properties") l)).1) as Hall.
  { apply forEachM_events. intros st' p [Hp _]%list_elem_of_filter.
    apply Is_true_true in Hp. apply Forall_forall. intros e He' s ->.
    unfold CompareEnvs.collectFile in He'.
    apply bind_events in He' as [He'|(o & _ & He')].
    { rewrite CompareEnvs_getFileContent_trace in He'.
      apply list_elem_of_singleton in He'. injection He' as ->. eauto. }
    by apply elem_of_nil in He'. }
  rewrite Forall_forall in Hall. by apply (Hall _ He).
Qed.

(** X19: Both scripts fetch (git show) only paths that end in [.properties],
    and only at the revisions given on the command line: oldTag or newTag in
    check_config.js, tag in compare_envs.js. *)
Theorem only_properties_files_are_fetched
  (git : Git) (path : Path) (parse : string → gmap string string)
  (access : string → option string) (repoPath : string) :
  (∀ oldTag newTag spec,
     GitShow spec ∈ (CheckConfig.main git path parse oldTag newTag).1 →
     ∃ p, JS.endsWith p ".properties" = true
          ∧ (spec = oldTag +:+ ":" +:+ p ∨ spec = newTag +:+ ":" +:+ p))
  ∧ (∀ tag flt spec,
       GitShow spec
       ∈ (CompareEnvs.main git path parse access repoPath tag flt).1 →
       ∃ p, JS.endsWith p ".properties" = true ∧ spec = tag +:+ ":" +:+ p).
Proof.
  split.
  - intros oldTag newTag spec [[=]|[[=]|[He|[? [=]]]]]%CheckConfig_main_events.
    unfold CheckConfig.scan in He.
    apply bind_events in He as [He|(listing & _ & He)].
    { apply tryCatch_events in He as [He|(msg & _ & He)].
      - apply bind_events in He as [He|(a & _ & He)].
        + rewrite CheckConfig_listFiles_trace in He.
          by apply list_elem_of_singleton in He.
        + by apply elem_of_nil in He.
      - apply bind_events in He as [He|(a & _ & He)].
        + by apply list_elem_of_singleton in He.
        + by apply elem_of_nil in He. }
    destruct listing as [allFiles|]; [|by apply elem_of_nil in He].
    apply bind_events in He as [He|(result & _ & He)];
      [|by apply list_elem_of_singleton in He].
    assert (Forall (fun e : Event (gmap string (gmap string CheckConfig.FileDiff)) =>
              ∀ s, e = GitShow s →
                ∃ p, JS.endsWith p ".properties" = true
                     ∧ (s = oldTag +:+ ":" +:+ p ∨ s = newTag +:+ ":" +:+ p))
              (forEachM (CheckConfig.processEnv git path parse oldTag newTag)
                 ∅ (CheckConfig.envsOf path allFiles)).1) as Hall.
    { apply forEachM_events. intros st env _. apply Forall_forall.
      intros e He' s ->. by eapply CheckConfig_processEnv_fetches. }
    rewrite Forall_forall in Hall. by apply (Hall _ He).
  - intros tag flt spec
      [[? [=]]|[[? [=]]|[[=]|[[=]|[[_ He]|[_ He]]]]]]%CompareEnvs_main_events.
    + assert (Forall (fun e : Event (gmap string CompareEnvs.FileDiff) =>
                ∀ s, e = GitShow s →
                  ∃ p, JS.endsWith p ".properties" = true
                       ∧ s = tag +:+ ":" +:+ p)
                (CompareEnvs.collect git path parse tag).1) as Hall.
      { apply forEachM_events. intros st env _. apply Forall_forall.
        intros e He' s ->. by eapply CompareEnvs_collectEnv_fetches. }
      rewrite Forall_forall in Hall. by apply (Hall _ He).
    + by destruct He as (? & ? & _ & _ & [=]).
Qed.

(** ** Retention of file entries, path by path *)


